(** * A visual-novel story interpreter and its validator

    Shallow embedding of [engine/story-format.js], [engine/validator.js] and
    [engine/engine.js].  JavaScript objects used as dictionaries of scalars
    are finite maps, the node tree keeps the order of [Object.entries], the
    engine is a record threaded through a small state-and-exception monad,
    and what the engine writes to the page or to the console is appended to
    a trace. *)

From Stdlib Require Import Ascii String ZArith.
From stdpp Require Import base option list gmap strings pretty.

Local Open Scope string_scope.
Local Open Scope list_scope.

(** ** JavaScript helpers *)

Module Js.

(** Scalar values held by story variables; [VUndefined] is the value of a
    property that was never written. *)
Inductive Value : Type :=
| VUndefined
| VNull
| VBool (b : bool)
| VNum (z : Z)
| VStr (s : string).

(** What a [throw] carries: a [TypeError] raised by the runtime (a property
    read on [undefined]) or an error raised by author-supplied code. *)
Inductive Error : Type :=
| TypeError (what : string)
| AuthorError (msg : string).

(** [!x] fails for a string-valued property exactly when the property is a
    non-empty string; [undefined], [null] and [""] are all falsy. *)
Definition truthy (x : option string) : bool :=
  match x with
  | Some s => negb (String.eqb s "")
  | None => false
  end.

(** [s.split('.')]: the pieces between the dots, one more than the number of
    dots; [''.split('.')] is [['']]. *)
Fixpoint split_dot (s : string) : list string :=
  match s with
  | EmptyString => [EmptyString]
  | String c rest =>
      if Ascii.eqb c "."%char then EmptyString :: split_dot rest
      else match split_dot rest with
           | piece :: pieces => String c piece :: pieces
           | [] => [String c EmptyString]
           end
  end.

(** [parts.join('.')]. *)
Fixpoint join_dot (parts : list string) : string :=
  match parts with
  | [] => ""
  | [p] => p
  | p :: rest => p +:+ "." +:+ join_dot rest
  end.

(** [parts.slice(0, n)]. *)
Definition slice0 (n : nat) (parts : list string) : list string := take n parts.

(** The property names every object inherits from [Object.prototype],
    those of Annex B of ECMAScript included.  On an object that has no key
    [k] of its own, [obj[k]] is [undefined] unless [k] is one of them: then
    it is a function, or the prototype itself for [__proto__], and
    truthy. *)
Definition object_prototype : list string :=
  ["constructor"; "hasOwnProperty"; "isPrototypeOf"; "propertyIsEnumerable";
   "toLocaleString"; "toString"; "valueOf"; "__proto__";
   "__defineGetter__"; "__defineSetter__"; "__lookupGetter__";
   "__lookupSetter__"].

Definition inherited (k : string) : bool :=
  existsb (String.eqb k) object_prototype.

(** [set.add(x)] on a [Set] kept in insertion order. *)
Definition set_add (x : string) (s : list string) : list string :=
  if decide (x ∈ s) then s else s ++ [x].

End Js.

(** ** story-format.js *)

Module StoryFormat.

Export Js.

(** The heap cells that hold [variables] objects. *)
Abbreviation loc := positive.
Abbreviation Variables := (gmap string Value).

(** [TestFn], [ComputeValue] and [EffectFn] receive the state object and so
    read the variables mapping it points to; an effect may also write that
    mapping, and each of them may throw.  An effect that throws keeps what
    it had written before the throw. *)
Definition TestFn : Type := Variables -> Error + bool.
Definition ComputeValue : Type := Variables -> Error + Value.
Definition EffectFn : Type := Variables -> Variables * option Error.

Module StepType.
Inductive t : Type :=
| background
| show_character
| hide_character
| dialogue
| narration
| set_variable
| jump_to
| conditional_jump
| choice
| end_story
| other (name : string).
End StepType.

Record CharacterPosition : Type := { position_name : option string }.
Record CharacterPose : Type := { pose_name : option string }.

Module CharacterPositions.
Definition left : CharacterPosition := {| position_name := Some "left" |}.
Definition center : CharacterPosition := {| position_name := Some "center" |}.
Definition right : CharacterPosition := {| position_name := Some "right" |}.
End CharacterPositions.

Module CharacterPoses.
Definition neutral : CharacterPose := {| pose_name := Some "neutral" |}.
Definition happy : CharacterPose := {| pose_name := Some "happy" |}.
Definition sad : CharacterPose := {| pose_name := Some "sad" |}.
End CharacterPoses.

(** [[label, nodeId, effectFn?]]. *)
Record ChoiceOption : Type := {
  label : option string;
  target : option string;
  effectFn : option EffectFn
}.

(** [value] of a [set_variable] step: a constant or a function of the
    state.  A step without the property has [Literal VUndefined]. *)
Inductive VarSource : Type :=
| Literal (v : Value)
| Computed (f : ComputeValue).

(** The [Step] typedef: a kind and the optional properties of every kind. *)
Record Step : Type := {
  type : option StepType.t;
  id : option string;
  nodeId : option string;
  who : option string;
  text : option string;
  pose : option CharacterPose;
  position : option CharacterPosition;
  key : option string;
  value : VarSource;
  test : option TestFn;
  thenNodeId : option string;
  elseNodeId : option string;
  prompt : option string;
  options : option (list ChoiceOption)
}.

(** The object literal [{type: t}], the other properties left out. *)
Definition step_of (t : StepType.t) : Step :=
  {| type := Some t; id := None; nodeId := None; who := None; text := None;
     pose := None; position := None; key := None;
     value := Literal VUndefined; test := None; thenNodeId := None;
     elseNodeId := None; prompt := None; options := None |}.

Definition background (i : string) : Step :=
  {| type := Some StepType.background; id := Some i; nodeId := None;
     who := None; text := None; pose := None; position := None; key := None;
     value := Literal VUndefined; test := None; thenNodeId := None;
     elseNodeId := None; prompt := None; options := None |}.

Definition showCharacter (i : string) (p : CharacterPose)
    (pos : CharacterPosition) : Step :=
  {| type := Some StepType.show_character; id := Some i; nodeId := None;
     who := None; text := None; pose := Some p; position := Some pos;
     key := None; value := Literal VUndefined; test := None;
     thenNodeId := None; elseNodeId := None; prompt := None;
     options := None |}.

Definition hideCharacter (i : string) : Step :=
  {| type := Some StepType.hide_character; id := Some i; nodeId := None;
     who := None; text := None; pose := None; position := None; key := None;
     value := Literal VUndefined; test := None; thenNodeId := None;
     elseNodeId := None; prompt := None; options := None |}.

Definition dialogue (w txt : string) : Step :=
  {| type := Some StepType.dialogue; id := None; nodeId := None;
     who := Some w; text := Some txt; pose := None; position := None;
     key := None; value := Literal VUndefined; test := None;
     thenNodeId := None; elseNodeId := None; prompt := None;
     options := None |}.

Definition narration (txt : string) : Step :=
  {| type := Some StepType.narration; id := None; nodeId := None;
     who := None; text := Some txt; pose := None; position := None;
     key := None; value := Literal VUndefined; test := None;
     thenNodeId := None; elseNodeId := None; prompt := None;
     options := None |}.

Definition setVariable (k : string) (v : VarSource) : Step :=
  {| type := Some StepType.set_variable; id := None; nodeId := None;
     who := None; text := None; pose := None; position := None;
     key := Some k; value := v; test := None; thenNodeId := None;
     elseNodeId := None; prompt := None; options := None |}.

Definition jumpTo (n : string) : Step :=
  {| type := Some StepType.jump_to; id := None; nodeId := Some n;
     who := None; text := None; pose := None; position := None; key := None;
     value := Literal VUndefined; test := None; thenNodeId := None;
     elseNodeId := None; prompt := None; options := None |}.

(** [elseNodeId = null] by default. *)
Definition conditionalJump (f : TestFn) (thenN : string)
    (elseN : option string) : Step :=
  {| type := Some StepType.conditional_jump; id := None; nodeId := None;
     who := None; text := None; pose := None; position := None; key := None;
     value := Literal VUndefined; test := Some f; thenNodeId := Some thenN;
     elseNodeId := elseN; prompt := None; options := None |}.

Definition choice (p : string) (opts : list ChoiceOption) : Step :=
  {| type := Some StepType.choice; id := None; nodeId := None; who := None;
     text := None; pose := None; position := None; key := None;
     value := Literal VUndefined; test := None; thenNodeId := None;
     elseNodeId := None; prompt := Some p; options := Some opts |}.

Definition endStory : Step := step_of StepType.end_story.

(** The [Nodes] typedef, [Record<string, Step[] | Nodes>].  A group is the
    list of its entries in the order [Object.entries] yields them; a
    property read [current[part]] finds the first entry of that name.  Only
    the entries themselves are properties here: array indices and inherited
    names ([length], [constructor]) are not node names. *)
#[warnings="-register-all"]
Inductive NodeEntry : Type :=
| StepArray (steps : list Step)
| NestedGroup (children : list (string * NodeEntry)).

Abbreviation Nodes := (list (string * NodeEntry)).

Record Character : Type := {
  name : option string;
  poses : gmap string string
}.

(** The [Story] typedef.  [variables] is a reference to the object that the
    story document owns; [characters] and [places] are taken as present. *)
Record Story : Type := {
  start : option string;
  variables : option loc;
  nodes : option Nodes;
  characters : gmap string Character;
  places : gmap string string
}.

(** [group[part]] for a group given by its entries. *)
Fixpoint get_entry (part : string) (entries : Nodes) : option NodeEntry :=
  match entries with
  | [] => None
  | (k, v) :: rest => if String.eqb k part then Some v else get_entry part rest
  end.

(** [current[part]], looked up among the keys of a group.  What a step
    array answers to an index, to [length] or to the name of a method, and
    what a group answers to a name it inherits, is outside the tree and is
    not modelled: the statements about paths that do not resolve are made
    for walks that read none of these. *)
Definition get_prop (current : NodeEntry) (part : string) : option NodeEntry :=
  match current with
  | StepArray _ => None
  | NestedGroup entries => get_entry part entries
  end.

End StoryFormat.

(** ** validator.js *)

Module Validator.

Export StoryFormat.

Inductive Severity : Type := error | warning.

#[global] Instance Severity_eq_dec : EqDecision Severity.
Proof. solve_decision. Defined.

(** One constructor per message template of the validator. *)
Inductive Message : Type :=
| MissingStart
| MissingNodes
| MissingVariables
| StartNodeMissing (startId : string)
| ReferencedNodeMissing (nodeId : string)
| UnreachableNode (nodeId : string)
| EmptyNode (nodeId : string)
| StepMissingType
| BackgroundMissingId
| BackgroundUndefined (placeId : string)
| ShowCharacterMissingId
| CharacterUndefined (charId : string)
| PoseUndefined (poseName : string) (charId : string)
| ShowCharacterMissingPose
| ShowCharacterMissingPosition
| HideCharacterMissingId
| DialogueMissingWho
| DialogueCharacterUndefined (charId : string)
| DialogueMissingText
| NarrationMissingText
| SetVariableMissingKey
| SetVariableMissingValue
| JumpToMissingNodeId
| ConditionalJumpMissingTest
| ConditionalJumpMissingThen
| ChoiceMissingPrompt
| ChoiceInvalidOptions
| ChoiceNoOptions
| ChoiceOptionMissingLabel (optIdx : nat)
| UnknownStepType (kind : string)
| NoEnding (nodeId : string).

(** The shapes of [location]: ['story.start'], [jump to "id"], a node id,
    [node[i]] and [node[i].options[j]]. *)
Inductive Location : Type :=
| AtStoryStart
| AtJumpTo (nodeId : string)
| AtNode (nodeId : string)
| AtStep (nodeId : string) (i : nat)
| AtOption (nodeId : string) (i : nat) (optIdx : nat).

Module Diag.
Record t : Type := {
  type : Severity;
  message : Message;
  location : option Location
}.
End Diag.

Definition diag (sev : Severity) (msg : Message) (loc : Location) : Diag.t :=
  {| Diag.type := sev; Diag.message := msg; Diag.location := Some loc |}.

(** The two accumulators every validation function is handed: the [errors]
    array and the [referencedNodeIds] set. *)
Record Acc : Type := {
  errors : list Diag.t;
  referencedNodeIds : list string
}.

Definition push (d : Diag.t) (a : Acc) : Acc :=
  {| errors := errors a ++ [d]; referencedNodeIds := referencedNodeIds a |}.

Definition reference (n : string) (a : Acc) : Acc :=
  {| errors := errors a; referencedNodeIds := set_add n (referencedNodeIds a) |}.

Definition push_if (b : bool) (d : Diag.t) (a : Acc) : Acc :=
  if b then push d a else a.

(** A property name that is [undefined] reads the property ["undefined"]. *)
Definition js_key (o : option string) : string := default "undefined" o.

(** [resolveNode(nodes, nodeId)]: the loop over the parts, then the
    [Array.isArray] test. *)
Fixpoint walk (current : NodeEntry) (parts : list string) : option NodeEntry :=
  match parts with
  | [] => Some current
  | part :: rest =>
      match get_prop current part with
      | None => None
      | Some next => walk next rest
      end
  end.

Definition resolveNode (nodes : Nodes) (nodeId : string) : option (list Step) :=
  match walk (NestedGroup nodes) (split_dot nodeId) with
  | Some (StepArray steps) => Some steps
  | _ => None
  end.

(** [prefix ? `${prefix}.${key}` : key]. *)
Definition fullId (prefix key : string) : string :=
  if String.eqb prefix "" then key else prefix +:+ "." +:+ key.

(** [collectNodeIds]: the value of one entry, then the loop over the
    entries of a group. *)
Fixpoint collectValue (full : string) (value : NodeEntry) : list string :=
  match value with
  | StepArray _ => [full]
  | NestedGroup nested =>
      foldl (fun ids kv =>
               foldl (fun ids' i => set_add i ids') ids
                     (collectValue (fullId full kv.1) kv.2))
            [] nested
  end.

Definition collectNodeIds (nodes : Nodes) (prefix : string) : list string :=
  foldl (fun ids kv =>
           foldl (fun ids' i => set_add i ids') ids
                 (collectValue (fullId prefix kv.1) kv.2))
        [] nodes.

(** The body of [options.forEach]: every option of the model is an array. *)
Definition validateOption (nodeId : string) (i : nat) (optIdx : nat)
    (option : ChoiceOption) (a : Acc) : Acc :=
  let a := push_if (negb (truthy (label option)))
             (diag error (ChoiceOptionMissingLabel optIdx)
                   (AtOption nodeId i optIdx)) a in
  match target option with
  | Some targetNodeId =>
      if truthy (Some targetNodeId) then reference targetNodeId a else a
  | None => a
  end.

Fixpoint validateOptions (nodeId : string) (i : nat) (optIdx : nat)
    (opts : list ChoiceOption) (a : Acc) : Acc :=
  match opts with
  | [] => a
  | option :: rest =>
      validateOptions nodeId i (S optIdx) rest
        (validateOption nodeId i optIdx option a)
  end.

(** The [switch] of [validateSteps] for the step at index [i]; the boolean
    says whether the case sets [hasEnding].  The set
    [visibleCharactersInNode] is written and never read, and is left out.
    [character.poses[poseName]] is looked up among the keys of the
    character's poses. *)
Definition validateStep (story : Story) (nodeId : string) (i : nat)
    (step : Step) (a : Acc) : Acc * bool :=
  let here := AtStep nodeId i in
  match type step with
  | None => (push (diag error StepMissingType here) a, false)
  | Some StepType.background =>
      (match id step with
       | Some placeId =>
           if negb (truthy (Some placeId))
           then push (diag error BackgroundMissingId here) a
           else push_if (negb (bool_decide (is_Some (places story !! placeId))))
                  (diag error (BackgroundUndefined placeId) here) a
       | None => push (diag error BackgroundMissingId here) a
       end, false)
  | Some StepType.show_character =>
      let a :=
        match id step with
        | Some charId =>
            if negb (truthy (Some charId))
            then push (diag error ShowCharacterMissingId here) a
            else match characters story !! charId with
                 | None => push (diag error (CharacterUndefined charId) here) a
                 | Some character =>
                     match pose step with
                     | Some p =>
                         let poseName := js_key (pose_name p) in
                         push_if (negb (truthy (poses character !! poseName)))
                           (diag error (PoseUndefined poseName charId) here) a
                     | None => a
                     end
                 end
        | None => push (diag error ShowCharacterMissingId here) a
        end in
      let a := push_if (negb (bool_decide (is_Some (pose step))))
                 (diag warning ShowCharacterMissingPose here) a in
      let a := push_if (negb (bool_decide (is_Some (position step))))
                 (diag warning ShowCharacterMissingPosition here) a in
      (a, false)
  | Some StepType.hide_character =>
      (push_if (negb (truthy (id step)))
         (diag error HideCharacterMissingId here) a, false)
  | Some StepType.dialogue =>
      let a :=
        match who step with
        | Some w =>
            if negb (truthy (Some w))
            then push (diag error DialogueMissingWho here) a
            else push_if (negb (bool_decide (is_Some (characters story !! w))))
                   (diag error (DialogueCharacterUndefined w) here) a
        | None => push (diag error DialogueMissingWho here) a
        end in
      (push_if (negb (truthy (text step)))
         (diag error DialogueMissingText here) a, false)
  | Some StepType.narration =>
      (push_if (negb (truthy (text step)))
         (diag error NarrationMissingText here) a, false)
  | Some StepType.set_variable =>
      let a := push_if (negb (truthy (key step)))
                 (diag error SetVariableMissingKey here) a in
      (match value step with
       | Literal VUndefined => push (diag error SetVariableMissingValue here) a
       | _ => a
       end, false)
  | Some StepType.jump_to =>
      (match StoryFormat.nodeId step with
       | Some n =>
           if truthy (Some n) then reference n a
           else push (diag error JumpToMissingNodeId here) a
       | None => push (diag error JumpToMissingNodeId here) a
       end, true)
  | Some StepType.conditional_jump =>
      let a := push_if (negb (bool_decide (is_Some (test step))))
                 (diag error ConditionalJumpMissingTest here) a in
      let a :=
        match thenNodeId step with
        | Some n =>
            if truthy (Some n) then reference n a
            else push (diag error ConditionalJumpMissingThen here) a
        | None => push (diag error ConditionalJumpMissingThen here) a
        end in
      (match elseNodeId step with
       | Some n => if truthy (Some n) then reference n a else a
       | None => a
       end, true)
  | Some StepType.choice =>
      let a := push_if (negb (truthy (prompt step)))
                 (diag warning ChoiceMissingPrompt here) a in
      (match options step with
       | None => push (diag error ChoiceInvalidOptions here) a
       | Some opts =>
           let a := push_if (bool_decide (length opts = 0))
                      (diag error ChoiceNoOptions here) a in
           validateOptions nodeId i 0 opts a
       end, true)
  | Some StepType.end_story => (a, true)
  | Some (StepType.other kind) =>
      (push (diag error (UnknownStepType kind) here) a, false)
  end.

(** The [for] loop of [validateSteps], from index [i] on. *)
Fixpoint validateLoop (story : Story) (nodeId : string) (i : nat)
    (steps : list Step) (hasEnding : bool) (a : Acc) : Acc * bool :=
  match steps with
  | [] => (a, hasEnding)
  | step :: rest =>
      let '(a', ending) := validateStep story nodeId i step a in
      validateLoop story nodeId (S i) rest (hasEnding || ending) a'
  end.

Definition validateSteps (story : Story) (steps : list Step)
    (nodeId : string) (a : Acc) : Acc :=
  match steps with
  | [] => push (diag warning (EmptyNode nodeId) (AtNode nodeId)) a
  | _ =>
      let '(a', hasEnding) := validateLoop story nodeId 0 steps false a in
      push_if (negb hasEnding) (diag warning (NoEnding nodeId) (AtNode nodeId)) a'
  end.

(** [validateNodes]: the value of one entry, then the loop over a group. *)
Fixpoint validateValue (story : Story) (full : string) (value : NodeEntry)
    (a : Acc) : Acc :=
  match value with
  | StepArray steps => validateSteps story steps full a
  | NestedGroup nested =>
      foldl (fun a' kv => validateValue story (fullId full kv.1) kv.2 a')
            a nested
  end.

Definition validateNodes (story : Story) (nodes : Nodes) (prefix : string)
    (a : Acc) : Acc :=
  foldl (fun a' kv => validateValue story (fullId prefix kv.1) kv.2 a') a nodes.

(** The two closing loops of [validateStory]. *)
Definition undefinedReferences (allNodeIds refs : list string) : list Diag.t :=
  omap (fun nodeId =>
          if bool_decide (nodeId ∈ allNodeIds) then None
          else Some (diag error (ReferencedNodeMissing nodeId) (AtJumpTo nodeId)))
       refs.

Definition unreachableNodes (startId : option string)
    (allNodeIds refs : list string) : list Diag.t :=
  omap (fun nodeId =>
          if bool_decide (Some nodeId ≠ startId) && negb (bool_decide (nodeId ∈ refs))
          then Some (diag warning (UnreachableNode nodeId) (AtNode nodeId))
          else None)
       allNodeIds.

Definition validateStory (story : Story) : list Diag.t :=
  let errors0 :=
    if truthy (start story) then []
    else [{| Diag.type := error; Diag.message := MissingStart;
             Diag.location := None |}] in
  match nodes story with
  | None =>
      errors0 ++ [{| Diag.type := error; Diag.message := MissingNodes;
                     Diag.location := None |}]
  | Some nodes =>
      let errors1 :=
        errors0 ++
        (if bool_decide (is_Some (variables story)) then []
         else [{| Diag.type := warning; Diag.message := MissingVariables;
                  Diag.location := None |}]) in
      let errors2 :=
        errors1 ++
        match start story with
        | Some startId =>
            if truthy (Some startId)
               && negb (bool_decide (is_Some (resolveNode nodes startId)))
            then [diag error (StartNodeMissing startId) AtStoryStart]
            else []
        | None => []
        end in
      let allNodeIds := collectNodeIds nodes "" in
      let a := validateNodes story nodes ""
                 {| errors := errors2; referencedNodeIds := [] |} in
      errors a
      ++ undefinedReferences allNodeIds (referencedNodeIds a)
      ++ unreachableNodes (start story) allNodeIds (referencedNodeIds a)
  end.

End Validator.

(** ** engine.js *)

Module VisualNovelEngine.

Export Validator.

(** What the engine writes to the page. *)
Inductive Display : Type :=
| SetBackground (placePath : string)
| SetCharacterSprite (positionName : string) (imagePath : string)
| ClearCharacterSprite (positionName : string)
| SetDialogue (speakerName : option string) (txt : string) (isNarration : bool)
| ContinueIndicator (visible : bool)
| ShowChoiceMenu (promptText : string)
| AddChoiceButton (buttonLabel : string)
| HideChoiceMenu
| ShowEnded.

(** What the engine writes to the console; one constructor per call site,
    carrying what the consecutive [console.error] lines of that site
    print. *)
Module Log.
Inductive t : Type :=
| ValidationReport (diags : list Diag.t)
| CriticalErrors (n : nat)
| NodeNotFound (nodeId : string) (pathSoFar : string) (available : list string)
| NotAStepArray (nodeId : string) (available : list string)
| CannotJump (nodeId : string)
| NodeComplete (node : option string)
| UnknownStepType (kind : option StepType.t)
| ErrorExecutingStep (node : option string) (err : Error)
| BackgroundNotFound (placeId : string)
| CharacterNotFound (charId : string)
| InvalidPose (charId : string)
| PoseNotFound (poseName : string) (charId : string)
| InvalidPosition (charId : string)
| UnknownPosition (positionName : string) (charId : string)
| DialogueMissingWho
| DialogueMissingText (speaker : string)
| SpeakerNotFound (speaker : string)
| NarrationMissingText
| SetVariableMissingKey
| VariableSet (k : string) (v : Value)
| ErrorSettingVariable (k : string) (err : Error)
| NoValidOptions
| OptionMissingLabel (index : nat)
| ErrorExecutingChoice (buttonLabel : string) (err : Error)
| StoryEnded.
End Log.

Inductive Level : Type := LError | LWarn | LLog.

Inductive Event : Type :=
| Render (d : Display)
| Console (lvl : Level) (msg : Log.t).

(** A slot of [visibleCharacters]: [null], or the id that was stored. *)
Inductive Slot : Type :=
| Nobody
| Shown (charId : option string).

Record Visible : Type := {
  at_left : Slot;
  at_center : Slot;
  at_right : Slot
}.

(** A button of [#choice-buttons] with what its click listener captured. *)
Record ChoiceButton : Type := {
  button_label : string;
  button_nodeId : option string;
  button_effectFn : option EffectFn
}.

(** The fields of [this], the heap of variables objects the engine and the
    story document point into, and the trace of what was shown and
    logged. *)
Record Engine : Type := {
  story : Story;
  store : gmap loc Variables;
  state_variables : loc;
  currentNode : option string;
  currentStepIndex : nat;
  currentSteps : list Step;
  waitingForInput : bool;
  visibleCharacters : Visible;
  choiceButtons : list ChoiceButton;
  trace : list Event
}.

Definition with_store (s : gmap loc Variables) (e : Engine) : Engine :=
  {| story := story e; store := s; state_variables := state_variables e;
     currentNode := currentNode e; currentStepIndex := currentStepIndex e;
     currentSteps := currentSteps e; waitingForInput := waitingForInput e;
     visibleCharacters := visibleCharacters e;
     choiceButtons := choiceButtons e; trace := trace e |}.

Definition with_currentStepIndex (i : nat) (e : Engine) : Engine :=
  {| story := story e; store := store e; state_variables := state_variables e;
     currentNode := currentNode e; currentStepIndex := i;
     currentSteps := currentSteps e; waitingForInput := waitingForInput e;
     visibleCharacters := visibleCharacters e;
     choiceButtons := choiceButtons e; trace := trace e |}.

Definition with_waitingForInput (b : bool) (e : Engine) : Engine :=
  {| story := story e; store := store e; state_variables := state_variables e;
     currentNode := currentNode e; currentStepIndex := currentStepIndex e;
     currentSteps := currentSteps e; waitingForInput := b;
     visibleCharacters := visibleCharacters e;
     choiceButtons := choiceButtons e; trace := trace e |}.

Definition with_visibleCharacters (v : Visible) (e : Engine) : Engine :=
  {| story := story e; store := store e; state_variables := state_variables e;
     currentNode := currentNode e; currentStepIndex := currentStepIndex e;
     currentSteps := currentSteps e; waitingForInput := waitingForInput e;
     visibleCharacters := v;
     choiceButtons := choiceButtons e; trace := trace e |}.

Definition with_choiceButtons (bs : list ChoiceButton) (e : Engine) : Engine :=
  {| story := story e; store := store e; state_variables := state_variables e;
     currentNode := currentNode e; currentStepIndex := currentStepIndex e;
     currentSteps := currentSteps e; waitingForInput := waitingForInput e;
     visibleCharacters := visibleCharacters e;
     choiceButtons := bs; trace := trace e |}.

Definition with_trace (t : list Event) (e : Engine) : Engine :=
  {| story := story e; store := store e; state_variables := state_variables e;
     currentNode := currentNode e; currentStepIndex := currentStepIndex e;
     currentSteps := currentSteps e; waitingForInput := waitingForInput e;
     visibleCharacters := visibleCharacters e;
     choiceButtons := choiceButtons e; trace := t |}.

(** The three assignments of [jumpToNode]. *)
Definition enter (n : string) (steps : list Step) (e : Engine) : Engine :=
  {| story := story e; store := store e; state_variables := state_variables e;
     currentNode := Some n; currentStepIndex := 0;
     currentSteps := steps; waitingForInput := waitingForInput e;
     visibleCharacters := visibleCharacters e;
     choiceButtons := choiceButtons e; trace := trace e |}.

(** [this.state.variables], read through the reference. *)
Definition state_vars (e : Engine) : Variables :=
  default ∅ (store e !! state_variables e).

Definition write_state_vars (vs : Variables) (e : Engine) : Engine :=
  with_store (<[state_variables e := vs]> (store e)) e.

(** *** The monad of engine methods

    A method runs on the engine and returns, throws, or is cut off when the
    fuel of the step loop runs out; in each case the engine it leaves is
    kept. *)
Inductive Outcome (A : Type) : Type :=
| Returned (a : A) (e : Engine)
| Threw (err : Error) (e : Engine)
| OutOfFuel (e : Engine).

Arguments Returned {A} a e.
Arguments Threw {A} err e.
Arguments OutOfFuel {A} e.

Definition final {A : Type} (o : Outcome A) : Engine :=
  match o with
  | Returned _ e => e
  | Threw _ e => e
  | OutOfFuel e => e
  end.

Definition M (A : Type) : Type := Engine -> Outcome A.

Definition ret {A : Type} (a : A) : M A := fun e => Returned a e.

Definition bind {A B : Type} (m : M A) (k : A -> M B) : M B :=
  fun e =>
    match m e with
    | Returned a e' => k a e'
    | Threw err e' => Threw err e'
    | OutOfFuel e' => OutOfFuel e'
    end.

Definition throw {A : Type} (err : Error) : M A := fun e => Threw err e.

(** [try { m } catch (error) { h error }]. *)
Definition try_catch {A : Type} (m : M A) (h : Error -> M A) : M A :=
  fun e =>
    match m e with
    | Threw err e' => h err e'
    | o => o
    end.

Definition gets {A : Type} (f : Engine -> A) : M A := fun e => Returned (f e) e.

Definition modify (f : Engine -> Engine) : M unit := fun e => Returned tt (f e).

Definition emit (ev : Event) : M unit :=
  modify (fun e => with_trace (trace e ++ [ev]) e).

Notation "'let*' x ':=' m 'in' k" := (bind m (fun x => k))
  (at level 10, x name, m at level 100, k at level 200).

(** *** Lookups and display *)

(** [Object.keys(current || {})]; the keys of an array are its indices. *)
Definition available (current : option NodeEntry) : list string :=
  match current with
  | Some (NestedGroup entries) => entries.*1
  | Some (StepArray steps) => pretty <$> seq 0 (length steps)
  | None => []
  end.

(** What [resolveNode] finds: the step array, or what it logs before it
    returns [null]. *)
Inductive Resolved : Type :=
| Found (steps : list Step)
| Missing (pathSoFar : string) (keys : list string)
| IsGroup (keys : list string).

(** The [for] loop of [resolveNode] from index [i] on, [rest] being
    [parts.slice(i)], and the [Array.isArray] test after it. *)
Fixpoint resolveLoop (parts : list string) (i : nat)
    (current : option NodeEntry) (rest : list string) : Resolved :=
  match rest with
  | [] =>
      match current with
      | Some (StepArray steps) => Found steps
      | _ => IsGroup (available current)
      end
  | part :: rest' =>
      match current ≫= (fun c => get_prop c part) with
      | None => Missing (join_dot (slice0 (i + 1) parts)) (available current)
      | Some next => resolveLoop parts (S i) (Some next) rest'
      end
  end.

Definition resolve (nodes : option Nodes) (nodeId : string) : Resolved :=
  let parts := split_dot nodeId in
  resolveLoop parts 0 (NestedGroup <$> nodes) parts.

Definition resolveNode (nodeId : string) : M (option (list Step)) :=
  let* nodes := gets (fun e => nodes (story e)) in
  match resolve nodes nodeId with
  | Found steps => ret (Some steps)
  | Missing pathSoFar keys =>
      let* _ := emit (Console LError (Log.NodeNotFound nodeId pathSoFar keys)) in
      ret None
  | IsGroup keys =>
      let* _ := emit (Console LError (Log.NotAStepArray nodeId keys)) in
      ret None
  end.

(** [setBackground].  [this.story.places[placeId]] is looked up among the
    keys of the table; the statements about a place that is not found are
    made for names the table does not inherit either. *)
Definition setBackground (placeId : option string) : M unit :=
  let* placePath := gets (fun e => places (story e) !! js_key placeId) in
  if truthy placePath
  then emit (Render (SetBackground (default "" placePath)))
  else emit (Console LError (Log.BackgroundNotFound (js_key placeId))).

Definition set_slot (positionName : string) (s : Slot) (v : Visible) : Visible :=
  if String.eqb positionName "left"
  then {| at_left := s; at_center := at_center v; at_right := at_right v |}
  else if String.eqb positionName "center"
  then {| at_left := at_left v; at_center := s; at_right := at_right v |}
  else if String.eqb positionName "right"
  then {| at_left := at_left v; at_center := at_center v; at_right := s |}
  else v.

Definition known_position (positionName : string) : bool :=
  String.eqb positionName "left" || String.eqb positionName "center"
  || String.eqb positionName "right".

(** [showCharacter].  Whether the sprite is swapped at once or animated in
    depends on the page's classes and changes no field of the engine; both
    are the one display command.  [this.story.characters[charId]] and
    [character.poses[poseName]] are looked up among the keys of the tables;
    the statements about a character or a pose that is not found are made
    for names the tables do not inherit either. *)
Definition showCharacter (charId : option string) (p : option CharacterPose)
    (pos : option CharacterPosition) : M unit :=
  let* character := gets (fun e => characters (story e) !! js_key charId) in
  match character with
  | None => emit (Console LError (Log.CharacterNotFound (js_key charId)))
  | Some character =>
      match p ≫= pose_name with
      | None => emit (Console LError (Log.InvalidPose (js_key charId)))
      | Some poseName =>
          if negb (truthy (Some poseName))
          then emit (Console LError (Log.InvalidPose (js_key charId)))
          else
            let imagePath := poses character !! poseName in
            if negb (truthy imagePath)
            then emit (Console LError (Log.PoseNotFound poseName (js_key charId)))
            else
              match pos ≫= position_name with
              | None => emit (Console LError (Log.InvalidPosition (js_key charId)))
              | Some positionName =>
                  if negb (truthy (Some positionName))
                  then emit (Console LError (Log.InvalidPosition (js_key charId)))
                  else if negb (known_position positionName)
                  then emit (Console LError
                               (Log.UnknownPosition positionName (js_key charId)))
                  else
                    let* _ := emit (Render (SetCharacterSprite positionName
                                              (default "" imagePath))) in
                    modify (fun e =>
                      with_visibleCharacters
                        (set_slot positionName (Shown charId)
                                  (visibleCharacters e)) e)
              end
      end
  end.

(** [visibleCharId === charId], for an id that is a string or
    [undefined]; a slot that is [null] equals neither. *)
Definition slot_is (s : Slot) (charId : option string) : bool :=
  match s with
  | Nobody => false
  | Shown c => bool_decide (c = charId)
  end.

Definition hideAt (positionName : string) (slot : Visible -> Slot)
    (charId : option string) : M unit :=
  let* s := gets (fun e => slot (visibleCharacters e)) in
  if slot_is s charId
  then
    let* _ := emit (Render (ClearCharacterSprite positionName)) in
    modify (fun e =>
      with_visibleCharacters (set_slot positionName Nobody (visibleCharacters e)) e)
  else ret tt.

(** [hideCharacter]: the loop over the three entries of
    [visibleCharacters]. *)
Definition hideCharacter (charId : option string) : M unit :=
  let* _ := hideAt "left" at_left charId in
  let* _ := hideAt "center" at_center charId in
  hideAt "right" at_right charId.

(** [showDialogue].  [this.story.characters[who]] is looked up among the
    keys of the table. *)
Definition showDialogue (w : option string) (txt : option string) : M unit :=
  if negb (truthy w) then emit (Console LError Log.DialogueMissingWho)
  else if negb (truthy txt)
  then emit (Console LError (Log.DialogueMissingText (default "" w)))
  else
    let* character := gets (fun e => characters (story e) !! default "" w) in
    let* _ :=
      match character with
      | None => emit (Console LWarn (Log.SpeakerNotFound (default "" w)))
      | Some _ => ret tt
      end in
    let characterName :=
      match character with
      | Some c => name c
      | None => w
      end in
    let* _ := emit (Render (SetDialogue characterName (default "" txt) false)) in
    let* _ := modify (with_waitingForInput true) in
    emit (Render (ContinueIndicator true)).

Definition showNarration (txt : option string) : M unit :=
  if negb (truthy txt) then emit (Console LError Log.NarrationMissingText)
  else
    let* _ := emit (Render (SetDialogue (Some "") (default "" txt) true)) in
    let* _ := modify (with_waitingForInput true) in
    emit (Render (ContinueIndicator true)).

(** [setVariable].  The debug panel only redraws the variables and is left
    out.  The assignment [variables[key] = value] writes the key, except
    for the key [__proto__] on variables that have no such key of their
    own: there it calls the setter that every object inherits, which stores
    no property whatever the value. *)
Definition setVariable (k : option string) (v : VarSource) : M unit :=
  if negb (truthy k) then emit (Console LError Log.SetVariableMissingKey)
  else
    let k := default "" k in
    try_catch
      (let* computed :=
         match v with
         | Computed f =>
             let* vars := gets state_vars in
             match f vars with
             | inl err => throw err
             | inr x => ret x
             end
         | Literal x => ret x
         end in
       let* _ := modify (fun e =>
                   if String.eqb k "__proto__"
                      && bool_decide (state_vars e !! k = None)
                   then e
                   else write_state_vars (<[k := computed]> (state_vars e)) e) in
       emit (Console LLog (Log.VariableSet k computed)))
      (fun err =>
         let* _ := emit (Console LError (Log.ErrorSettingVariable k err)) in
         throw err).

(** The body of [options.forEach] in [showChoices]. *)
Fixpoint addButtons (index : nat) (opts : list ChoiceOption) : M unit :=
  match opts with
  | [] => ret tt
  | option :: rest =>
      let* _ :=
        if truthy (label option)
        then
          let* _ := emit (Render (AddChoiceButton (default "" (label option)))) in
          modify (fun e =>
            with_choiceButtons
              (choiceButtons e ++
               [{| button_label := default "" (label option);
                   button_nodeId := target option;
                   button_effectFn := effectFn option |}]) e)
        else emit (Console LError (Log.OptionMissingLabel index)) in
      addButtons (S index) rest
  end.

Definition showChoices (p : option string) (opts : option (list ChoiceOption))
    : M unit :=
  match opts with
  | None | Some [] => emit (Console LError Log.NoValidOptions)
  | Some opts =>
      let* _ := emit (Render (ShowChoiceMenu
                                (if truthy p then default "" p else "Choose:"))) in
      let* _ := modify (with_choiceButtons []) in
      let* _ := addButtons 0 opts in
      modify (with_waitingForInput true)
  end.

(** [endStory]; the text it sets two seconds later is not modelled. *)
Definition endStory : M unit :=
  let* _ := emit (Console LLog Log.StoryEnded) in
  let* _ := emit (Render ShowEnded) in
  emit (Render (ContinueIndicator false)).

(** *** The step loop *)

(** [jumpToNode]; [exec] is the call of [executeSteps] that ends it.  A
    [nodeId] that is [undefined] makes [nodeId.split] throw. *)
Definition jumpToNode (exec : M unit) (nodeId : option string) : M unit :=
  match nodeId with
  | None => throw (TypeError "split")
  | Some n =>
      let* steps := resolveNode n in
      match steps with
      | None => emit (Console LError (Log.CannotJump n))
      | Some steps =>
          let* _ := modify (enter n steps) in
          exec
      end
  end.

(** The [switch] of [executeStep]; the result is [shouldPause]. *)
Definition executeCase (exec : M unit) (step : Step) : M bool :=
  match type step with
  | Some StepType.background =>
      let* _ := setBackground (id step) in ret false
  | Some StepType.show_character =>
      let* _ := showCharacter (id step) (pose step) (position step) in ret false
  | Some StepType.hide_character =>
      let* _ := hideCharacter (id step) in ret false
  | Some StepType.dialogue =>
      let* _ := showDialogue (who step) (text step) in ret true
  | Some StepType.narration =>
      let* _ := showNarration (text step) in ret true
  | Some StepType.set_variable =>
      let* _ := setVariable (key step) (value step) in ret false
  | Some StepType.jump_to =>
      let* _ := jumpToNode exec (nodeId step) in ret true
  | Some StepType.conditional_jump =>
      match test step with
      | None => throw (TypeError "test")
      | Some f =>
          let* vars := gets state_vars in
          match f vars with
          | inl err => throw err
          | inr testResult =>
              if testResult && truthy (thenNodeId step)
              then let* _ := jumpToNode exec (thenNodeId step) in ret true
              else if negb testResult && truthy (elseNodeId step)
              then let* _ := jumpToNode exec (elseNodeId step) in ret true
              else ret false
          end
      end
  | Some StepType.choice =>
      let* _ := showChoices (prompt step) (options step) in ret true
  | Some StepType.end_story =>
      let* _ := endStory in ret true
  | Some (StepType.other _) | None =>
      let* _ := emit (Console LError (Log.UnknownStepType (type step))) in
      ret false
  end.

(** [executeStep]: the [switch] inside [try], and the [catch] that logs and
    throws again. *)
Definition executeStep (exec : M unit) (step : Step) : M bool :=
  try_catch (executeCase exec step)
    (fun err =>
       let* node := gets currentNode in
       let* _ := emit (Console LError (Log.ErrorExecutingStep node err)) in
       throw err).

(** [executeSteps].  Every turn of the [while] loop and every nested call
    through [jumpToNode] takes one unit of fuel; a story that jumps in a
    circle has no bound. *)
Fixpoint executeSteps (fuel : nat) : M unit :=
  match fuel with
  | 0 => fun e => OutOfFuel e
  | S fuel' =>
      let* steps := gets currentSteps in
      let* index := gets currentStepIndex in
      match steps !! index with
      | Some step =>
          let* shouldPause := executeStep (executeSteps fuel') step in
          if shouldPause then ret tt
          else
            let* _ := modify (fun e =>
                        with_currentStepIndex (currentStepIndex e + 1) e) in
            executeSteps fuel'
      | None =>
          let* node := gets currentNode in
          emit (Console LLog (Log.NodeComplete node))
      end
  end.

(** *** The signals of the page *)

(** [advance], the listener of a click outside a choice button. *)
Definition advance (fuel : nat) : M unit :=
  let* waiting := gets waitingForInput in
  if waiting
  then
    let* _ := modify (with_waitingForInput false) in
    let* _ := emit (Render (ContinueIndicator false)) in
    let* _ := modify (fun e => with_currentStepIndex (currentStepIndex e + 1) e) in
    executeSteps fuel
  else ret tt.

(** [effectFn(this.state)]: what the effect wrote is kept, also when it
    throws. *)
Definition runEffect (f : EffectFn) : M unit :=
  let* vars := gets state_vars in
  let* _ := modify (write_state_vars (f vars).1) in
  match (f vars).2 with
  | Some err => throw err
  | None => ret tt
  end.

(** The click listener of one choice button. *)
Definition clickChoice (fuel : nat) (b : ChoiceButton) : M unit :=
  try_catch
    (let* _ :=
       match button_effectFn b with
       | Some f => runEffect f
       | None => ret tt
       end in
     let* _ := emit (Render HideChoiceMenu) in
     if truthy (button_nodeId b)
     then jumpToNode (executeSteps fuel) (button_nodeId b)
     else
       let* _ := modify (fun e =>
                   with_currentStepIndex (currentStepIndex e + 1) e) in
       executeSteps fuel)
    (fun err =>
       let* _ := emit (Console LError
                         (Log.ErrorExecutingChoice (button_label b) err)) in
       throw err).

(** [choose(i)]: a click on the [i]-th button of [#choice-buttons]; there is
    nothing to click when no such button exists. *)
Definition choose (fuel : nat) (i : nat) : M unit :=
  let* buttons := gets choiceButtons in
  match buttons !! i with
  | Some b => clickChoice fuel b
  | None => ret tt
  end.

(** *** Construction *)

(** The engine as the constructor leaves it before [init]: the state holds
    a fresh object with the story's variables spread into it. *)
Definition initial (storyData : Story) (heap : gmap loc Variables) : Engine :=
  let validationErrors := validateStory storyData in
  let criticalErrors :=
    length (filter (fun d => Diag.type d = error) validationErrors) in
  let own := fresh (dom heap) in
  {| story := storyData;
     store := <[own := default ∅ (variables storyData ≫= (heap !!.))]> heap;
     state_variables := own;
     currentNode := None;
     currentStepIndex := 0;
     currentSteps := [];
     waitingForInput := false;
     visibleCharacters :=
       {| at_left := Nobody; at_center := Nobody; at_right := Nobody |};
     choiceButtons := [];
     trace :=
       Console LLog (Log.ValidationReport validationErrors)
       :: (if bool_decide (0 < criticalErrors)%nat
           then [Console LError (Log.CriticalErrors criticalErrors)]
           else []) |}.

(** [new VisualNovelEngine(storyData)]: the constructor, then [init], which
    jumps to the start node. *)
Definition construct (fuel : nat) (storyData : Story)
    (heap : gmap loc Variables) : Outcome unit :=
  jumpToNode (executeSteps fuel) (start storyData) (initial storyData heap).

(** The signals a page sends after construction.  An exception that leaves
    a listener does not end the page: the next signal finds the engine as the
    throw left it. *)
Inductive Signal : Type :=
| Advance
| Choose (i : nat).

Definition signal (fuel : nat) (s : Signal) : M unit :=
  match s with
  | Advance => advance fuel
  | Choose i => choose fuel i
  end.

Fixpoint run (fuel : nat) (signals : list Signal) (e : Engine) : Engine :=
  match signals with
  | [] => e
  | s :: rest => run fuel rest (final (signal fuel s e))
  end.

End VisualNovelEngine.

(** ** preloader.js *)

Module Preloader.

Export StoryFormat.

(** The urls of a table of images that are not empty. *)
Definition urls_of (table : gmap string string) : gset string :=
  list_to_set (filter (fun url => truthy (Some url) = true)
                      (map_to_list table).*2).

(** The [Set] that [preloadStoryAssets] and [preloadWithLoadingScreen] fill
    before they load anything: every url of [story.places] and of the poses
    of every character that is not falsy.  The loading itself, with its
    promises and its progress bar, is not modelled. *)
Definition imageUrls (story : Story) : gset string :=
  urls_of (places story)
  ∪ ⋃ ((fun kc => urls_of (poses kc.2)) <$> map_to_list (characters story)).

(** [imageUrls.size]; both functions return at once when it is 0. *)
Definition totalImages (story : Story) : nat := size (imageUrls story).

End Preloader.

(** ** Notions used to state the properties *)

Module Notions.

Export VisualNovelEngine.

(** The value reached from [root] by reading the properties [parts] one
    after the other. *)
Fixpoint descend (root : NodeEntry) (parts : list string) : option NodeEntry :=
  match parts with
  | [] => Some root
  | part :: rest =>
      match get_prop root part with
      | Some next => descend next rest
      | None => None
      end
  end.

(** The engine after one more event. *)
Definition logged (ev : Event) (e : Engine) : Engine :=
  with_trace (trace e ++ [ev]) e.

(** The engine with its cursor moved to the next step. *)
Definition next_step (e : Engine) : Engine :=
  with_currentStepIndex (currentStepIndex e + 1) e.

(** What the effect of a button leaves in the engine, and what it throws. *)
Definition after_effect (b : ChoiceButton) (e : Engine) : Engine :=
  match button_effectFn b with
  | Some f => write_state_vars (f (state_vars e)).1 e
  | None => e
  end.

Definition effect_error (b : ChoiceButton) (e : Engine) : option Error :=
  match button_effectFn b with
  | Some f => (f (state_vars e)).2
  | None => None
  end.

(** The [catch] clauses of the choice listener and of [executeStep], run on
    the outcome of the guarded block. *)
Definition choice_guard (b : ChoiceButton) (o : Outcome unit) : Outcome unit :=
  match o with
  | Threw err e =>
      Threw err (logged (Console LError
                           (Log.ErrorExecutingChoice (button_label b) err)) e)
  | _ => o
  end.

Definition step_guard (o : Outcome bool) : Outcome bool :=
  match o with
  | Threw err e =>
      Threw err (logged (Console LError
                           (Log.ErrorExecutingStep (currentNode e) err)) e)
  | _ => o
  end.

(** The outcome of a step that ends by a jump: [shouldPause] is [true]. *)
Definition paused (o : Outcome unit) : Outcome bool :=
  match o with
  | Returned _ e => Returned true e
  | Threw err e => Threw err e
  | OutOfFuel e => OutOfFuel e
  end.

(** The leaves of the node tree with their dotted ids, in the order the
    validator visits them. *)
Fixpoint leavesValue (full : string) (value : NodeEntry)
    : list (string * list Step) :=
  match value with
  | StepArray steps => [(full, steps)]
  | NestedGroup nested =>
      concat (map (fun kv => leavesValue (fullId full kv.1) kv.2) nested)
  end.

Definition leaves (nodes : Nodes) (prefix : string) : list (string * list Step) :=
  concat (map (fun kv => leavesValue (fullId prefix kv.1) kv.2) nodes).

(** The node ids a step names as a target, as written in the step. *)
Definition targets (step : Step) : list (option string) :=
  match type step with
  | Some StepType.jump_to => [nodeId step]
  | Some StepType.conditional_jump => [thenNodeId step; elseNodeId step]
  | Some StepType.choice => target <$> default [] (options step)
  | _ => []
  end.

(** [p] is the target of a [jump_to], a [conditional_jump] or a choice
    option in some node of the tree. *)
Definition references (nodes : Nodes) (p : string) : Prop :=
  exists full steps step,
    (full, steps) ∈ leaves nodes "" /\ step ∈ steps /\ Some p ∈ targets step.

(** [p] is a non-empty target of a step of one of the listed leaves. *)
Definition named_in (p : string) (ls : list (string * list Step)) : Prop :=
  exists full steps step,
    (full, steps) ∈ ls /\ step ∈ steps /\ p <> "" /\ Some p ∈ targets step.

(** What a failed lookup of a node writes to the console. *)
Definition lookup_failure (n : string) (r : Resolved) : list Event :=
  match r with
  | Found _ => []
  | Missing pathSoFar keys =>
      [Console LError (Log.NodeNotFound n pathSoFar keys);
       Console LError (Log.CannotJump n)]
  | IsGroup keys =>
      [Console LError (Log.NotAStepArray n keys);
       Console LError (Log.CannotJump n)]
  end.

(** [e'] is [e] moved on to the next step: the cursor is one further and
    every other field is as it was. *)
Definition moved_on (e e' : Engine) : Prop :=
  currentStepIndex e' = currentStepIndex e + 1 /\
  currentNode e' = currentNode e /\
  currentSteps e' = currentSteps e /\
  story e' = story e /\
  store e' = store e /\
  state_variables e' = state_variables e /\
  waitingForInput e' = waitingForInput e /\
  visibleCharacters e' = visibleCharacters e /\
  choiceButtons e' = choiceButtons e /\
  trace e' = trace e.

(** [e'] is [e] after it entered the node [n] with the steps [steps]: the
    node and the steps are the new ones, the cursor is 0 whatever it was,
    and every other field is as it was. *)
Definition entered (n : string) (steps : list Step) (e e' : Engine) : Prop :=
  currentNode e' = Some n /\
  currentSteps e' = steps /\
  currentStepIndex e' = 0 /\
  story e' = story e /\
  store e' = store e /\
  state_variables e' = state_variables e /\
  waitingForInput e' = waitingForInput e /\
  visibleCharacters e' = visibleCharacters e /\
  choiceButtons e' = choiceButtons e /\
  trace e' = trace e.

(** The walk of [parts] from [cur] reads only properties for which
    [get_prop] says what the property read of the source yields: a key the
    group has, or a name the group neither has nor inherits.  A walk that
    reads a property of a step array (an index, [length], a method) or an
    inherited name of a group is not plain. *)
Fixpoint plain_walk (cur : NodeEntry) (parts : list string) : bool :=
  match parts with
  | [] => true
  | part :: rest =>
      match cur with
      | StepArray _ => false
      | NestedGroup entries =>
          match get_entry part entries with
          | Some next => plain_walk next rest
          | None => negb (Js.inherited part)
          end
      end
  end.

(** The path [nodeId] is plain in the tree of the story.  Without a tree
    the walk stops before it reads anything. *)
Definition plain_path (nodes : option Nodes) (nodeId : string) : bool :=
  match nodes with
  | Some ns => plain_walk (NestedGroup ns) (split_dot nodeId)
  | None => true
  end.

(** [e'] is [e] after the events [evs] were shown or logged: they are at
    the end of the trace and every other field is as it was. *)
Definition told (evs : list Event) (e e' : Engine) : Prop :=
  trace e' = trace e ++ evs /\
  currentNode e' = currentNode e /\
  currentSteps e' = currentSteps e /\
  currentStepIndex e' = currentStepIndex e /\
  story e' = story e /\
  store e' = store e /\
  state_variables e' = state_variables e /\
  waitingForInput e' = waitingForInput e /\
  visibleCharacters e' = visibleCharacters e /\
  choiceButtons e' = choiceButtons e.

(** A step that fails with the console error [msg] and is skipped: it
    returns without pausing, leaves the engine as it was but for the
    message, and the walk goes on with the next step, the cursor one
    further. *)
Definition skipped_with (msg : Log.t) (step : Step) (e : Engine) : Prop :=
  exists e1,
    told [Console LError msg] e e1 /\
    (forall exec, executeStep exec step e = Returned false e1) /\
    (forall fuel,
       currentSteps e !! currentStepIndex e = Some step ->
       exists e2,
         moved_on e1 e2 /\ executeSteps (S fuel) e = executeSteps fuel e2).

(** A step that fails with the events [evs] and stops the walk: it returns
    [true], leaves the engine as it was but for the events, and the walk of
    the node returns there, the cursor still on the step. *)
Definition halted_with (evs : list Event) (step : Step) (e : Engine) : Prop :=
  exists e1,
    told evs e e1 /\
    (forall exec, executeStep exec step e = Returned true e1) /\
    (forall fuel,
       currentSteps e !! currentStepIndex e = Some step ->
       executeSteps (S fuel) e = Returned tt e1).

(** The frame of the engine's writes: the story document, the reference
    held in [state.variables], and every heap cell but that one stay as
    they are. *)
Definition frame (e e' : Engine) : Prop :=
  story e' = story e /\
  state_variables e' = state_variables e /\
  forall l : loc, l <> state_variables e -> store e' !! l = store e !! l.

Definition Framed {A : Type} (m : M A) : Prop :=
  forall e, frame e (final (m e)).

(** A key the dotted addressing can name: not empty and without a dot. *)
Fixpoint dot_free (s : string) : bool :=
  match s with
  | EmptyString => true
  | String c rest => negb (Ascii.eqb c "."%char) && dot_free rest
  end.

Definition good_key (k : string) : bool :=
  negb (String.eqb k "") && dot_free k.

(** Every group of the tree has distinct keys, as a JavaScript object has,
    and every key is one the dotted addressing can name. *)
Fixpoint wf_keys (value : NodeEntry) : bool :=
  match value with
  | StepArray _ => true
  | NestedGroup children =>
      bool_decide (NoDup children.*1)
      && forallb (fun kv => good_key kv.1 && wf_keys kv.2) children
  end.

(** The id the validator builds for the entry reached from the id [full]
    through the keys [parts]. *)
Definition extend (full : string) (parts : list string) : string :=
  foldl fullId full parts.

(** The accumulators before anything was pushed or referenced. *)
Definition empty_acc : Acc := {| errors := []; referencedNodeIds := [] |}.

(** What [validateSteps] pushes for the step at index [i] of node [n]. *)
Definition stepDiags (story : Story) (n : string) (i : nat) (step : Step)
    : list Diag.t :=
  errors (validateStep story n i step empty_acc).1.

(** The kinds that set [hasEnding]. *)
Definition is_ending (step : Step) : bool :=
  match type step with
  | Some StepType.jump_to | Some StepType.conditional_jump
  | Some StepType.choice | Some StepType.end_story => true
  | _ => false
  end.

Fixpoint loopDiags (story : Story) (n : string) (i : nat) (steps : list Step)
    : list Diag.t :=
  match steps with
  | [] => []
  | step :: rest => stepDiags story n i step ++ loopDiags story n (S i) rest
  end.

(** What [validateSteps] pushes for one leaf of the tree. *)
Definition nodeDiags (story : Story) (leaf : string * list Step) : list Diag.t :=
  match leaf.2 with
  | [] => [diag warning (EmptyNode leaf.1) (AtNode leaf.1)]
  | _ =>
      loopDiags story leaf.1 0 leaf.2
      ++ (if existsb is_ending leaf.2 then []
          else [diag warning (NoEnding leaf.1) (AtNode leaf.1)])
  end.

(** What [validateStory] pushes before it walks the nodes. *)
Definition header (story : Story) (ns : Nodes) : list Diag.t :=
  (if truthy (start story) then []
   else [{| Diag.type := error; Diag.message := MissingStart;
            Diag.location := None |}])
  ++ (if bool_decide (is_Some (variables story)) then []
      else [{| Diag.type := warning; Diag.message := MissingVariables;
               Diag.location := None |}])
  ++ match start story with
     | Some startId =>
         if truthy (Some startId)
            && negb (bool_decide (is_Some (Validator.resolveNode ns startId)))
         then [diag error (StartNodeMissing startId) AtStoryStart]
         else []
     | None => []
     end.

(** No diagnostic of the list is an error. *)
Definition no_errors (ds : list Diag.t) : Prop :=
  forall d, d ∈ ds -> Diag.type d <> error.

(** The method [m] keeps the property [P] of the engine, however it ends. *)
Definition Keeps {A : Type} (P : Engine -> Prop) (m : M A) : Prop :=
  forall e, P e -> P (final (m e)).

(** The current steps are what the current node resolves to; before the
    first jump there is no node and there are no steps. *)
Definition node_ok (e : Engine) : Prop :=
  match currentNode e with
  | Some n => resolve (nodes (story e)) n = Found (currentSteps e)
  | None => currentSteps e = []
  end.

(** The path [t] resolves to a step array of the tree. *)
Definition resolves (ns : Nodes) (t : string) : Prop :=
  exists steps, resolve (Some ns) t = Found steps.

(** Every jump the step can make has a target that resolves. *)
Definition jumps_resolve (ns : Nodes) (step : Step) : Prop :=
  (type step = Some StepType.jump_to ->
   exists t, nodeId step = Some t /\ resolves ns t) /\
  (forall t, Some t ∈ targets step -> t <> "" -> resolves ns t).

(** The start node resolves and so does every jump of every leaf. *)
Definition sound_story (story : Story) (ns : Nodes) : Prop :=
  nodes story = Some ns /\
  (exists t, start story = Some t /\ resolves ns t) /\
  forall n steps step,
    (n, steps) ∈ leaves ns "" -> step ∈ steps -> jumps_resolve ns step.

(** An event that tells of a jump that failed. *)
Definition jump_failure (ev : Event) : bool :=
  match ev with
  | Console _ (Log.CannotJump _) => true
  | Console _ (Log.NodeNotFound _ _ _) => true
  | Console _ (Log.NotAStepArray _ _) => true
  | _ => false
  end.

(** The invariant of the current node, for the engine of one story. *)
Definition NodeInv (storyData : Story) (e : Engine) : Prop :=
  story e = storyData /\ node_ok e.

(** The invariant of an engine that has met no failed jump: the steps it
    walks and the buttons it offers only name targets that resolve. *)
Definition SafeInv (storyData : Story) (ns : Nodes) (e : Engine) : Prop :=
  story e = storyData /\
  node_ok e /\
  (forall b t, b ∈ choiceButtons e -> button_nodeId b = Some t -> t <> "" ->
               resolves ns t) /\
  Forall (fun ev => jump_failure ev = false) (trace e).

(** The method [m] never runs out of fuel. *)
Definition Total {A : Type} (m : M A) : Prop :=
  forall e, match m e with OutOfFuel _ => False | _ => True end.

(** The kinds of step that can leave the current node. *)
Definition is_jump (step : Step) : bool :=
  match type step with
  | Some StepType.jump_to | Some StepType.conditional_jump => true
  | _ => false
  end.

(** The cursor and the steps are those of [e]. *)
Definition same_place (e e' : Engine) : Prop :=
  currentSteps e' = currentSteps e /\ currentStepIndex e' = currentStepIndex e.

(** A slot after [hideCharacter charId]. *)
Definition cleared (charId : option string) (s : Slot) : Slot :=
  if slot_is s charId then Nobody else s.

(** The display command that clears the position when its slot shows
    [charId]. *)
Definition clearing (charId : option string) (positionName : string) (s : Slot)
    : list Event :=
  if slot_is s charId then [Render (ClearCharacterSprite positionName)] else [].

(** The button [showChoices] makes for an option, if it makes one. *)
Definition button_of (o : ChoiceOption) : option ChoiceButton :=
  if truthy (label o)
  then Some {| button_label := default "" (label o);
               button_nodeId := target o;
               button_effectFn := effectFn o |}
  else None.

(** Everything but the trace, the buttons and the flag is as in [e]. *)
Definition same_scene (e e' : Engine) : Prop :=
  story e' = story e /\ store e' = store e
  /\ state_variables e' = state_variables e
  /\ currentNode e' = currentNode e /\ currentSteps e' = currentSteps e
  /\ currentStepIndex e' = currentStepIndex e
  /\ visibleCharacters e' = visibleCharacters e.

(** The slot of a position, [visibleCharacters[positionName]]. *)
Definition slot_at (positionName : string) (v : Visible) : option Slot :=
  if String.eqb positionName "left" then Some (at_left v)
  else if String.eqb positionName "center" then Some (at_center v)
  else if String.eqb positionName "right" then Some (at_right v)
  else None.

(** The step names no place and no pose by a name that every object
    inherits: the image it asks for, if any, is an entry of the tables of
    the story. *)
Definition plain_images (step : Step) : bool :=
  match type step with
  | Some StepType.background => negb (Js.inherited (js_key (id step)))
  | Some StepType.show_character =>
      match pose step ≫= pose_name with
      | Some poseName => negb (Js.inherited poseName)
      | None => true
      end
  | _ => true
  end.

(** An image the event shows is one of the preloaded urls of the story. *)
Definition preloaded (story : Story) (ev : Event) : Prop :=
  match ev with
  | Render (SetBackground placePath) => placePath ∈ Preloader.imageUrls story
  | Render (SetCharacterSprite _ imagePath) =>
      imagePath ∈ Preloader.imageUrls story
  | _ => True
  end.

Definition ShownInv (storyData : Story) (e : Engine) : Prop :=
  story e = storyData /\ Forall (preloaded storyData) (trace e).

(** A line of the console that tells of a step the engine could not stage
    as written: a background, character or pose that is not in the story, a
    line without speaker or text, a variable without key, a step of no known
    type, a choice without options or an option without label. *)
Definition staging_failure (ev : Event) : bool :=
  match ev with
  | Console _ (Log.BackgroundNotFound _)
  | Console _ (Log.CharacterNotFound _)
  | Console _ (Log.PoseNotFound _ _)
  | Console _ Log.DialogueMissingWho
  | Console _ (Log.DialogueMissingText _)
  | Console _ (Log.SpeakerNotFound _)
  | Console _ Log.NarrationMissingText
  | Console _ Log.SetVariableMissingKey
  | Console _ (Log.UnknownStepType _)
  | Console _ Log.NoValidOptions
  | Console _ (Log.OptionMissingLabel _) => true
  | _ => false
  end.

(** [ids] after [set.add] of every element of [l], in order. *)
Definition add_ids (l ids : list string) : list string :=
  foldl (fun ids' n => set_add n ids') ids l.

(** What a target adds to [referencedNodeIds]: itself, unless it is null,
    undefined or the empty string. *)
Definition wanted (t : option string) : list string :=
  match t with
  | Some n => if truthy (Some n) then [n] else []
  | None => []
  end.

(** The ids the step adds to [referencedNodeIds], in the order in which
    [validateSteps] adds them. *)
Definition named (step : Step) : list string :=
  concat (map wanted (targets step)).

(** [referencedNodeIds] after the walk of the leaves [ls]: the targets the
    steps name, each once, in the order of their first mention. *)
Definition referenced (ls : list (string * list Step)) : list string :=
  add_ids (concat (map (fun leaf => concat (map named leaf.2)) ls)) [].

(** What the step needs of the story to be staged as written. *)
Definition staged (story : Story) (step : Step) : Prop :=
  match type step with
  | Some StepType.background =>
      exists placeId,
        id step = Some placeId /\ placeId <> ""
        /\ is_Some (places story !! placeId)
  | Some StepType.show_character =>
      exists charId character,
        id step = Some charId /\ charId <> ""
        /\ characters story !! charId = Some character
        /\ forall p, pose step = Some p ->
                     truthy (poses character !! js_key (pose_name p)) = true
  | Some StepType.dialogue =>
      exists w,
        who step = Some w /\ w <> "" /\ is_Some (characters story !! w)
        /\ truthy (text step) = true
  | Some StepType.narration => truthy (text step) = true
  | Some StepType.set_variable => truthy (key step) = true
  | Some StepType.choice =>
      exists opts,
        options step = Some opts /\ opts <> []
        /\ Forall (fun o => truthy (label o) = true) opts
  | Some (StepType.other _) | None => False
  | _ => True
  end.

(** The invariant of an engine that has staged every step as written. *)
Definition StageInv (storyData : Story) (e : Engine) : Prop :=
  story e = storyData /\
  node_ok e /\
  Forall (fun ev => staging_failure ev = false) (trace e).

End Notions.

(** ** Stories used as concrete inputs *)

Module Scenarios.

Export Notions.

Definition option_to (l : string) (t : option string) : ChoiceOption :=
  {| label := Some l; target := t; effectFn := None |}.

Definition story_of (startId : string) (ns : Nodes) : Story :=
  {| start := Some startId; variables := Some 1%positive; nodes := Some ns;
     characters := ∅; places := ∅ |}.

(** The heap before construction: the story's own variables object. *)
Definition heap0 : gmap loc Variables := {[ 1%positive := ∅ ]}.

(** A choice followed by a line of narration. *)
Definition choice_then_line : Story :=
  story_of "Start"
    [("Start", StepArray [choice "Pick" [option_to "A" (Some "X")];
                          narration "after"]);
     ("X", StepArray [StoryFormat.endStory])].

(** A choice that continues in place, the end of the story, and a line
    after the end. *)
Definition choice_then_end : Story :=
  story_of "Start"
    [("Start", StepArray [choice "Pick" [option_to "A" None];
                          StoryFormat.endStory;
                          narration "after"])].

Definition never : TestFn := fun _ => inr false.
Definition always : TestFn := fun _ => inr true.

(** A conditional jump whose test fails and that has no else branch. *)
Definition branch_story : Story :=
  story_of "A"
    [("A", StepArray [conditionalJump never "Win" None; narration "lost"]);
     ("Win", StepArray [narration "won"; StoryFormat.endStory])].

(** A conditional jump built by hand without a then branch. *)
Definition jump_without_then : Step :=
  {| type := Some StepType.conditional_jump; id := None; nodeId := None;
     who := None; text := None; pose := None; position := None; key := None;
     value := Literal VUndefined; test := Some always; thenNodeId := None;
     elseNodeId := None; prompt := None; options := None |}.

Definition thenless_story : Story :=
  story_of "A" [("A", StepArray [jump_without_then; narration "next"])].

(** The engine of story [s] standing at the first step of the node [n],
    before the walk of that node begins. *)
Definition standing_at (s : Story) (n : string) (steps : list Step) : Engine :=
  enter n steps (initial s heap0).


(** A choice whose option names the empty string, which is the name of a
    node of the story. *)
Definition empty_target_story : Story :=
  story_of "Start"
    [("Start", StepArray [choice "Pick" [option_to "A" (Some "")];
                          narration "after"]);
     ("", StepArray [narration "hidden"])].

(** A jump to a node that does not exist, and a line after it. *)
Definition dangling_story : Story :=
  story_of "Start"
    [("Start", StepArray [jumpTo "Nowhere"; narration "after"])].

Definition failing : ComputeValue := fun _ => inl (AuthorError "boom").

Definition failing_story : Story :=
  story_of "Start"
    [("Start", StepArray [StoryFormat.setVariable "score" (Computed failing);
                          narration "after"])].

(** A group with one leaf. *)
Definition nested_story : Story :=
  story_of "Park.WithBob"
    [("Park", NestedGroup [("WithBob", StepArray [StoryFormat.endStory])])].

(** A story that writes a variable in a step and in the effect of a
    choice, and the heap that holds its initial variables. *)
Definition score_heap : gmap loc Variables :=
  {[ 1%positive := {[ "score" := VNum 0 ]} ]}.

Definition bump : EffectFn := fun vars => (<["color" := VStr "red"]> vars, None).

Definition score_story : Story :=
  story_of "Start"
    [("Start", StepArray [StoryFormat.setVariable "score" (Literal (VNum 5));
                          choice "Pick"
                            [{| label := Some "Red"; target := None;
                                effectFn := Some bump |}];
                          narration "done"])].

(** A choice whose only option names the empty string, in a story without
    a node of that name. *)
Definition blank_target_story : Story :=
  story_of "Start"
    [("Start", StepArray [choice "Pick" [option_to "A" (Some "")]])].

(** A node with a jump in the middle and a line after it, and a node that
    ends with a line. *)
Definition trailing_story : Story :=
  story_of "Start"
    [("Start", StepArray [jumpTo "End"; narration "tail"]);
     ("End", StepArray [narration "bye"])].

(** A [set_variable] step without a value. *)
Definition valueless_story : Story :=
  story_of "Start"
    [("Start", StepArray [StoryFormat.setVariable "seen" (Literal (VBool false));
                          StoryFormat.setVariable "lost" (Literal VUndefined);
                          StoryFormat.endStory])].

(** A story with one character and one place. *)
Definition alice : Character :=
  {| name := Some "Alice"; poses := {[ "happy" := "alice_happy.png" ]} |}.

Definition stage_story : Story :=
  {| start := Some "Start"; variables := Some 1%positive;
     nodes := Some [("Start", StepArray
                       [StoryFormat.background "park";
                        StoryFormat.showCharacter "alice" CharacterPoses.happy
                          CharacterPositions.left;
                        StoryFormat.dialogue "alice" "Hello";
                        StoryFormat.endStory])];
     characters := {[ "alice" := alice ]};
     places := {[ "park" := "park.png" ]} |}.

End Scenarios.

(** ** Properties *)

Import Scenarios.

(** *** Unfolding the monad *)

Lemma bind_Returned {A B : Type} (m : M A) (k : A -> M B) (e e' : Engine) (a : A) :
  m e = Returned a e' -> bind m k e = k a e'.
Proof. intros H. unfold bind. now rewrite H. Qed.

Lemma bind_gets {A B : Type} (f : Engine -> A) (k : A -> M B) (e : Engine) :
  bind (gets f) k e = k (f e) e.
Proof. reflexivity. Qed.

Lemma bind_modify {B : Type} (f : Engine -> Engine) (k : unit -> M B) (e : Engine) :
  bind (modify f) k e = k tt (f e).
Proof. reflexivity. Qed.

Lemma bind_emit {B : Type} (ev : Event) (k : unit -> M B) (e : Engine) :
  bind (emit ev) k e = k tt (logged ev e).
Proof. reflexivity. Qed.

Lemma executeSteps_S (fuel : nat) (e : Engine) :
  executeSteps (S fuel) e =
  match currentSteps e !! currentStepIndex e with
  | Some step =>
      match executeStep (executeSteps fuel) step e with
      | Returned true e' => Returned tt e'
      | Returned false e' => executeSteps fuel (next_step e')
      | Threw err e' => Threw err e'
      | OutOfFuel e' => OutOfFuel e'
      end
  | None => Returned tt (logged (Console LLog (Log.NodeComplete (currentNode e))) e)
  end.
Proof.
  cbn [executeSteps]. rewrite !bind_gets.
  destruct (currentSteps e !! currentStepIndex e) as [step|]; [|reflexivity].
  unfold bind at 1.
  destruct (executeStep (executeSteps fuel) step e) as [[] e'|err e'|e'];
    reflexivity.
Qed.

Lemma executeStep_guard (exec : M unit) (step : Step) (e : Engine) :
  executeStep exec step e = step_guard (executeCase exec step e).
Proof.
  unfold executeStep, try_catch, step_guard.
  destruct (executeCase exec step e); reflexivity.
Qed.

(** *** [advance] outside a suspension *)

(** While [waitingForInput] is false, [advance] returns at once and leaves
    the engine as it was. *)
Lemma advance_not_waiting (fuel : nat) (e : Engine) :
  waitingForInput e = false -> advance fuel e = Returned tt e.
Proof. intros H. unfold advance. rewrite bind_gets, H. reflexivity. Qed.

Lemma advance_not_waiting_witness :
  advance 10 (initial choice_then_line heap0)
  = Returned tt (initial choice_then_line heap0).
Proof.
  apply (advance_not_waiting 10 (initial choice_then_line heap0)). reflexivity.
Defined.

(** While [waitingForInput] is true, whichever step raised it, [advance]
    clears the flag, hides the continue indicator, moves the cursor to the
    next step and walks on from there. *)
Lemma advance_waiting (fuel : nat) (e : Engine) :
  waitingForInput e = true ->
  advance fuel e
  = executeSteps fuel
      (next_step (logged (Render (ContinueIndicator false))
                    (with_waitingForInput false e))).
Proof. intros H. unfold advance. rewrite bind_gets, H. reflexivity. Qed.

Lemma advance_waiting_witness :
  advance 10 (final (construct 10 choice_then_line heap0))
  = executeSteps 10
      (next_step (logged (Render (ContinueIndicator false))
                    (with_waitingForInput false
                       (final (construct 10 choice_then_line heap0))))).
Proof.
  apply (advance_waiting 10 (final (construct 10 choice_then_line heap0))).
  reflexivity.
Defined.

(** C1 (code defect).  [advance] is meant to do nothing unless the engine
    waits for a click after a line of dialogue or narration.  [showChoices]
    raises the same [waitingForInput] flag, so while the choice of
    [choice_then_line] is pending a click outside the buttons moves the
    cursor from 0 to 1 and shows the narration that follows the choice. *)
Theorem advance_during_pending_choice_runs_next_step :
  let e := final (construct 10 choice_then_line heap0) in
  let e' := final (advance 10 e) in
  (currentNode e = Some "Start" /\ currentStepIndex e = 0
   /\ button_label <$> choiceButtons e = ["A"]
   /\ waitingForInput e = true) /\
  currentStepIndex e' = 1 /\
  trace e' = trace e ++ [Render (ContinueIndicator false);
                         Render (SetDialogue (Some "") "after" true);
                         Render (ContinueIndicator true)].
Proof. vm_compute. repeat split. Qed.

(** C8 (code defect).  After [end_story] has run no further step should
    run.  In [choice_then_end] the end is reached through a choice that
    continues in place; the flag raised by [showChoices] is still set, and
    the next [advance] moves the cursor from 1 to 2 and shows the narration
    written after the end. *)
Theorem advance_after_end_story_runs_next_step :
  let e := final (construct 10 choice_then_end heap0) in
  let ended := final (choose 10 0 e) in
  let e' := final (advance 10 ended) in
  (currentStepIndex ended = 1
   /\ currentSteps ended !! 1 = Some StoryFormat.endStory
   /\ last (trace ended) = Some (Render (ContinueIndicator false))
   /\ Render ShowEnded ∈ trace ended) /\
  currentStepIndex e' = 2 /\
  trace e' = trace ended ++ [Render (ContinueIndicator false);
                             Render (SetDialogue (Some "") "after" true);
                             Render (ContinueIndicator true)].
Proof.
  vm_compute. repeat split.
  apply list_elem_of_In. vm_compute. tauto.
Qed.

(** *** Jumps *)

Lemma truthy_Some (s : string) : s <> "" -> truthy (Some s) = true.
Proof.
  intros H. unfold truthy. destruct (String.eqb_spec s ""); [contradiction|reflexivity].
Qed.

Lemma truthy_true (x : option string) :
  truthy x = true -> exists s, x = Some s /\ s <> "".
Proof.
  destruct x as [s|]; [|discriminate]. unfold truthy.
  destruct (String.eqb_spec s ""); [discriminate|]. intros _. now exists s.
Qed.

Lemma bind_paused (m : M unit) (e : Engine) :
  bind m (fun _ => ret true) e = paused (m e).
Proof. unfold bind, paused. destruct (m e); reflexivity. Qed.

Lemma resolveNode_found (e : Engine) (n : string) (steps : list Step) :
  resolve (nodes (story e)) n = Found steps ->
  resolveNode n e = Returned (Some steps) e.
Proof. intros H. unfold resolveNode. rewrite bind_gets, H. reflexivity. Qed.

Lemma jumpToNode_found (exec : M unit) (e : Engine) (n : string) (steps : list Step) :
  resolve (nodes (story e)) n = Found steps ->
  jumpToNode exec (Some n) e = exec (enter n steps e).
Proof.
  intros H. unfold jumpToNode.
  rewrite (bind_Returned _ _ _ _ _ (resolveNode_found e n steps H)).
  reflexivity.
Qed.

Lemma jumpToNode_unresolved (exec : M unit) (e : Engine) (n : string) :
  (forall steps, resolve (nodes (story e)) n <> Found steps) ->
  jumpToNode exec (Some n) e =
  Returned tt (with_trace (trace e ++ lookup_failure n (resolve (nodes (story e)) n)) e).
Proof.
  intros H. unfold jumpToNode, resolveNode, bind at 1. rewrite bind_gets.
  destruct (resolve (nodes (story e)) n) as [steps|pathSoFar keys|keys];
    [now destruct (H steps)| |];
    cbn; unfold emit, modify, with_trace; cbn; now rewrite <- app_assoc.
Qed.

Lemma runEffect_unfold (f : EffectFn) (e : Engine) :
  runEffect f e =
  match (f (state_vars e)).2 with
  | Some err => Threw err (write_state_vars (f (state_vars e)).1 e)
  | None => Returned tt (write_state_vars (f (state_vars e)).1 e)
  end.
Proof.
  unfold runEffect. rewrite bind_gets, bind_modify.
  destruct ((f (state_vars e)).2); reflexivity.
Qed.

Lemma choice_catch (b : ChoiceButton) (m : M unit) (e : Engine) :
  try_catch m
    (fun err =>
       let* _ := emit (Console LError
                         (Log.ErrorExecutingChoice (button_label b) err)) in
       throw err) e
  = choice_guard b (m e).
Proof. unfold try_catch, choice_guard. destruct (m e); reflexivity. Qed.

Lemma clickChoice_unfold (fuel : nat) (b : ChoiceButton) (e : Engine) :
  clickChoice fuel b e =
  choice_guard b
    match effect_error b e with
    | Some err => Threw err (after_effect b e)
    | None =>
        let shown := logged (Render HideChoiceMenu) (after_effect b e) in
        if truthy (button_nodeId b)
        then jumpToNode (executeSteps fuel) (button_nodeId b) shown
        else executeSteps fuel (next_step shown)
    end.
Proof.
  unfold clickChoice. rewrite choice_catch. f_equal.
  assert (Heff :
    match button_effectFn b with Some f => runEffect f | None => ret tt end e =
    match effect_error b e with
    | Some err => Threw err (after_effect b e)
    | None => Returned tt (after_effect b e)
    end).
  { unfold effect_error, after_effect.
    destruct (button_effectFn b) as [f|]; [|reflexivity].
    rewrite runEffect_unfold. destruct ((f (state_vars e)).2); reflexivity. }
  unfold bind at 1. rewrite Heff.
  destruct (effect_error b e) as [err|]; [reflexivity|].
  rewrite bind_emit. cbv zeta.
  destruct (truthy (button_nodeId b)); [reflexivity|].
  rewrite bind_modify. reflexivity.
Qed.

(** C4.  A jump that succeeds, whether it comes from a [jump_to] step, from
    the branch a [conditional_jump] takes or from a choice button with a
    target, makes the target the current node, its steps the current steps
    and the cursor 0, and the walk goes on from there; the engine it lands
    in does not depend on the cursor it left. *)
Theorem successful_jump_restarts_at_cursor_zero
    (fuel : nat) (e : Engine) (target : string) (steps : list Step) :
  resolve (nodes (story e)) target = Found steps ->
  (currentNode (enter target steps e) = Some target
   /\ currentSteps (enter target steps e) = steps
   /\ currentStepIndex (enter target steps e) = 0) /\
  (forall i, enter target steps (with_currentStepIndex i e) = enter target steps e) /\
  (forall step,
     type step = Some StepType.jump_to -> nodeId step = Some target ->
     executeStep (executeSteps fuel) step e
     = step_guard (paused (executeSteps fuel (enter target steps e)))) /\
  (forall step f taken,
     type step = Some StepType.conditional_jump -> test step = Some f ->
     f (state_vars e) = inr taken ->
     (if taken then thenNodeId step else elseNodeId step) = Some target ->
     target <> "" ->
     executeStep (executeSteps fuel) step e
     = step_guard (paused (executeSteps fuel (enter target steps e)))) /\
  (forall b,
     button_nodeId b = Some target -> target <> "" ->
     effect_error b e = None ->
     clickChoice fuel b e
     = choice_guard b
         (executeSteps fuel
            (enter target steps
               (logged (Render HideChoiceMenu) (after_effect b e))))).
Proof.
  intros Hres. split; [repeat split|]. split; [reflexivity|].
  split; [|split].
  - intros step Hty Hnode. rewrite executeStep_guard. f_equal.
    unfold executeCase. rewrite Hty, Hnode, bind_paused.
    now rewrite (jumpToNode_found _ _ _ _ Hres).
  - intros step f taken Hty Htest Hf Hbranch Hne.
    rewrite executeStep_guard. f_equal.
    unfold executeCase. rewrite Hty, Htest, bind_gets, Hf.
    destruct taken; cbn [andb negb]; rewrite Hbranch, (truthy_Some _ Hne);
      rewrite bind_paused; now rewrite (jumpToNode_found _ _ _ _ Hres).
  - intros b Hb Hne Heff. rewrite clickChoice_unfold, Heff. cbv zeta.
    rewrite Hb, (truthy_Some _ Hne). f_equal.
    apply jumpToNode_found. unfold after_effect.
    destruct (button_effectFn b); exact Hres.
Qed.

Lemma successful_jump_restarts_at_cursor_zero_witness :
  executeStep (executeSteps 5) (jumpTo "X")
    (with_currentStepIndex 7 (standing_at choice_then_line "Start" []))
  = step_guard (paused (executeSteps 5
      (enter "X" [StoryFormat.endStory]
         (with_currentStepIndex 7 (standing_at choice_then_line "Start" []))))).
Proof.
  destruct (successful_jump_restarts_at_cursor_zero 5
              (with_currentStepIndex 7 (standing_at choice_then_line "Start" []))
              "X" [StoryFormat.endStory] eq_refl) as (_ & _ & H & _).
  apply H; reflexivity.
Defined.





(** *** Choices *)

Lemma state_vars_write (vs : Variables) (e : Engine) :
  state_vars (write_state_vars vs e) = vs.
Proof.
  unfold state_vars, write_state_vars. cbn. now rewrite lookup_insert_eq.
Qed.

Lemma choose_button (fuel i : nat) (e : Engine) (b : ChoiceButton) :
  choiceButtons e !! i = Some b -> choose fuel i e = clickChoice fuel b e.
Proof. intros H. unfold choose. rewrite bind_gets, H. reflexivity. Qed.

Lemma nodes_after_effect (b : ChoiceButton) (e : Engine) :
  nodes (story (logged (Render HideChoiceMenu) (after_effect b e)))
  = nodes (story e).
Proof. unfold after_effect. destruct (button_effectFn b); reflexivity. Qed.

(** C3 (amended).  A click on a choice button first runs the option's
    effect, when it has one, on the variables of the state; what the effect
    wrote is in the engine before anything else happens.  If the effect
    throws, no transfer takes place.  Otherwise the menu is hidden and
    control is transferred from that engine.  When the target is a
    non-empty path that resolves to a step array, the walk starts in the
    engine that entered the target: node and steps are those of the target
    and the cursor is 0.  When it is a non-empty plain path that does not
    resolve, nothing changes but the log.  When the target is null or the
    empty string, the walk goes on in the current node with the cursor one
    further. *)
Theorem choose_runs_effect_then_transfers
    (fuel i : nat) (e : Engine) (b : ChoiceButton) :
  choiceButtons e !! i = Some b ->
  (forall f, button_effectFn b = Some f ->
     state_vars (after_effect b e) = (f (state_vars e)).1) /\
  (forall err, effect_error b e = Some err ->
     choose fuel i e
     = Threw err (logged (Console LError
                            (Log.ErrorExecutingChoice (button_label b) err))
                         (after_effect b e))) /\
  (forall target steps,
     effect_error b e = None ->
     button_nodeId b = Some target -> target <> "" ->
     resolve (nodes (story e)) target = Found steps ->
     exists e1,
       entered target steps
         (logged (Render HideChoiceMenu) (after_effect b e)) e1
       /\ choose fuel i e = choice_guard b (executeSteps fuel e1)) /\
  (forall target,
     effect_error b e = None ->
     button_nodeId b = Some target -> target <> "" ->
     plain_path (nodes (story e)) target = true ->
     (forall steps, resolve (nodes (story e)) target <> Found steps) ->
     exists e1,
       told (Render HideChoiceMenu
               :: lookup_failure target (resolve (nodes (story e)) target))
            (after_effect b e) e1
       /\ choose fuel i e = Returned tt e1) /\
  (effect_error b e = None ->
   button_nodeId b = None \/ button_nodeId b = Some "" ->
   exists e1,
     moved_on (logged (Render HideChoiceMenu) (after_effect b e)) e1
     /\ choose fuel i e = choice_guard b (executeSteps fuel e1)).
Proof.
  intros Hb. rewrite (choose_button _ _ _ _ Hb), clickChoice_unfold.
  split; [|split; [|split; [|split]]].
  - intros f Hf. unfold after_effect. rewrite Hf. apply state_vars_write.
  - intros err Herr. now rewrite Herr.
  - intros target steps Heff Ht Hne Hres. rewrite Heff. cbv zeta.
    rewrite Ht, (truthy_Some _ Hne).
    exists (enter target steps (logged (Render HideChoiceMenu) (after_effect b e))).
    split; [now repeat split|]. f_equal.
    apply jumpToNode_found. now rewrite nodes_after_effect.
  - intros target Heff Ht Hne _ Hres. rewrite Heff. cbv zeta.
    rewrite Ht, (truthy_Some _ Hne), jumpToNode_unresolved.
    + rewrite nodes_after_effect.
      exists (with_trace
                (trace (after_effect b e) ++ Render HideChoiceMenu
                   :: lookup_failure target (resolve (nodes (story e)) target))
                (after_effect b e)).
      split; [now repeat split|]. cbn.
      unfold with_trace, after_effect. cbn.
      destruct (button_effectFn b); cbn; now rewrite <- app_assoc.
    + now rewrite nodes_after_effect.
  - intros Heff Ht. rewrite Heff. cbv zeta.
    exists (next_step (logged (Render HideChoiceMenu) (after_effect b e))).
    split; [now repeat split|].
    now destruct Ht as [-> | ->].
Qed.

Lemma choose_runs_effect_then_transfers_witness :
  (exists e1,
     (currentNode e1 = Some "X" /\ currentSteps e1 = [StoryFormat.endStory]
      /\ currentStepIndex e1 = 0)
     /\ choose 10 0 (final (construct 10 choice_then_line heap0))
        = choice_guard
            {| button_label := "A"; button_nodeId := Some "X";
               button_effectFn := None |}
            (executeSteps 10 e1))
  /\ (exists e1,
        (currentNode e1 = None /\ currentStepIndex e1 = 0)
        /\ choose 10 0
             (with_choiceButtons
                [{| button_label := "A"; button_nodeId := Some "Nowhere";
                    button_effectFn := None |}]
                (initial dangling_story heap0))
           = Returned tt e1).
Proof.
  split.
  - destruct (choose_runs_effect_then_transfers 10 0
                (final (construct 10 choice_then_line heap0))
                {| button_label := "A"; button_nodeId := Some "X";
                   button_effectFn := None |} eq_refl) as (_ & _ & H & _).
    destruct (H "X" [StoryFormat.endStory])
      as (e1 & (Hnode & Hsteps & Hcursor & _) & Hwalk);
      [reflexivity|reflexivity|discriminate|reflexivity|].
    exists e1. split; [now repeat split|exact Hwalk].
  - destruct (choose_runs_effect_then_transfers 10 0
                (with_choiceButtons
                   [{| button_label := "A"; button_nodeId := Some "Nowhere";
                       button_effectFn := None |}]
                   (initial dangling_story heap0))
                {| button_label := "A"; button_nodeId := Some "Nowhere";
                   button_effectFn := None |} eq_refl) as (_ & _ & _ & H & _).
    destruct (H "Nowhere")
      as (e1 & (_ & Hnode & _ & Hcursor & _) & Hrun);
      [reflexivity|reflexivity|discriminate|reflexivity
      |intros steps; vm_compute; discriminate|].
    exists e1. split; [split; [exact Hnode|exact Hcursor]|exact Hrun].
Defined.

(** C3 as stated fails: in [empty_target_story] the option's target is the
    empty string, which is not null and names a node of the story, yet the
    click continues in the current node at cursor 1 instead of entering
    that node at cursor 0. *)
Lemma choose_empty_target_continues_in_place :
  let e := final (construct 10 empty_target_story heap0) in
  let e' := final (choose 10 0 e) in
  (button_nodeId <$> choiceButtons e = [Some ""]
   /\ resolve (nodes (story e)) "" = Found [narration "hidden"]) /\
  currentNode e' = Some "Start" /\ currentStepIndex e' = 1 /\
  currentNode e' <> currentNode (enter "" [narration "hidden"] e).
Proof. vm_compute. repeat split. discriminate. Qed.

(** *** Failures inside a step *)

Lemma skipped_intro (msg : Log.t) (step : Step) (e : Engine) :
  (forall exec,
     executeCase exec step e = Returned false (logged (Console LError msg) e)) ->
  (forall exec,
     executeStep exec step e = Returned false (logged (Console LError msg) e)) /\
  (forall fuel,
     currentSteps e !! currentStepIndex e = Some step ->
     executeSteps (S fuel) e
     = executeSteps fuel (next_step (logged (Console LError msg) e))).
Proof.
  intros H.
  assert (Hstep : forall exec,
    executeStep exec step e = Returned false (logged (Console LError msg) e)).
  { intros exec. now rewrite executeStep_guard, H. }
  split; [exact Hstep|].
  intros fuel Hat. now rewrite executeSteps_S, Hat, Hstep.
Qed.

Lemma halted_intro (evs : list Event) (step : Step) (e : Engine) :
  (forall exec,
     executeCase exec step e = Returned true (with_trace (trace e ++ evs) e)) ->
  (forall exec,
     executeStep exec step e = Returned true (with_trace (trace e ++ evs) e)) /\
  (forall fuel,
     currentSteps e !! currentStepIndex e = Some step ->
     executeSteps (S fuel) e = Returned tt (with_trace (trace e ++ evs) e)).
Proof.
  intros H.
  assert (Hstep : forall exec,
    executeStep exec step e = Returned true (with_trace (trace e ++ evs) e)).
  { intros exec. now rewrite executeStep_guard, H. }
  split; [exact Hstep|].
  intros fuel Hat. now rewrite executeSteps_S, Hat, Hstep.
Qed.

(** From the equations of a skipped or halted step to [skipped_with] and
    [halted_with]: the engines are those of the equations, and what is said
    of their fields is read off them. *)
Ltac skipped_by H :=
  let Hstep := fresh "Hstep" in
  let Hwalk := fresh "Hwalk" in
  destruct H as [Hstep Hwalk];
  refine (ex_intro _ _ (conj _ (conj Hstep _)));
  [ now repeat split
  | let fuel := fresh "fuel" in
    let Hat := fresh "Hat" in
    intros fuel Hat;
    refine (ex_intro _ _ (conj _ (Hwalk fuel Hat))); now repeat split ].

Ltac halted_by H :=
  let Hstep := fresh "Hstep" in
  let Hwalk := fresh "Hwalk" in
  destruct H as [Hstep Hwalk];
  refine (ex_intro _ _ (conj _ (conj Hstep Hwalk))); now repeat split.

Lemma showCharacter_unknown_character (charId : option string)
    (p : option CharacterPose) (pos : option CharacterPosition) (e : Engine) :
  characters (story e) !! js_key charId = None ->
  showCharacter charId p pos e
  = Returned tt (logged (Console LError (Log.CharacterNotFound (js_key charId))) e).
Proof. intros H. unfold showCharacter. rewrite bind_gets, H. reflexivity. Qed.

Lemma showCharacter_unknown_pose (charId : option string) (c : Character)
    (p : CharacterPose) (poseName : string) (pos : option CharacterPosition)
    (e : Engine) :
  characters (story e) !! js_key charId = Some c ->
  pose_name p = Some poseName -> poseName <> "" ->
  poses c !! poseName = None ->
  showCharacter charId (Some p) pos e
  = Returned tt (logged (Console LError
                           (Log.PoseNotFound poseName (js_key charId))) e).
Proof.
  intros Hc Hp Hne Hpose. unfold showCharacter. rewrite bind_gets, Hc.
  cbn [mbind option_bind]. rewrite Hp, (truthy_Some _ Hne), Hpose. reflexivity.
Qed.

Lemma showCharacter_unknown_position (charId : option string) (c : Character)
    (p : CharacterPose) (poseName imagePath : string) (pos : CharacterPosition)
    (positionName : string) (e : Engine) :
  characters (story e) !! js_key charId = Some c ->
  pose_name p = Some poseName -> poseName <> "" ->
  poses c !! poseName = Some imagePath -> imagePath <> "" ->
  position_name pos = Some positionName -> positionName <> "" ->
  known_position positionName = false ->
  showCharacter charId (Some p) (Some pos) e
  = Returned tt (logged (Console LError
                           (Log.UnknownPosition positionName (js_key charId))) e).
Proof.
  intros Hc Hp Hne Hpose Himg Hpos Hne' Hknown.
  unfold showCharacter. rewrite bind_gets, Hc.
  cbn [mbind option_bind]. rewrite Hp, (truthy_Some _ Hne), Hpose.
  rewrite (truthy_Some _ Himg). cbn [negb mbind option_bind].
  rewrite Hpos, (truthy_Some _ Hne'), Hknown. reflexivity.
Qed.

Lemma setVariable_compute_throws (k : string) (f : ComputeValue) (err : Error)
    (e : Engine) :
  k <> "" -> f (state_vars e) = inl err ->
  setVariable (Some k) (Computed f) e
  = Threw err (logged (Console LError (Log.ErrorSettingVariable k err)) e).
Proof.
  intros Hne Hf. unfold setVariable. rewrite (truthy_Some _ Hne).
  cbn [negb default]. unfold try_catch, bind, gets, throw. rewrite Hf.
  reflexivity.
Qed.

Lemma setBackground_unknown_place (placeId : option string) (e : Engine) :
  places (story e) !! js_key placeId = None ->
  setBackground placeId e
  = Returned tt (logged (Console LError (Log.BackgroundNotFound (js_key placeId))) e).
Proof. intros H. unfold setBackground. rewrite bind_gets, H. reflexivity. Qed.

(** C7 (amended).  An exception thrown by the compute function of a
    [set_variable] step leaves [executeStep] after the two [catch] clauses
    have logged it, and an exception thrown by the effect of a choice
    leaves the click listener in the same way; neither is swallowed.  A
    step that names a place or a character that the table of the story
    neither has nor inherits, a pose that the character neither has nor
    inherits, or a position that is none of the three, logs the failure,
    changes nothing else and is skipped, the walk going on with the cursor
    one further.  A [jump_to] whose node is a plain path that cannot be
    resolved logs the failure, changes nothing else and throws nothing, but
    the walk of the current node stops at that step. *)
Theorem author_errors_propagate_and_lookup_failures_are_logged
    (fuel : nat) (e : Engine) (step : Step) :
  (forall exec k f err,
     type step = Some StepType.set_variable ->
     key step = Some k -> k <> "" -> value step = Computed f ->
     f (state_vars e) = inl err ->
     executeStep exec step e
     = Threw err
         (logged (Console LError (Log.ErrorExecutingStep (currentNode e) err))
            (logged (Console LError (Log.ErrorSettingVariable k err)) e))) /\
  (forall b f err,
     button_effectFn b = Some f -> (f (state_vars e)).2 = Some err ->
     clickChoice fuel b e
     = Threw err
         (logged (Console LError (Log.ErrorExecutingChoice (button_label b) err))
            (write_state_vars (f (state_vars e)).1 e))) /\
  (type step = Some StepType.background ->
   places (story e) !! js_key (id step) = None ->
   Js.inherited (js_key (id step)) = false ->
   skipped_with (Log.BackgroundNotFound (js_key (id step))) step e) /\
  (type step = Some StepType.show_character ->
   characters (story e) !! js_key (id step) = None ->
   Js.inherited (js_key (id step)) = false ->
   skipped_with (Log.CharacterNotFound (js_key (id step))) step e) /\
  (forall c p poseName,
     type step = Some StepType.show_character ->
     characters (story e) !! js_key (id step) = Some c ->
     pose step = Some p -> pose_name p = Some poseName -> poseName <> "" ->
     poses c !! poseName = None ->
     Js.inherited poseName = false ->
     skipped_with (Log.PoseNotFound poseName (js_key (id step))) step e) /\
  (forall c p poseName imagePath pos positionName,
     type step = Some StepType.show_character ->
     characters (story e) !! js_key (id step) = Some c ->
     pose step = Some p -> pose_name p = Some poseName -> poseName <> "" ->
     poses c !! poseName = Some imagePath -> imagePath <> "" ->
     position step = Some pos -> position_name pos = Some positionName ->
     positionName <> "" -> known_position positionName = false ->
     skipped_with (Log.UnknownPosition positionName (js_key (id step))) step e) /\
  (forall n,
     type step = Some StepType.jump_to -> nodeId step = Some n ->
     plain_path (nodes (story e)) n = true ->
     (forall steps, resolve (nodes (story e)) n <> Found steps) ->
     halted_with (lookup_failure n (resolve (nodes (story e)) n)) step e).
Proof.
  split; [|split; [|split; [|split; [|split; [|split]]]]].
  - intros exec k f err Hty Hk Hne Hv Hf.
    rewrite executeStep_guard. unfold executeCase. rewrite Hty, Hk, Hv.
    unfold bind. now rewrite (setVariable_compute_throws _ _ err).
  - intros b f err Hb Herr. rewrite clickChoice_unfold.
    unfold effect_error, after_effect. rewrite Hb, Herr. reflexivity.
  - intros Hty Hplace _.
    assert (H : forall exec,
      executeCase exec step e
      = Returned false
          (logged (Console LError (Log.BackgroundNotFound (js_key (id step)))) e)).
    { intros exec. unfold executeCase. rewrite Hty. unfold bind.
      now rewrite setBackground_unknown_place. }
    apply skipped_intro in H. skipped_by H.
  - intros Hty Hchar _.
    assert (H : forall exec,
      executeCase exec step e
      = Returned false
          (logged (Console LError (Log.CharacterNotFound (js_key (id step)))) e)).
    { intros exec. unfold executeCase. rewrite Hty. unfold bind.
      now rewrite showCharacter_unknown_character. }
    apply skipped_intro in H. skipped_by H.
  - intros c p poseName Hty Hchar Hp Hname Hne Hpose _.
    assert (H : forall exec,
      executeCase exec step e
      = Returned false
          (logged (Console LError
                     (Log.PoseNotFound poseName (js_key (id step)))) e)).
    { intros exec. unfold executeCase. rewrite Hty, Hp. unfold bind.
      now rewrite (showCharacter_unknown_pose _ c p poseName). }
    apply skipped_intro in H. skipped_by H.
  - intros c p poseName imagePath pos positionName
      Hty Hchar Hp Hname Hne Hpose Himg Hpos Hposname Hne' Hknown.
    assert (H : forall exec,
      executeCase exec step e
      = Returned false
          (logged (Console LError
                     (Log.UnknownPosition positionName (js_key (id step)))) e)).
    { intros exec. unfold executeCase. rewrite Hty, Hp, Hpos. unfold bind.
      now rewrite (showCharacter_unknown_position _ c p poseName imagePath
                     pos positionName). }
    apply skipped_intro in H. skipped_by H.
  - intros n Hty Hnode _ Hres.
    assert (H : forall exec,
      executeCase exec step e
      = Returned true
          (with_trace
             (trace e ++ lookup_failure n (resolve (nodes (story e)) n)) e)).
    { intros exec. unfold executeCase. rewrite Hty, Hnode.
      rewrite bind_paused, jumpToNode_unresolved by assumption. reflexivity. }
    apply halted_intro in H. halted_by H.
Qed.

Lemma author_errors_propagate_and_lookup_failures_are_logged_witness :
  executeStep (executeSteps 5)
    (StoryFormat.setVariable "score" (Computed failing))
    (standing_at failing_story "Start"
       [StoryFormat.setVariable "score" (Computed failing); narration "after"])
  = Threw (AuthorError "boom")
      (logged (Console LError
                 (Log.ErrorExecutingStep (Some "Start") (AuthorError "boom")))
         (logged (Console LError
                    (Log.ErrorSettingVariable "score" (AuthorError "boom")))
            (standing_at failing_story "Start"
               [StoryFormat.setVariable "score" (Computed failing);
                narration "after"])))
  /\ skipped_with (Log.BackgroundNotFound "moon") (StoryFormat.background "moon")
       (standing_at stage_story "Start"
          [StoryFormat.background "moon"; narration "after"])
  /\ halted_with
       (lookup_failure "Nowhere"
          (resolve (nodes dangling_story) "Nowhere"))
       (jumpTo "Nowhere")
       (standing_at dangling_story "Start" [jumpTo "Nowhere"; narration "after"]).
Proof.
  split; [|split].
  - destruct (author_errors_propagate_and_lookup_failures_are_logged 5
                (standing_at failing_story "Start"
                   [StoryFormat.setVariable "score" (Computed failing);
                    narration "after"])
                (StoryFormat.setVariable "score" (Computed failing)))
      as (H & _).
    apply (H (executeSteps 5) "score" failing (AuthorError "boom"));
      [reflexivity|reflexivity|discriminate|reflexivity|reflexivity].
  - destruct (author_errors_propagate_and_lookup_failures_are_logged 5
                (standing_at stage_story "Start"
                   [StoryFormat.background "moon"; narration "after"])
                (StoryFormat.background "moon"))
      as (_ & _ & H & _).
    apply H; reflexivity.
  - destruct (author_errors_propagate_and_lookup_failures_are_logged 5
                (standing_at dangling_story "Start"
                   [jumpTo "Nowhere"; narration "after"])
                (jumpTo "Nowhere"))
      as (_ & _ & _ & _ & _ & _ & H).
    apply (H "Nowhere"); [reflexivity|reflexivity|reflexivity|].
    intros steps. vm_compute. discriminate.
Defined.

(** C7 as stated fails for an unknown node: in [dangling_story] the jump to
    a node that does not exist is logged and the walk stops at the jump,
    cursor 0, without showing the line that follows; had the step been
    skipped like the other lookup failures, the line would have been
    shown. *)
Lemma unknown_node_stops_the_walk :
  let e := standing_at dangling_story "Start"
             [jumpTo "Nowhere"; narration "after"] in
  let failure := lookup_failure "Nowhere" (resolve (nodes (story e)) "Nowhere") in
  let e' := final (executeSteps 10 e) in
  (forall steps, resolve (nodes (story e)) "Nowhere" <> Found steps) /\
  currentStepIndex e' = 0 /\
  trace e' = trace e ++ failure /\
  waitingForInput e' = false /\
  executeSteps 10 e
  <> executeSteps 9 (next_step (with_trace (trace e ++ failure) e)).
Proof.
  cbv zeta. split; [intros steps; vm_compute; discriminate|].
  split; [reflexivity|]. split; [reflexivity|]. split; [reflexivity|].
  intros H.
  apply (f_equal (fun o => currentStepIndex (final o))) in H.
  vm_compute in H. discriminate.
Qed.

(** *** The node resolver *)

Lemma walk_descend (root : NodeEntry) (parts : list string) :
  Validator.walk root parts = descend root parts.
Proof.
  revert root. induction parts as [|part rest IH]; intros root; cbn; [reflexivity|].
  destruct (get_prop root part); [apply IH|reflexivity].
Qed.

Lemma descend_app (root : NodeEntry) (pre rest : list string) :
  descend root (pre ++ rest) = descend root pre ≫= (fun cur => descend cur rest).
Proof.
  revert root. induction pre as [|part pre IH]; intros root; cbn; [reflexivity|].
  destruct (get_prop root part); [apply IH|reflexivity].
Qed.

Lemma resolveLoop_missing (parts : list string) (rest : list string)
    (miss : string) (pre : list string) (i : nat) (root cur : NodeEntry) :
  descend root pre = Some cur -> get_prop cur miss = None ->
  resolveLoop parts i (Some root) (pre ++ miss :: rest)
  = Missing (join_dot (slice0 (i + length pre + 1) parts)) (available (Some cur)).
Proof.
  revert i root. induction pre as [|part pre IH]; intros i root Hd Hm; cbn in *.
  - injection Hd as ->. rewrite Hm. now rewrite Nat.add_0_r.
  - destruct (get_prop root part) as [next|]; [|discriminate].
    rewrite (IH (S i) next Hd Hm). do 3 f_equal. lia.
Qed.

Lemma resolveLoop_reached (parts : list string) (pre : list string) (i : nat)
    (root cur : NodeEntry) :
  descend root pre = Some cur ->
  resolveLoop parts i (Some root) pre
  = match cur with
    | StepArray steps => Found steps
    | NestedGroup _ => IsGroup (available (Some cur))
    end.
Proof.
  revert i root. induction pre as [|part pre IH]; intros i root Hd; cbn in *.
  - injection Hd as ->. now destruct cur.
  - destruct (get_prop root part) as [next|]; [|discriminate].
    now apply IH.
Qed.

Lemma resolve_missing (ns : Nodes) (nodeId : string) (pre : list string)
    (miss : string) (rest : list string) (cur : NodeEntry) :
  split_dot nodeId = pre ++ miss :: rest ->
  descend (NestedGroup ns) pre = Some cur -> get_prop cur miss = None ->
  resolve (Some ns) nodeId
  = Missing (join_dot (pre ++ [miss])) (available (Some cur)).
Proof.
  intros Hsplit Hd Hm. unfold resolve. rewrite Hsplit.
  cbn [fmap option_fmap option_map].
  rewrite (resolveLoop_missing _ rest miss pre 0 _ cur Hd Hm).
  cbn [Nat.add]. unfold slice0.
  replace (length pre + 1) with (length (pre ++ [miss]))
    by (rewrite length_app; reflexivity).
  replace (pre ++ miss :: rest) with ((pre ++ [miss]) ++ rest)
    by (now rewrite <- app_assoc).
  now rewrite take_app_length.
Qed.

Lemma resolve_group (ns : Nodes) (nodeId : string)
    (children : list (string * NodeEntry)) :
  descend (NestedGroup ns) (split_dot nodeId) = Some (NestedGroup children) ->
  resolve (Some ns) nodeId = IsGroup children.*1.
Proof.
  intros Hd. unfold resolve. cbn [fmap option_fmap option_map].
  now rewrite (resolveLoop_reached _ _ 0 _ _ Hd).
Qed.

(** C2 (amended).  When the segment [miss] of the path is the first one
    that is absent, the group reached before it neither having nor
    inheriting a property of that name, [resolveNode] returns [null] and
    logs the requested path together with the path up to and including the
    missing segment, not the prefix that did resolve, and the keys of that
    group.  When every segment is a key and the value reached is a group,
    it returns [null] and logs a different message, that the node is not a
    step array.  In both cases nothing but the log changes, and the
    validator's [resolveNode] returns [null] and tells them apart in no
    way. *)
Theorem resolveNode_reports_where_it_failed
    (e : Engine) (ns : Nodes) (nodeId : string) :
  nodes (story e) = Some ns ->
  (forall pre miss rest children,
     split_dot nodeId = pre ++ miss :: rest ->
     descend (NestedGroup ns) pre = Some (NestedGroup children) ->
     get_entry miss children = None ->
     Js.inherited miss = false ->
     (exists e',
        told [Console LError
                (Log.NodeNotFound nodeId (join_dot (pre ++ [miss])) children.*1)]
             e e'
        /\ resolveNode nodeId e = Returned None e')
     /\ Validator.resolveNode ns nodeId = None) /\
  (forall children,
     descend (NestedGroup ns) (split_dot nodeId) = Some (NestedGroup children) ->
     (exists e',
        told [Console LError (Log.NotAStepArray nodeId children.*1)] e e'
        /\ resolveNode nodeId e = Returned None e')
     /\ Validator.resolveNode ns nodeId = None).
Proof.
  intros Hns. split.
  - intros pre miss rest children Hsplit Hd Hm _. split.
    + exists (logged (Console LError
                        (Log.NodeNotFound nodeId (join_dot (pre ++ [miss]))
                                          children.*1)) e).
      split; [now repeat split|].
      unfold resolveNode. rewrite bind_gets, Hns.
      now rewrite (resolve_missing _ _ _ _ _ _ Hsplit Hd Hm).
    + unfold Validator.resolveNode. rewrite walk_descend, Hsplit, descend_app, Hd.
      cbn. now rewrite Hm.
  - intros children Hd. split.
    + exists (logged (Console LError (Log.NotAStepArray nodeId children.*1)) e).
      split; [now repeat split|].
      unfold resolveNode. rewrite bind_gets, Hns.
      now rewrite (resolve_group _ _ _ Hd).
    + unfold Validator.resolveNode. now rewrite walk_descend, Hd.
Qed.

Lemma resolveNode_reports_where_it_failed_witness :
  (exists e',
     trace e'
     = trace (initial nested_story heap0)
       ++ [Console LError
             (Log.NodeNotFound "Park.Lake.Shore" "Park.Lake" ["WithBob"])]
     /\ resolveNode "Park.Lake.Shore" (initial nested_story heap0)
        = Returned None e')
  /\ Validator.resolveNode
       [("Park", NestedGroup [("WithBob", StepArray [StoryFormat.endStory])])]
       "Park.Lake.Shore" = None.
Proof.
  destruct (resolveNode_reports_where_it_failed (initial nested_story heap0)
              [("Park", NestedGroup [("WithBob", StepArray [StoryFormat.endStory])])]
              "Park.Lake.Shore" eq_refl) as (H & _).
  destruct (H ["Park"] "Lake" ["Shore"]
              [("WithBob", StepArray [StoryFormat.endStory])]
              eq_refl eq_refl eq_refl eq_refl)
    as ((e' & (Htrace & _) & Hrun) & Hval).
  split; [|exact Hval]. exists e'. split; [exact Htrace|exact Hrun].
Defined.

(** C2 as stated fails: for the path [Park.Lake.Shore] in [nested_story]
    the segments that resolve are [Park] alone and [Lake] is the missing
    one, yet the path the resolver reports is [Park.Lake], the missing
    segment included, and not the longest valid prefix [Park]. *)
Lemma resolveNode_reports_the_missing_segment :
  let e := initial nested_story heap0 in
  exists ns pre miss rest cur keys,
    nodes (story e) = Some ns
    /\ split_dot "Park.Lake.Shore" = pre ++ miss :: rest
    /\ descend (NestedGroup ns) pre = Some cur
    /\ get_prop cur miss = None
    /\ resolve (nodes (story e)) "Park.Lake.Shore" = Missing "Park.Lake" keys
    /\ "Park.Lake" <> join_dot pre.
Proof.
  exists [("Park", NestedGroup [("WithBob", StepArray [StoryFormat.endStory])])],
    ["Park"], "Lake", ["Shore"],
    (NestedGroup [("WithBob", StepArray [StoryFormat.endStory])]), ["WithBob"].
  repeat split; discriminate.
Qed.

(** *** The frame of the engine's writes *)

Lemma frame_refl (e : Engine) : frame e e.
Proof. now repeat split. Qed.

Lemma frame_trans (e1 e2 e3 : Engine) : frame e1 e2 -> frame e2 e3 -> frame e1 e3.
Proof.
  intros (Hs & Hv & Hl) (Hs' & Hv' & Hl'). repeat split.
  - now rewrite Hs'.
  - now rewrite Hv'.
  - intros l Hne. rewrite Hl' by (now rewrite Hv). now apply Hl.
Qed.

Lemma frame_same_heap (e e' : Engine) :
  story e' = story e -> state_variables e' = state_variables e ->
  store e' = store e -> frame e e'.
Proof. intros Hs Hv Hst. repeat split; try assumption. intros l _. now rewrite Hst. Qed.

Lemma frame_write_state_vars (vs : Variables) (e : Engine) :
  frame e (write_state_vars vs e).
Proof.
  repeat split. intros l Hne. cbn. now rewrite lookup_insert_ne.
Qed.

Lemma Framed_ret {A : Type} (a : A) : Framed (ret a).
Proof. intros e. apply frame_refl. Qed.

Lemma Framed_throw {A : Type} (err : Error) : Framed (@throw A err).
Proof. intros e. apply frame_refl. Qed.

Lemma Framed_gets {A : Type} (f : Engine -> A) : Framed (gets f).
Proof. intros e. apply frame_refl. Qed.

Lemma Framed_modify (f : Engine -> Engine) :
  (forall e, frame e (f e)) -> Framed (modify f).
Proof. intros H e. apply H. Qed.

Lemma Framed_emit (ev : Event) : Framed (emit ev).
Proof. intros e. now apply frame_same_heap. Qed.

Lemma Framed_bind {A B : Type} (m : M A) (k : A -> M B) :
  Framed m -> (forall a, Framed (k a)) -> Framed (bind m k).
Proof.
  intros Hm Hk e. specialize (Hm e). unfold bind.
  destruct (m e) as [a e'|err e'|e']; cbn in *; try assumption.
  eapply frame_trans; [exact Hm|apply Hk].
Qed.

Lemma Framed_try_catch {A : Type} (m : M A) (h : Error -> M A) :
  Framed m -> (forall err, Framed (h err)) -> Framed (try_catch m h).
Proof.
  intros Hm Hh e. specialize (Hm e). unfold try_catch.
  destruct (m e) as [a e'|err e'|e']; cbn in *; try assumption.
  eapply frame_trans; [exact Hm|apply Hh].
Qed.

Create HintDb framed.

#[local] Hint Resolve Framed_ret Framed_throw Framed_gets Framed_emit : framed.

Ltac framed_step :=
  first
    [ assumption
    | solve [auto with framed]
    | apply Framed_modify; intros ?;
      first [ apply frame_write_state_vars
            | now apply frame_same_heap
            | match goal with
              | |- frame _ (if ?c then _ else _) =>
                  destruct c;
                  first [ apply frame_write_state_vars | apply frame_refl ]
              end ]
    | apply Framed_bind; [|intros ?]
    | apply Framed_try_catch; [|intros ?]
    | match goal with
      | |- Framed (match ?x with _ => _ end) => destruct x
      | H : forall _, Framed _ |- _ => apply H
      end
    | progress cbv zeta ].

Ltac framed := repeat framed_step.

Lemma Framed_resolveNode (n : string) : Framed (resolveNode n).
Proof. unfold resolveNode. framed. Qed.

Lemma Framed_setBackground (placeId : option string) : Framed (setBackground placeId).
Proof. unfold setBackground. framed. Qed.

Lemma Framed_showCharacter (charId : option string) (p : option CharacterPose)
    (pos : option CharacterPosition) : Framed (showCharacter charId p pos).
Proof. unfold showCharacter. framed. Qed.

Lemma Framed_hideCharacter (charId : option string) : Framed (hideCharacter charId).
Proof. unfold hideCharacter, hideAt. framed. Qed.

Lemma Framed_showDialogue (w txt : option string) : Framed (showDialogue w txt).
Proof. unfold showDialogue. framed. Qed.

Lemma Framed_showNarration (txt : option string) : Framed (showNarration txt).
Proof. unfold showNarration. framed. Qed.

Lemma Framed_setVariable (k : option string) (v : VarSource) : Framed (setVariable k v).
Proof. unfold setVariable. framed. Qed.

Lemma Framed_addButtons (opts : list ChoiceOption) (index : nat) :
  Framed (addButtons index opts).
Proof.
  revert index. induction opts as [|option rest IH]; intros index; cbn [addButtons].
  - framed.
  - apply Framed_bind; [framed|intros _; apply IH].
Qed.

Lemma Framed_showChoices (p : option string) (opts : option (list ChoiceOption)) :
  Framed (showChoices p opts).
Proof.
  unfold showChoices. destruct opts as [[|option rest]|]; [framed| |framed].
  apply Framed_bind; [framed|intros _].
  apply Framed_bind; [framed|intros _].
  apply Framed_bind; [apply Framed_addButtons|intros _]. framed.
Qed.

Lemma Framed_endStory : Framed endStory.
Proof. unfold endStory. framed. Qed.

#[local] Hint Resolve Framed_resolveNode Framed_setBackground
  Framed_showCharacter Framed_hideCharacter Framed_showDialogue
  Framed_showNarration Framed_setVariable Framed_showChoices
  Framed_endStory : framed.

Lemma Framed_jumpToNode (exec : M unit) (nodeId : option string) :
  Framed exec -> Framed (jumpToNode exec nodeId).
Proof. intros Hexec. unfold jumpToNode. framed. Qed.

Lemma Framed_executeStep (exec : M unit) (step : Step) :
  Framed exec -> Framed (executeStep exec step).
Proof.
  intros Hexec.
  pose proof (fun n => Framed_jumpToNode exec n Hexec) as Hjump.
  unfold executeStep, executeCase. framed.
Qed.

Lemma Framed_executeSteps (fuel : nat) : Framed (executeSteps fuel).
Proof.
  induction fuel as [|fuel IH]; cbn [executeSteps].
  - intros e. apply frame_refl.
  - pose proof (Framed_executeStep (executeSteps fuel)) as Hstep. framed.
Qed.

Lemma Framed_signal (fuel : nat) (s : Signal) : Framed (signal fuel s).
Proof.
  pose proof (Framed_executeSteps fuel) as Hexec.
  pose proof (fun n => Framed_jumpToNode (executeSteps fuel) n Hexec) as Hjump.
  destruct s as [|i]; cbn [signal].
  - unfold advance. framed.
  - unfold choose, clickChoice, runEffect. framed.
Qed.

Lemma frame_run (fuel : nat) (signals : list Signal) (e : Engine) :
  frame e (run fuel signals e).
Proof.
  revert e. induction signals as [|s rest IH]; intros e; cbn [run].
  - apply frame_refl.
  - eapply frame_trans; [apply Framed_signal|apply IH].
Qed.

(** C9.  The constructor gives the state a fresh variables object holding
    what the story's object holds, and neither construction nor any
    sequence of signals after it, whatever the fuel of the walks and however
    they end, writes the story's own object or changes the story document:
    every write of a [set_variable] step or of an effect goes to the state's
    object. *)
Theorem story_variables_are_copied_and_never_written
    (fuel fuel' : nat) (storyData : Story) (heap : gmap loc Variables)
    (l : loc) (vars : Variables) (signals : list Signal) :
  variables storyData = Some l ->
  heap !! l = Some vars ->
  (state_variables (initial storyData heap) <> l
   /\ state_vars (initial storyData heap) = vars
   /\ store (initial storyData heap) !! l = Some vars) /\
  story (run fuel' signals (final (construct fuel storyData heap))) = storyData /\
  store (run fuel' signals (final (construct fuel storyData heap))) !! l
  = Some vars.
Proof.
  intros Hvars Hl.
  assert (Hfresh : fresh (dom heap) <> l).
  { intros Heq. apply (is_fresh (dom heap)). rewrite Heq.
    apply elem_of_dom. now exists vars. }
  assert (Hinit : store (initial storyData heap) !! l = Some vars).
  { cbn. now rewrite lookup_insert_ne. }
  split; [split; [exact Hfresh|split; [|exact Hinit]]|].
  - unfold state_vars. cbn. rewrite lookup_insert_eq, Hvars. cbn. now rewrite Hl.
  - assert (Hframe : frame (initial storyData heap)
                       (run fuel' signals (final (construct fuel storyData heap)))).
    { eapply frame_trans; [|apply frame_run].
      apply (Framed_jumpToNode (executeSteps fuel) (start storyData)
               (Framed_executeSteps fuel)). }
    destruct Hframe as (Hs & Hv & Hstore). split; [exact Hs|].
    rewrite Hstore; [exact Hinit|exact (not_eq_sym Hfresh)].
Qed.

Lemma story_variables_are_copied_and_never_written_witness :
  store (run 10 [Choose 0; Advance] (final (construct 10 score_story score_heap)))
    !! 1%positive
  = Some {[ "score" := VNum 0 ]}
  /\ state_vars (run 10 [Choose 0; Advance]
                   (final (construct 10 score_story score_heap))) !! "score"
     = Some (VNum 5).
Proof.
  split; [|reflexivity].
  apply (story_variables_are_copied_and_never_written 10 10 score_story
           score_heap 1%positive {[ "score" := VNum 0 ]} [Choose 0; Advance]);
    reflexivity.
Defined.

(** *** The validator *)

Lemma NodeEntry_nested_ind (P : NodeEntry -> Prop) :
  (forall steps, P (StepArray steps)) ->
  (forall children, Forall (fun kv => P kv.2) children -> P (NestedGroup children)) ->
  forall v, P v.
Proof.
  intros Hsteps Hgroup. fix IH 1. intros [steps|children].
  - apply Hsteps.
  - apply Hgroup. induction children as [|kv rest IHrest]; constructor.
    + apply IH.
    + exact IHrest.
Qed.

Lemma elem_of_set_add (x y : string) (s : list string) :
  x ∈ set_add y s <-> x = y \/ x ∈ s.
Proof.
  unfold set_add. destruct (decide (y ∈ s)) as [Hin|Hout].
  - split; [now right|]. intros [->|H]; assumption.
  - rewrite elem_of_app, list_elem_of_singleton. tauto.
Qed.

Lemma elem_of_add_all (x : string) (l ids : list string) :
  x ∈ foldl (fun ids' i => set_add i ids') ids l <-> x ∈ ids \/ x ∈ l.
Proof.
  revert ids. induction l as [|i l IH]; intros ids; cbn.
  - rewrite elem_of_nil. tauto.
  - rewrite IH, elem_of_set_add, elem_of_cons. tauto.
Qed.

Lemma collect_entries (x : string) (prefix : string)
    (entries : list (string * NodeEntry)) (ids : list string) :
  Forall (fun kv => forall full,
            x ∈ collectValue full kv.2 <-> x ∈ (leavesValue full kv.2).*1) entries ->
  x ∈ foldl (fun ids kv =>
               foldl (fun ids' i => set_add i ids') ids
                     (collectValue (fullId prefix kv.1) kv.2)) ids entries
  <-> x ∈ ids
      \/ x ∈ (concat (map (fun kv => leavesValue (fullId prefix kv.1) kv.2) entries)).*1.
Proof.
  intros Hall. revert ids. induction Hall as [|kv rest Hkv _ IH]; intros ids; cbn.
  - rewrite elem_of_nil. tauto.
  - rewrite IH, elem_of_add_all, fmap_app, elem_of_app, Hkv. tauto.
Qed.

Lemma collectValue_leaves (x : string) (value : NodeEntry) (full : string) :
  x ∈ collectValue full value <-> x ∈ (leavesValue full value).*1.
Proof.
  revert full. induction value as [steps|children IH] using NodeEntry_nested_ind;
    intros full; cbn [collectValue leavesValue].
  - reflexivity.
  - rewrite (collect_entries x full children [] IH), elem_of_nil. tauto.
Qed.

(** The ids [collectNodeIds] returns are the dotted paths of the leaves of
    the tree. *)
Lemma collectNodeIds_leaves (x : string) (ns : Nodes) (prefix : string) :
  x ∈ collectNodeIds ns prefix <-> x ∈ (leaves ns prefix).*1.
Proof.
  unfold collectNodeIds, leaves. rewrite collect_entries.
  - rewrite elem_of_nil. tauto.
  - apply Forall_forall. intros kv _ full. apply collectValue_leaves.
Qed.

Lemma refs_push (d : Diag.t) (a : Acc) :
  referencedNodeIds (push d a) = referencedNodeIds a.
Proof. reflexivity. Qed.

Lemma refs_push_if (c : bool) (d : Diag.t) (a : Acc) :
  referencedNodeIds (push_if c d a) = referencedNodeIds a.
Proof. now destruct c. Qed.

Lemma refs_reference (p n : string) (a : Acc) :
  p ∈ referencedNodeIds (reference n a) <-> p = n \/ p ∈ referencedNodeIds a.
Proof. apply elem_of_set_add. Qed.

Lemma truthy_spec (s : string) : truthy (Some s) = true <-> s <> "".
Proof.
  unfold truthy. destruct (String.eqb_spec s ""); cbn; split; congruence.
Qed.

(** What one optional target adds to the referenced set. *)
Lemma refs_optional_target (p : string) (t : option string) (a : Acc) :
  p ∈ referencedNodeIds
        match t with
        | Some n => if truthy (Some n) then reference n a else a
        | None => a
        end
  <-> p ∈ referencedNodeIds a \/ (p <> "" /\ Some p = t).
Proof.
  destruct t as [n|].
  - destruct (truthy (Some n)) eqn:Hn.
    + rewrite refs_reference. apply truthy_spec in Hn.
      split; [intros [->|H]; [right; now split|now left]|].
      intros [H|[_ [= ->]]]; [now right|now left].
    + split; [now left|]. intros [H|[Hne [= ->]]]; [assumption|].
      apply truthy_spec in Hne. congruence.
  - split; [now left|]. now intros [H|[_ H]].
Qed.

Lemma refs_validateOptions (p : string) (nodeId : string) (i optIdx : nat)
    (opts : list ChoiceOption) (a : Acc) :
  p ∈ referencedNodeIds (validateOptions nodeId i optIdx opts a)
  <-> p ∈ referencedNodeIds a \/ (p <> "" /\ Some p ∈ target <$> opts).
Proof.
  revert optIdx a. induction opts as [|o rest IH]; intros optIdx a; cbn.
  - rewrite elem_of_nil. tauto.
  - rewrite IH. unfold validateOption. cbv zeta.
    rewrite refs_optional_target, refs_push_if, elem_of_cons. tauto.
Qed.

Lemma refs_validateStep (p : string) (story : Story) (n : string) (i : nat)
    (step : Step) (a : Acc) :
  p ∈ referencedNodeIds (validateStep story n i step a).1
  <-> p ∈ referencedNodeIds a \/ (p <> "" /\ Some p ∈ targets step).
Proof.
  unfold validateStep, targets. cbv zeta.
  destruct (type step) as [[]|]; cbn [fst].
  all: try (repeat first [rewrite refs_push_if | rewrite refs_push];
            rewrite ?elem_of_nil; tauto).
  - (* background *)
    destruct (id step) as [placeId|]; [destruct (negb _)|];
      repeat first [rewrite refs_push_if | rewrite refs_push];
      rewrite elem_of_nil; tauto.
  - (* show_character *)
    rewrite !refs_push_if.
    destruct (id step) as [charId|]; [destruct (negb _)|];
      [| destruct (characters story !! charId); [destruct (pose step)|] |];
      repeat first [rewrite refs_push_if | rewrite refs_push];
      rewrite elem_of_nil; tauto.
  - (* dialogue *)
    rewrite refs_push_if.
    destruct (who step) as [w|]; [destruct (negb _)|];
      repeat first [rewrite refs_push_if | rewrite refs_push];
      rewrite elem_of_nil; tauto.
  - (* set_variable *)
    destruct (value step) as [[]|];
      repeat first [rewrite refs_push_if | rewrite refs_push];
      rewrite elem_of_nil; tauto.
  - (* jump_to *)
    rewrite list_elem_of_singleton.
    pose proof (refs_optional_target p (nodeId step) a) as H.
    destruct (nodeId step) as [m|]; [destruct (truthy (Some m))|];
      rewrite ?refs_push; exact H.
  - (* conditional_jump *)
    rewrite refs_optional_target, elem_of_cons, list_elem_of_singleton.
    pose proof (refs_optional_target p (thenNodeId step)
                  (push_if (negb (bool_decide (is_Some (test step))))
                     (diag error ConditionalJumpMissingTest (AtStep n i)) a)) as H.
    rewrite refs_push_if in H.
    destruct (thenNodeId step) as [m|]; [destruct (truthy (Some m))|];
      rewrite ?refs_push; rewrite H; tauto.
  - (* choice *)
    destruct (options step) as [opts|]; cbn [default].
    + rewrite refs_validateOptions, !refs_push_if. tauto.
    + rewrite refs_push, refs_push_if, fmap_nil, elem_of_nil. tauto.
Qed.

Lemma refs_validateLoop (p : string) (story : Story) (n : string)
    (steps : list Step) (i : nat) (hasEnding : bool) (a : Acc) :
  p ∈ referencedNodeIds (validateLoop story n i steps hasEnding a).1
  <-> p ∈ referencedNodeIds a
      \/ exists step, step ∈ steps /\ p <> "" /\ Some p ∈ targets step.
Proof.
  revert i hasEnding a. induction steps as [|step rest IH]; intros i hasEnding a;
    cbn [validateLoop].
  - cbn. split; [now left|]. intros [H|(step & Hin & _)]; [assumption|].
    now apply elem_of_nil in Hin.
  - pose proof (refs_validateStep p story n i step a) as Hstep.
    destruct (validateStep story n i step a) as [a' ending]. cbn [fst] in Hstep.
    rewrite IH, Hstep. split.
    + intros [[H|H]|(s & Hin & H)].
      * now left.
      * right. exists step. split; [apply list_elem_of_here|exact H].
      * right. exists s. split; [now apply list_elem_of_further|exact H].
    + intros [H|(s & Hin & H)]; [now left; left|].
      apply elem_of_cons in Hin as [->|Hin].
      * left. now right.
      * right. now exists s.
Qed.

Lemma refs_validateSteps (p : string) (story : Story) (steps : list Step)
    (n : string) (a : Acc) :
  p ∈ referencedNodeIds (validateSteps story steps n a)
  <-> p ∈ referencedNodeIds a
      \/ exists step, step ∈ steps /\ p <> "" /\ Some p ∈ targets step.
Proof.
  unfold validateSteps. destruct steps as [|step rest].
  - rewrite refs_push. split; [now left|]. intros [H|(s & Hin & _)]; [assumption|].
    now apply elem_of_nil in Hin.
  - pose proof (refs_validateLoop p story n (step :: rest) 0 false a) as H.
    destruct (validateLoop story n 0 (step :: rest) false a) as [a' hasEnding].
    now rewrite refs_push_if.
Qed.

Lemma named_in_app (p : string) (l1 l2 : list (string * list Step)) :
  named_in p (l1 ++ l2) <-> named_in p l1 \/ named_in p l2.
Proof.
  unfold named_in. split.
  - intros (full & steps & step & Hin & H). apply elem_of_app in Hin as [Hin|Hin];
      [left|right]; now exists full, steps, step.
  - intros [(full & steps & step & Hin & H)|(full & steps & step & Hin & H)];
      exists full, steps, step; (split; [|exact H]); apply elem_of_app; tauto.
Qed.

Lemma named_in_nil (p : string) : ~ named_in p [].
Proof. intros (full & steps & step & Hin & _). now apply elem_of_nil in Hin. Qed.

Lemma refs_entries (p : string) (story : Story) (prefix : string)
    (entries : list (string * NodeEntry)) (a : Acc) :
  Forall (fun kv => forall full a',
            p ∈ referencedNodeIds (validateValue story full kv.2 a')
            <-> p ∈ referencedNodeIds a' \/ named_in p (leavesValue full kv.2))
         entries ->
  p ∈ referencedNodeIds
        (foldl (fun a' kv => validateValue story (fullId prefix kv.1) kv.2 a')
               a entries)
  <-> p ∈ referencedNodeIds a
      \/ named_in p (concat (map (fun kv => leavesValue (fullId prefix kv.1) kv.2)
                                 entries)).
Proof.
  intros Hall. revert a. induction Hall as [|kv rest Hkv _ IH]; intros a; cbn.
  - pose proof (named_in_nil p). tauto.
  - rewrite IH, Hkv, named_in_app. tauto.
Qed.

Lemma refs_validateValue (p : string) (story : Story) (value : NodeEntry)
    (full : string) (a : Acc) :
  p ∈ referencedNodeIds (validateValue story full value a)
  <-> p ∈ referencedNodeIds a \/ named_in p (leavesValue full value).
Proof.
  revert full a.
  induction value as [steps|children IH] using NodeEntry_nested_ind;
    intros full a; cbn [validateValue leavesValue].
  - rewrite refs_validateSteps. unfold named_in. split.
    + intros [H|(step & Hin & H)]; [now left|right].
      exists full, steps, step. split; [apply list_elem_of_here|now split].
    + intros [H|(f & s & step & Hin & Hstep & H)]; [now left|right].
      apply list_elem_of_singleton in Hin as [= -> ->]. now exists step.
  - now apply refs_entries.
Qed.

Lemma refs_validateNodes (p : string) (story : Story) (ns : Nodes)
    (prefix : string) (a : Acc) :
  p ∈ referencedNodeIds (validateNodes story ns prefix a)
  <-> p ∈ referencedNodeIds a \/ named_in p (leaves ns prefix).
Proof.
  unfold validateNodes, leaves. apply refs_entries.
  apply Forall_forall. intros kv _ full a'. apply refs_validateValue.
Qed.

Lemma named_in_references (p : string) (ns : Nodes) :
  named_in p (leaves ns "") <-> references ns p /\ p <> "".
Proof.
  unfold named_in, references. split.
  - intros (full & steps & step & Hin & Hstep & Hne & Ht).
    split; [now exists full, steps, step|exact Hne].
  - intros [(full & steps & step & Hin & Hstep & Ht) Hne].
    now exists full, steps, step.
Qed.

Lemma validateStory_tail (story : Story) (ns : Nodes) :
  nodes story = Some ns ->
  exists a,
    (forall p, p ∈ referencedNodeIds a <-> references ns p /\ p <> "") /\
    forall d,
      d ∈ undefinedReferences (collectNodeIds ns "") (referencedNodeIds a)
          ++ unreachableNodes (start story) (collectNodeIds ns "")
               (referencedNodeIds a) ->
      d ∈ validateStory story.
Proof.
  intros Hns. unfold validateStory. rewrite Hns. cbv zeta.
  match goal with
  | |- context [validateNodes story ns "" ?a0] =>
      exists (validateNodes story ns "" a0); split
  end.
  - intros p. rewrite refs_validateNodes, named_in_references. cbn.
    rewrite elem_of_nil. tauto.
  - intros d Hd. apply elem_of_app. now right.
Qed.

(** C6 (amended).  The validator's set of node ids holds the dotted paths
    of the leaves of the tree.  For every non-empty node path that a
    [jump_to], a [conditional_jump] or a choice option names as target and
    that is not the path of a leaf, [validateStory] returns an error that
    the referenced node does not exist; for every path of a leaf that is not
    the start node and that no step names as a non-empty target, it returns
    a warning that the node is unreachable. *)
Theorem validateStory_reports_dangling_and_unreachable_nodes
    (story : Story) (ns : Nodes) (p : string) :
  nodes story = Some ns ->
  (p ∈ collectNodeIds ns "" <-> p ∈ (leaves ns "").*1) /\
  (references ns p -> p <> "" -> p ∉ (leaves ns "").*1 ->
   diag error (ReferencedNodeMissing p) (AtJumpTo p) ∈ validateStory story) /\
  (p ∈ (leaves ns "").*1 -> Some p <> start story ->
   ~ (references ns p /\ p <> "") ->
   diag warning (UnreachableNode p) (AtNode p) ∈ validateStory story).
Proof.
  intros Hns. split; [apply collectNodeIds_leaves|].
  destruct (validateStory_tail story ns Hns) as (a & Hrefs & Htail).
  split.
  - intros Href Hne Hleaf. apply Htail, elem_of_app. left.
    unfold undefinedReferences. apply list_elem_of_omap. exists p. split.
    + now apply Hrefs.
    + rewrite bool_decide_eq_false_2; [reflexivity|].
      now rewrite collectNodeIds_leaves.
  - intros Hleaf Hstart Hno. apply Htail, elem_of_app. right.
    unfold unreachableNodes. apply list_elem_of_omap. exists p. split.
    + now apply collectNodeIds_leaves.
    + rewrite bool_decide_eq_true_2 by exact Hstart.
      rewrite bool_decide_eq_false_2; [reflexivity|].
      intros Hin. now apply Hno, Hrefs.
Qed.

Lemma validateStory_reports_dangling_and_unreachable_nodes_witness :
  diag error (ReferencedNodeMissing "Nowhere") (AtJumpTo "Nowhere")
  ∈ validateStory dangling_story.
Proof.
  destruct (validateStory_reports_dangling_and_unreachable_nodes dangling_story
              [("Start", StepArray [jumpTo "Nowhere"; narration "after"])]
              "Nowhere" eq_refl) as (_ & H & _).
  apply H.
  - exists "Start", [jumpTo "Nowhere"; narration "after"], (jumpTo "Nowhere").
    repeat split; apply list_elem_of_here.
  - discriminate.
  - intros Hin. apply list_elem_of_In in Hin. vm_compute in Hin.
    destruct Hin as [Heq|[]]. discriminate Heq.
Defined.

(** C6 as stated fails: the choice of [blank_target_story] names the empty
    string as target, no leaf of the story has that path, and
    [validateStory] returns no diagnostic at all. *)
Lemma validateStory_ignores_empty_target :
  exists ns,
    nodes blank_target_story = Some ns
    /\ references ns ""
    /\ ~ "" ∈ (leaves ns "").*1
    /\ validateStory blank_target_story = [].
Proof.
  exists [("Start", StepArray [choice "Pick" [option_to "A" (Some "")]])].
  split; [reflexivity|]. split; [|split].
  - exists "Start", [choice "Pick" [option_to "A" (Some "")]],
      (choice "Pick" [option_to "A" (Some "")]).
    repeat split; apply list_elem_of_here.
  - intros Hin. apply list_elem_of_In in Hin. vm_compute in Hin.
    destruct Hin as [Heq|[]]. discriminate Heq.
  - reflexivity.
Qed.

(** *** Dotted paths and the ids of the leaves *)

Lemma split_dot_cons (c : ascii) (s : string) :
  split_dot (String c s)
  = if Ascii.eqb c "."%char then "" :: split_dot s
    else match split_dot s with
         | piece :: pieces => String c piece :: pieces
         | [] => [String c ""]
         end.
Proof. reflexivity. Qed.

Lemma split_dot_nonempty (s : string) : split_dot s <> [].
Proof.
  induction s as [|c s IH]; [discriminate|]. rewrite split_dot_cons.
  destruct (Ascii.eqb c "."); [discriminate|].
  destruct (split_dot s); [contradiction|discriminate].
Qed.

Lemma split_dot_dot_free (k : string) : dot_free k = true -> split_dot k = [k].
Proof.
  induction k as [|c k IH]; [reflexivity|]. cbn [dot_free].
  intros [Hc Hk]%andb_prop. apply negb_true_iff in Hc.
  rewrite split_dot_cons, Hc, (IH Hk). reflexivity.
Qed.

Lemma split_dot_snoc (s k : string) :
  dot_free k = true ->
  split_dot (s +:+ "." +:+ k) = split_dot s ++ [k].
Proof.
  intros Hk. induction s as [|c s IH].
  - change (split_dot (String "." k) = [""] ++ [k]).
    rewrite split_dot_cons. cbn [Ascii.eqb]. now rewrite (split_dot_dot_free k Hk).
  - change (split_dot (String c (s +:+ "." +:+ k)) = split_dot (String c s) ++ [k]).
    rewrite !split_dot_cons, IH.
    destruct (Ascii.eqb c "."); [reflexivity|].
    pose proof (split_dot_nonempty s) as Hne.
    destruct (split_dot s); [contradiction|reflexivity].
Qed.

Lemma join_dot_cons (p : string) (rest : list string) :
  rest <> [] -> join_dot (p :: rest) = p +:+ "." +:+ join_dot rest.
Proof. destruct rest; [contradiction|reflexivity]. Qed.

(** [s.split('.').join('.')] is [s]. *)
Lemma join_split_dot (s : string) : join_dot (split_dot s) = s.
Proof.
  induction s as [|c s IH]; [reflexivity|]. rewrite split_dot_cons.
  pose proof (split_dot_nonempty s) as Hne.
  destruct (Ascii.eqb_spec c "."%char) as [->|Hc].
  - rewrite join_dot_cons by assumption. now rewrite IH.
  - destruct (split_dot s) as [|piece pieces]; [contradiction|].
    destruct pieces as [|q pieces].
    + cbn in *. now rewrite IH.
    + rewrite join_dot_cons by discriminate.
      rewrite join_dot_cons in IH by discriminate. rewrite <- IH. reflexivity.
Qed.

Lemma fullId_nonempty (prefix k : string) : prefix <> "" -> fullId prefix k <> "".
Proof.
  intros Hne. unfold fullId. destruct (String.eqb_spec prefix ""); [contradiction|].
  destruct prefix; [contradiction|discriminate].
Qed.

Lemma fullId_prefixed (prefix k : string) :
  prefix <> "" -> fullId prefix k = prefix +:+ "." +:+ k.
Proof.
  intros Hne. unfold fullId. now destruct (String.eqb_spec prefix "").
Qed.

Lemma good_key_spec (k : string) :
  good_key k = true <-> k <> "" /\ dot_free k = true.
Proof.
  unfold good_key. rewrite andb_true_iff, negb_true_iff.
  destruct (String.eqb_spec k ""); split; intros [H1 H2]; split;
    congruence.
Qed.

Lemma split_dot_extend (full : string) (parts : list string) :
  full <> "" -> Forall (fun k => good_key k = true) parts ->
  split_dot (extend full parts) = split_dot full ++ parts.
Proof.
  intros Hne Hall. revert full Hne.
  induction Hall as [|k rest Hk _ IH]; intros full Hne; cbn.
  - now rewrite app_nil_r.
  - apply good_key_spec in Hk as [_ Hk].
    change (split_dot (extend (fullId full k) rest) = split_dot full ++ k :: rest).
    rewrite IH by now apply fullId_nonempty.
    rewrite (fullId_prefixed _ _ Hne), (split_dot_snoc _ _ Hk).
    now rewrite <- app_assoc.
Qed.

Lemma string_app_assoc (a b c : string) : (a +:+ b) +:+ c = a +:+ (b +:+ c).
Proof.
  induction a as [|x a IH]; [reflexivity|].
  change (String x ((a +:+ b) +:+ c) = String x (a +:+ b +:+ c)).
  now rewrite IH.
Qed.

Lemma extend_join (full : string) (parts : list string) :
  full <> "" -> extend full parts = join_dot (full :: parts).
Proof.
  revert full. induction parts as [|k rest IH]; intros full Hne; [reflexivity|].
  change (extend (fullId full k) rest = join_dot (full :: k :: rest)).
  rewrite IH by now apply fullId_nonempty.
  rewrite (fullId_prefixed _ _ Hne).
  destruct rest as [|k' rest]; [reflexivity|].
  rewrite !join_dot_cons by discriminate.
  now rewrite !string_app_assoc.
Qed.

Lemma get_entry_elem (k : string) (v : NodeEntry) (entries : list (string * NodeEntry)) :
  get_entry k entries = Some v -> (k, v) ∈ entries.
Proof.
  induction entries as [|[k' v'] rest IH]; cbn; [discriminate|].
  destruct (String.eqb_spec k' k) as [->|Hne].
  - intros [= ->]. apply list_elem_of_here.
  - intros H. apply list_elem_of_further. now apply IH.
Qed.

Lemma get_entry_NoDup (k : string) (v : NodeEntry) (entries : list (string * NodeEntry)) :
  NoDup entries.*1 -> (k, v) ∈ entries -> get_entry k entries = Some v.
Proof.
  induction entries as [|[k' v'] rest IH]; cbn; intros Hnd Hin.
  - now apply elem_of_nil in Hin.
  - apply NoDup_cons in Hnd as [Hout Hnd].
    apply elem_of_cons in Hin as [[= -> ->]|Hin].
    + now rewrite String.eqb_refl.
    + destruct (String.eqb_spec k' k) as [->|Hne]; [|now apply IH].
      exfalso. apply Hout. apply list_elem_of_fmap. now exists (k, v).
Qed.

Lemma wf_keys_child (children : list (string * NodeEntry)) (k : string) (v : NodeEntry) :
  wf_keys (NestedGroup children) = true -> (k, v) ∈ children ->
  NoDup children.*1 /\ good_key k = true /\ wf_keys v = true.
Proof.
  cbn [wf_keys]. intros [Hnd Hall]%andb_prop Hin.
  apply bool_decide_eq_true in Hnd. split; [exact Hnd|].
  rewrite forallb_forall in Hall. apply list_elem_of_In in Hin.
  now apply Hall, andb_prop in Hin.
Qed.

Lemma elem_of_leaves_entries (x : string * list Step) (prefix : string)
    (entries : list (string * NodeEntry)) :
  x ∈ concat (map (fun kv => leavesValue (fullId prefix kv.1) kv.2) entries)
  <-> exists k v, (k, v) ∈ entries /\ x ∈ leavesValue (fullId prefix k) v.
Proof.
  rewrite list_elem_of_In, in_concat. split.
  - intros (l & Hl & Hx). apply in_map_iff in Hl as ([k v] & <- & Hkv).
    exists k, v. split; now apply list_elem_of_In.
  - intros (k & v & Hkv & Hx). exists (leavesValue (fullId prefix k) v).
    split; [|now apply list_elem_of_In]. apply in_map_iff. exists (k, v).
    split; [reflexivity|now apply list_elem_of_In].
Qed.

Lemma descend_leaf (value : NodeEntry) (parts : list string) (full : string)
    (steps : list Step) :
  wf_keys value = true -> full <> "" ->
  descend value parts = Some (StepArray steps) ->
  (extend full parts, steps) ∈ leavesValue full value.
Proof.
  revert value full. induction parts as [|k rest IH]; intros value full Hwf Hne; cbn.
  - intros [= ->]. apply list_elem_of_here.
  - destruct value as [|children]; [discriminate|]. cbn [get_prop].
    destruct (get_entry k children) as [v|] eqn:Hget; [|discriminate].
    intros Hd. apply get_entry_elem in Hget.
    destruct (wf_keys_child _ _ _ Hwf Hget) as (_ & _ & Hv).
    cbn [leavesValue]. apply elem_of_leaves_entries. exists k, v.
    split; [exact Hget|]. apply IH; [exact Hv|now apply fullId_nonempty|exact Hd].
Qed.

Lemma leaf_descend (value : NodeEntry) (full p : string) (steps : list Step) :
  wf_keys value = true -> full <> "" ->
  (p, steps) ∈ leavesValue full value ->
  exists parts,
    Forall (fun k => good_key k = true) parts
    /\ descend value parts = Some (StepArray steps)
    /\ p = extend full parts.
Proof.
  revert full. induction value as [steps'|children IH] using NodeEntry_nested_ind;
    intros full Hwf Hne Hin; cbn [leavesValue] in Hin.
  - apply list_elem_of_singleton in Hin as [= -> ->]. now exists [].
  - apply elem_of_leaves_entries in Hin as (k & v & Hkv & Hin).
    destruct (wf_keys_child _ _ _ Hwf Hkv) as (Hnd & Hk & Hv).
    rewrite Forall_forall in IH.
    destruct (IH (k, v) Hkv (fullId full k) Hv (fullId_nonempty _ _ Hne) Hin)
      as (parts & Hparts & Hd & ->).
    exists (k :: parts). split; [now constructor|]. split; [|reflexivity].
    cbn. now rewrite (get_entry_NoDup _ _ _ Hnd Hkv).
Qed.

(** For a tree whose groups have distinct, non-empty, dot-free keys, the
    dotted ids under which the validator lists the leaves are the paths that
    [resolveNode] resolves, each to the steps of that leaf. *)
Lemma leaf_ids_are_the_paths_that_resolve
    (ns : Nodes) (p : string) (steps : list Step) :
  wf_keys (NestedGroup ns) = true ->
  ((p, steps) ∈ leaves ns "" <-> Validator.resolveNode ns p = Some steps).
Proof.
  intros Hwf. unfold Validator.resolveNode. rewrite walk_descend. split.
  - unfold leaves. intros (k & v & Hkv & Hin)%elem_of_leaves_entries.
    destruct (wf_keys_child _ _ _ Hwf Hkv) as (Hnd & Hk & Hv).
    pose proof Hk as [Hne Hdot]%good_key_spec.
    change (fullId "" k) with k in Hin.
    destruct (leaf_descend v k p steps Hv Hne Hin) as (parts & Hparts & Hd & ->).
    rewrite (split_dot_extend _ _ Hne Hparts), (split_dot_dot_free _ Hdot).
    cbn. now rewrite (get_entry_NoDup _ _ _ Hnd Hkv), Hd.
  - pose proof (join_split_dot p) as Hjoin. pose proof (split_dot_nonempty p) as Hparts.
    destruct (split_dot p) as [|k rest]; [contradiction|]. cbn.
    destruct (get_entry k ns) as [v|] eqn:Hget; [|discriminate].
    destruct (descend v rest) as [[steps'|]|] eqn:Hd; try discriminate.
    intros [= ->]. apply get_entry_elem in Hget.
    destruct (wf_keys_child _ _ _ Hwf Hget) as (_ & Hk & Hv).
    apply good_key_spec in Hk as [Hne _].
    unfold leaves. apply elem_of_leaves_entries. exists k, v.
    split; [exact Hget|]. change (fullId "" k) with k.
    rewrite <- Hjoin, <- (extend_join _ _ Hne). now apply descend_leaf.
Qed.

Lemma elem_of_leaves_ids (ns : Nodes) (p : string) :
  p ∈ (leaves ns "").*1 <-> exists steps, (p, steps) ∈ leaves ns "".
Proof.
  rewrite list_elem_of_fmap. split.
  - intros ([q steps] & -> & Hin). now exists steps.
  - intros (steps & Hin). now exists (p, steps).
Qed.

Lemma resolveLoop_unreached (parts rest : list string) (i : nat) (root : NodeEntry) :
  descend root rest = None ->
  exists pathSoFar keys, resolveLoop parts i (Some root) rest = Missing pathSoFar keys.
Proof.
  revert i root. induction rest as [|part rest IH]; intros i root; cbn; [discriminate|].
  destruct (get_prop root part) as [next|]; [apply IH|]. intros _. eauto.
Qed.

(** The resolver of the engine and the resolver of the validator find the
    same step arrays: a path resolves for the one exactly when it resolves
    for the other, and to the same steps. *)
Lemma resolvers_agree (ns : Nodes) (nodeId : string) (steps : list Step) :
  resolve (Some ns) nodeId = Found steps
  <-> Validator.resolveNode ns nodeId = Some steps.
Proof.
  unfold resolve, Validator.resolveNode. rewrite walk_descend.
  cbn [fmap option_fmap option_map].
  destruct (descend (NestedGroup ns) (split_dot nodeId)) as [cur|] eqn:Hd.
  - rewrite (resolveLoop_reached _ _ 0 _ _ Hd).
    destruct cur; split; congruence.
  - destruct (resolveLoop_unreached (split_dot nodeId) _ 0 _ Hd) as (p & k & ->).
    split; discriminate.
Qed.

(** For a tree whose groups have distinct, non-empty, dot-free keys, every
    id that [collectNodeIds] returns is the id of a leaf, and both
    resolvers, that of the validator and that of the engine, resolve it to
    the steps of that leaf. *)
Theorem collected_ids_resolve_to_their_leaves (ns : Nodes) (p : string) :
  wf_keys (NestedGroup ns) = true ->
  p ∈ collectNodeIds ns "" ->
  exists steps,
    (p, steps) ∈ leaves ns ""
    /\ Validator.resolveNode ns p = Some steps
    /\ resolve (Some ns) p = Found steps.
Proof.
  intros Hwf (steps & Hleaf)%collectNodeIds_leaves%elem_of_leaves_ids.
  exists steps. split; [exact Hleaf|].
  apply (leaf_ids_are_the_paths_that_resolve ns p steps Hwf) in Hleaf.
  split; [exact Hleaf|]. now apply resolvers_agree.
Qed.

Lemma collected_ids_resolve_to_their_leaves_witness :
  exists steps,
    ("Park.WithBob", steps)
    ∈ leaves [("Park", NestedGroup [("WithBob", StepArray [StoryFormat.endStory])])] ""
    /\ Validator.resolveNode
         [("Park", NestedGroup [("WithBob", StepArray [StoryFormat.endStory])])]
         "Park.WithBob" = Some steps
    /\ resolve
         (Some [("Park", NestedGroup [("WithBob", StepArray [StoryFormat.endStory])])])
         "Park.WithBob" = Found steps.
Proof.
  apply (collected_ids_resolve_to_their_leaves
           [("Park", NestedGroup [("WithBob", StepArray [StoryFormat.endStory])])]
           "Park.WithBob").
  - reflexivity.
  - apply list_elem_of_In. vm_compute. tauto.
Defined.

(** [resolveNode] of the engine returns what [resolveNode] of the validator
    returns on the nodes of the story: the same step array where the
    validator finds one, leaving the engine as it was, and [null] where the
    validator finds none, after one error on the console and no other
    change. *)
Theorem engine_resolves_what_the_validator_resolves
    (ns : Nodes) (nodeId : string) (e : Engine) :
  nodes (story e) = Some ns ->
  exists e',
    resolveNode nodeId e = Returned (Validator.resolveNode ns nodeId) e'
    /\ (is_Some (Validator.resolveNode ns nodeId) -> e' = e)
    /\ (Validator.resolveNode ns nodeId = None ->
        exists msg, e' = logged (Console LError msg) e).
Proof.
  intros Hns. unfold resolveNode. rewrite bind_gets, Hns.
  destruct (resolve (Some ns) nodeId) as [steps|pathSoFar keys|keys] eqn:Hres.
  - apply resolvers_agree in Hres. rewrite Hres. exists e.
    split; [reflexivity|]. split; [reflexivity|discriminate].
  - destruct (Validator.resolveNode ns nodeId) as [steps|] eqn:Hv.
    + apply resolvers_agree in Hv. congruence.
    + eexists. split; [reflexivity|]. split; [intros [? [=]]|]. intros _. eauto.
  - destruct (Validator.resolveNode ns nodeId) as [steps|] eqn:Hv.
    + apply resolvers_agree in Hv. congruence.
    + eexists. split; [reflexivity|]. split; [intros [? [=]]|]. intros _. eauto.
Qed.

Lemma engine_resolves_what_the_validator_resolves_witness :
  exists e',
    resolveNode "Nowhere" (initial dangling_story heap0) = Returned None e'
    /\ exists msg, e' = logged (Console LError msg) (initial dangling_story heap0).
Proof.
  destruct (engine_resolves_what_the_validator_resolves
              [("Start", StepArray [jumpTo "Nowhere"; narration "after"])]
              "Nowhere" (initial dangling_story heap0) eq_refl)
    as (e' & Hrun & _ & Hlog).
  exists e'. split; [exact Hrun|]. now apply Hlog.
Defined.

(** *** The diagnostics of [validateStory], node by node *)

Lemma errors_push (d : Diag.t) (a : Acc) : errors (push d a) = errors a ++ [d].
Proof. reflexivity. Qed.

Lemma errors_push_if (c : bool) (d : Diag.t) (a : Acc) :
  errors (push_if c d a) = errors a ++ (if c then [d] else []).
Proof. destruct c; cbn; [reflexivity|now rewrite app_nil_r]. Qed.

Lemma errors_reference (n : string) (a : Acc) : errors (reference n a) = errors a.
Proof. reflexivity. Qed.

Lemma errors_validateOptions (n : string) (i optIdx : nat)
    (opts : list ChoiceOption) (a : Acc) :
  errors (validateOptions n i optIdx opts a)
  = errors a ++ errors (validateOptions n i optIdx opts empty_acc).
Proof.
  revert optIdx a. induction opts as [|o rest IH]; intros optIdx a; cbn [validateOptions].
  - cbn. now rewrite app_nil_r.
  - rewrite IH. rewrite (IH _ (validateOption n i optIdx o empty_acc)).
    rewrite app_assoc. f_equal. unfold validateOption. cbv zeta.
    destruct (target o) as [t|]; [destruct (truthy (Some t))|];
      rewrite ?errors_reference, !errors_push_if; reflexivity.
Qed.

Ltac errors_norm :=
  cbn [negb]; cbv beta iota;
  repeat first
    [ rewrite errors_push | rewrite errors_push_if | rewrite errors_reference ];
  cbn [errors empty_acc];
  repeat first [ rewrite <- app_assoc | rewrite app_nil_l | rewrite app_nil_r ];
  try reflexivity.

Lemma errors_validateStep (story : Story) (n : string) (i : nat) (step : Step)
    (a : Acc) :
  errors (validateStep story n i step a).1 = errors a ++ stepDiags story n i step.
Proof.
  unfold stepDiags, validateStep. cbv zeta.
  destruct (type step) as [[]|]; cbn [fst].
  all: try solve [errors_norm].
  - destruct (id step) as [placeId|]; [destruct (truthy (Some placeId))|];
      errors_norm.
  - destruct (id step) as [charId|]; [destruct (truthy (Some charId))|];
      [destruct (characters story !! charId); [destruct (pose step)|] | |];
      errors_norm.
  - destruct (who step) as [w|]; [destruct (truthy (Some w))|]; errors_norm.
  - destruct (value step) as [[]|]; errors_norm.
  - destruct (nodeId step) as [m|]; [destruct (truthy (Some m))|]; errors_norm.
  - destruct (thenNodeId step) as [m|]; [destruct (truthy (Some m))|];
      (destruct (elseNodeId step) as [m'|]; [destruct (truthy (Some m'))|]);
      errors_norm.
  - destruct (options step) as [opts|]; [|errors_norm].
    rewrite errors_validateOptions.
    rewrite (errors_validateOptions _ _ _ _ (push_if _ _ (push_if _ _ empty_acc))).
    errors_norm.
Qed.

Lemma ending_validateStep (story : Story) (n : string) (i : nat) (step : Step)
    (a : Acc) :
  (validateStep story n i step a).2 = is_ending step.
Proof.
  unfold validateStep, is_ending. cbv zeta. now destruct (type step) as [[]|].
Qed.

Lemma validateLoop_decomposes (story : Story) (n : string) (steps : list Step)
    (i : nat) (hasEnding : bool) (a : Acc) :
  errors (validateLoop story n i steps hasEnding a).1
  = errors a ++ loopDiags story n i steps
  /\ (validateLoop story n i steps hasEnding a).2
     = hasEnding || existsb is_ending steps.
Proof.
  revert i hasEnding a. induction steps as [|step rest IH]; intros i hasEnding a;
    cbn [validateLoop loopDiags existsb].
  - cbn. now rewrite app_nil_r, orb_false_r.
  - pose proof (errors_validateStep story n i step a) as He.
    pose proof (ending_validateStep story n i step a) as Hend.
    destruct (validateStep story n i step a) as [a' ending]. cbn [fst snd] in *.
    destruct (IH (S i) (hasEnding || ending) a') as [IHe IHend].
    rewrite IHe, IHend, He, Hend. split; [now rewrite app_assoc|].
    now rewrite orb_assoc.
Qed.

Lemma errors_validateSteps (story : Story) (steps : list Step) (n : string)
    (a : Acc) :
  errors (validateSteps story steps n a) = errors a ++ nodeDiags story (n, steps).
Proof.
  unfold validateSteps, nodeDiags. cbn [fst snd].
  destruct steps as [|step rest]; [reflexivity|].
  destruct (validateLoop_decomposes story n (step :: rest) 0 false a) as [He Hend].
  destruct (validateLoop story n 0 (step :: rest) false a) as [a' hasEnding].
  cbn [fst snd] in *. rewrite errors_push_if, He, Hend. cbn [orb].
  rewrite <- app_assoc. now destruct (existsb is_ending (step :: rest)).
Qed.

Lemma errors_entries (story : Story) (prefix : string)
    (entries : list (string * NodeEntry)) (a : Acc) :
  Forall (fun kv => forall full a',
            errors (validateValue story full kv.2 a')
            = errors a' ++ concat (map (nodeDiags story) (leavesValue full kv.2)))
         entries ->
  errors (foldl (fun a' kv => validateValue story (fullId prefix kv.1) kv.2 a')
                a entries)
  = errors a
    ++ concat (map (nodeDiags story)
                   (concat (map (fun kv => leavesValue (fullId prefix kv.1) kv.2)
                                entries))).
Proof.
  intros Hall. revert a. induction Hall as [|kv rest Hkv _ IH]; intros a; cbn.
  - now rewrite app_nil_r.
  - rewrite IH, Hkv, map_app, concat_app. now rewrite app_assoc.
Qed.

Lemma errors_validateValue (story : Story) (value : NodeEntry) (full : string)
    (a : Acc) :
  errors (validateValue story full value a)
  = errors a ++ concat (map (nodeDiags story) (leavesValue full value)).
Proof.
  revert full a.
  induction value as [steps|children IH] using NodeEntry_nested_ind;
    intros full a; cbn [validateValue leavesValue].
  - rewrite errors_validateSteps. cbn. now rewrite app_nil_r.
  - now apply errors_entries.
Qed.

Lemma errors_validateNodes (story : Story) (ns : Nodes) (prefix : string) (a : Acc) :
  errors (validateNodes story ns prefix a)
  = errors a ++ concat (map (nodeDiags story) (leaves ns prefix)).
Proof.
  unfold validateNodes, leaves. apply errors_entries.
  apply Forall_forall. intros kv _ full a'. apply errors_validateValue.
Qed.

Lemma validateStory_app (story : Story) (ns : Nodes) :
  nodes story = Some ns ->
  exists refs,
    (forall p, p ∈ refs <-> references ns p /\ p <> "") /\
    validateStory story
    = header story ns
      ++ concat (map (nodeDiags story) (leaves ns ""))
      ++ undefinedReferences (collectNodeIds ns "") refs
      ++ unreachableNodes (start story) (collectNodeIds ns "") refs.
Proof.
  intros Hns. unfold validateStory. rewrite Hns. cbv zeta.
  match goal with
  | |- context [validateNodes story ns "" ?a0] =>
      exists (referencedNodeIds (validateNodes story ns "" a0)); split
  end.
  - intros p. rewrite refs_validateNodes, named_in_references. cbn.
    rewrite elem_of_nil. tauto.
  - rewrite errors_validateNodes. cbn [errors]. unfold header.
    rewrite <- !app_assoc. reflexivity.
Qed.

(** *** The referenced ids, in order *)

Lemma add_ids_app (l1 l2 ids : list string) :
  add_ids (l1 ++ l2) ids = add_ids l2 (add_ids l1 ids).
Proof. apply foldl_app. Qed.

Lemma NoDup_set_add (n : string) (ids : list string) :
  NoDup ids -> NoDup (set_add n ids).
Proof.
  intros Hnd. unfold set_add. destruct (decide (n ∈ ids)) as [Hin|Hout]; [exact Hnd|].
  apply NoDup_app. split; [exact Hnd|]. split; [|apply NoDup_singleton].
  intros x Hx ->%list_elem_of_singleton. contradiction.
Qed.

Lemma NoDup_add_ids (l ids : list string) : NoDup ids -> NoDup (add_ids l ids).
Proof.
  revert ids. induction l as [|n l IH]; intros ids Hnd; cbn; [exact Hnd|].
  apply IH. now apply NoDup_set_add.
Qed.

Lemma order_reference (n : string) (a : Acc) :
  referencedNodeIds (reference n a) = set_add n (referencedNodeIds a).
Proof. reflexivity. Qed.

Lemma order_optional_target (t : option string) (a : Acc) :
  referencedNodeIds
    match t with
    | Some n => if truthy (Some n) then reference n a else a
    | None => a
    end
  = add_ids (wanted t) (referencedNodeIds a).
Proof.
  unfold wanted. destruct t as [n|]; [|reflexivity].
  now destruct (truthy (Some n)).
Qed.

Lemma order_validateOptions (nodeId : string) (i optIdx : nat)
    (opts : list ChoiceOption) (a : Acc) :
  referencedNodeIds (validateOptions nodeId i optIdx opts a)
  = add_ids (concat (map wanted (target <$> opts))) (referencedNodeIds a).
Proof.
  revert optIdx a. induction opts as [|o rest IH]; intros optIdx a;
    cbn [validateOptions]; [reflexivity|].
  rewrite IH. unfold validateOption. cbv zeta.
  rewrite order_optional_target, refs_push_if.
  cbn [fmap list_fmap map concat]. now rewrite add_ids_app.
Qed.

Lemma order_validateStep (story : Story) (n : string) (i : nat)
    (step : Step) (a : Acc) :
  referencedNodeIds (validateStep story n i step a).1
  = add_ids (named step) (referencedNodeIds a).
Proof.
  unfold validateStep, named, targets. cbv zeta.
  destruct (type step) as [[]|]; cbn [fst map concat].
  all: try (repeat first [rewrite refs_push_if | rewrite refs_push]; reflexivity).
  - (* background *)
    destruct (id step) as [placeId|]; [destruct (negb _)|];
      repeat first [rewrite refs_push_if | rewrite refs_push]; reflexivity.
  - (* show_character *)
    rewrite !refs_push_if.
    destruct (id step) as [charId|]; [destruct (negb _)|];
      [| destruct (characters story !! charId); [destruct (pose step)|] |];
      repeat first [rewrite refs_push_if | rewrite refs_push]; reflexivity.
  - (* dialogue *)
    rewrite refs_push_if.
    destruct (who step) as [w|]; [destruct (negb _)|];
      repeat first [rewrite refs_push_if | rewrite refs_push]; reflexivity.
  - (* set_variable *)
    destruct (value step) as [[]|];
      repeat first [rewrite refs_push_if | rewrite refs_push]; reflexivity.
  - (* jump_to *)
    rewrite app_nil_r. unfold wanted.
    destruct (nodeId step) as [m|]; [destruct (truthy (Some m))|];
      rewrite ?refs_push; reflexivity.
  - (* conditional_jump *)
    rewrite app_nil_r, add_ids_app, order_optional_target. f_equal.
    unfold wanted.
    destruct (thenNodeId step) as [m|]; [destruct (truthy (Some m))|];
      rewrite ?order_reference, ?refs_push, ?refs_push_if; reflexivity.
  - (* choice *)
    destruct (options step) as [opts|]; cbn [default].
    + now rewrite order_validateOptions, !refs_push_if.
    + now rewrite refs_push, refs_push_if.
Qed.

Lemma order_validateLoop (story : Story) (n : string) (steps : list Step)
    (i : nat) (hasEnding : bool) (a : Acc) :
  referencedNodeIds (validateLoop story n i steps hasEnding a).1
  = add_ids (concat (map named steps)) (referencedNodeIds a).
Proof.
  revert i hasEnding a. induction steps as [|step rest IH]; intros i hasEnding a;
    cbn [validateLoop]; [reflexivity|].
  pose proof (order_validateStep story n i step a) as Hstep.
  destruct (validateStep story n i step a) as [a' ending]. cbn [fst] in Hstep.
  rewrite IH, Hstep. cbn [map concat]. now rewrite add_ids_app.
Qed.

Lemma order_validateSteps (story : Story) (steps : list Step) (n : string)
    (a : Acc) :
  referencedNodeIds (validateSteps story steps n a)
  = add_ids (concat (map named steps)) (referencedNodeIds a).
Proof.
  unfold validateSteps. destruct steps as [|step rest]; [reflexivity|].
  pose proof (order_validateLoop story n (step :: rest) 0 false a) as H.
  destruct (validateLoop story n 0 (step :: rest) false a) as [a' hasEnding].
  now rewrite refs_push_if.
Qed.

Lemma order_entries (story : Story) (prefix : string)
    (entries : list (string * NodeEntry)) (a : Acc) :
  Forall (fun kv => forall full a',
            referencedNodeIds (validateValue story full kv.2 a')
            = add_ids (concat (map (fun leaf => concat (map named leaf.2))
                                   (leavesValue full kv.2)))
                      (referencedNodeIds a'))
         entries ->
  referencedNodeIds
    (foldl (fun a' kv => validateValue story (fullId prefix kv.1) kv.2 a')
           a entries)
  = add_ids
      (concat (map (fun leaf => concat (map named leaf.2))
                   (concat (map (fun kv => leavesValue (fullId prefix kv.1) kv.2)
                                entries))))
      (referencedNodeIds a).
Proof.
  intros Hall. revert a. induction Hall as [|kv rest Hkv _ IH]; intros a;
    cbn [foldl map concat]; [reflexivity|].
  rewrite IH, Hkv, map_app, concat_app. now rewrite add_ids_app.
Qed.

Lemma order_validateValue (story : Story) (value : NodeEntry) (full : string)
    (a : Acc) :
  referencedNodeIds (validateValue story full value a)
  = add_ids (concat (map (fun leaf => concat (map named leaf.2))
                         (leavesValue full value)))
            (referencedNodeIds a).
Proof.
  revert full a.
  induction value as [steps|children IH] using NodeEntry_nested_ind;
    intros full a; cbn [validateValue leavesValue].
  - rewrite order_validateSteps. cbn. now rewrite app_nil_r.
  - now apply order_entries.
Qed.

Lemma order_validateNodes (story : Story) (ns : Nodes) (prefix : string)
    (a : Acc) :
  referencedNodeIds (validateNodes story ns prefix a)
  = add_ids (concat (map (fun leaf => concat (map named leaf.2))
                         (leaves ns prefix)))
            (referencedNodeIds a).
Proof.
  unfold validateNodes, leaves. apply order_entries.
  apply Forall_forall. intros kv _ full a'. apply order_validateValue.
Qed.

Lemma NoDup_collect (entries : list (string * NodeEntry)) (prefix : string)
    (ids : list string) :
  NoDup ids ->
  NoDup (foldl (fun ids kv =>
                  foldl (fun ids' i => set_add i ids') ids
                        (collectValue (fullId prefix kv.1) kv.2)) ids entries).
Proof.
  revert ids. induction entries as [|kv rest IH]; intros ids Hnd; cbn; [exact Hnd|].
  apply IH. now apply (NoDup_add_ids _ ids).
Qed.



(** *** What the diagnostics of a step say *)

Lemma Forall_errors_push (Q : Diag.t -> Prop) (d : Diag.t) (a : Acc) :
  Q d -> Forall Q (errors a) -> Forall Q (errors (push d a)).
Proof. intros Hd Ha. cbn. apply Forall_app. split; [exact Ha|now constructor]. Qed.

Lemma Forall_errors_push_if (Q : Diag.t -> Prop) (c : bool) (d : Diag.t) (a : Acc) :
  (c = true -> Q d) -> Forall Q (errors a) -> Forall Q (errors (push_if c d a)).
Proof. destruct c; intros Hd Ha; [apply Forall_errors_push; auto|exact Ha]. Qed.

Lemma Forall_errors_validateOptions (Q : Diag.t -> Prop) (n : string) (i : nat)
    (opts : list ChoiceOption) (optIdx : nat) (a : Acc) :
  (forall k, Q (diag error (ChoiceOptionMissingLabel k) (AtOption n i k))) ->
  Forall Q (errors a) ->
  Forall Q (errors (validateOptions n i optIdx opts a)).
Proof.
  intros HQ. revert optIdx a.
  induction opts as [|o rest IH]; intros optIdx a Ha; cbn [validateOptions];
    [exact Ha|].
  apply IH. unfold validateOption. cbv zeta.
  destruct (target o) as [t|]; [destruct (truthy (Some t))|];
    rewrite ?errors_reference; apply Forall_errors_push_if; auto.
Qed.

Ltac pushed :=
  repeat match goal with
    | |- Forall _ (errors empty_acc) => constructor
    | |- Forall _ (errors (push_if _ _ _)) => apply Forall_errors_push_if; [intros ?|]
    | |- Forall _ (errors (push _ _)) => apply Forall_errors_push
    | |- Forall _ (errors (reference _ _)) => rewrite errors_reference
    | |- Forall _ (errors (validateOptions _ _ _ _ _)) =>
        apply Forall_errors_validateOptions; [intros ?|]
    | |- Forall _ (errors (match ?x with _ => _ end)) => destruct x eqn:?
    end.

Lemma stepDiags_location (story : Story) (n : string) (i : nat) (step : Step) :
  Forall (fun d => Diag.location d = Some (AtStep n i)
                   \/ exists k, Diag.location d = Some (AtOption n i k))
         (stepDiags story n i step).
Proof.
  unfold stepDiags, validateStep. cbv zeta.
  destruct (type step) as [[]|]; cbn [fst]; pushed;
    first [now left | right; eexists; reflexivity].
Qed.

Lemma elem_of_loopDiags (story : Story) (n : string) (steps : list Step) (j : nat)
    (d : Diag.t) :
  d ∈ loopDiags story n j steps
  <-> exists i step, steps !! i = Some step /\ d ∈ stepDiags story n (j + i) step.
Proof.
  revert j. induction steps as [|s rest IH]; intros j; cbn [loopDiags].
  - rewrite elem_of_nil. split; [tauto|]. now intros (i & step & H & _).
  - rewrite elem_of_app, IH. split.
    + intros [H|(i & step & Hi & H)].
      * exists 0, s. now rewrite Nat.add_0_r.
      * exists (S i), step. split; [exact Hi|]. now rewrite Nat.add_succ_r.
    + intros ([|i] & step & Hi & H).
      * left. cbn in Hi. injection Hi as ->. now rewrite Nat.add_0_r in H.
      * right. exists i, step. split; [exact Hi|]. now rewrite Nat.add_succ_r in H.
Qed.

Lemma elem_of_nodeDiags (story : Story) (n : string) (steps : list Step) (d : Diag.t) :
  d ∈ nodeDiags story (n, steps)
  <-> (steps = [] /\ d = diag warning (EmptyNode n) (AtNode n))
      \/ (exists i step, steps !! i = Some step /\ d ∈ stepDiags story n i step)
      \/ (steps <> [] /\ existsb is_ending steps = false
          /\ d = diag warning (NoEnding n) (AtNode n)).
Proof.
  unfold nodeDiags. cbn [fst snd]. destruct steps as [|s rest].
  - rewrite list_elem_of_singleton. split; [now left|].
    intros [[_ H]|[(i & step & Hi & _)|[H _]]]; [exact H|discriminate|contradiction].
  - rewrite elem_of_app, (elem_of_loopDiags story n (s :: rest) 0 d). split.
    + intros [H|H]; [now right; left|].
      destruct (existsb is_ending (s :: rest)); [now apply elem_of_nil in H|].
      apply list_elem_of_singleton in H. right. right. now repeat split.
    + intros [[H _]|[H|(_ & He & ->)]]; [discriminate|now left|].
      right. rewrite He. apply list_elem_of_here.
Qed.

Lemma header_location (story : Story) (ns : Nodes) (d : Diag.t) :
  d ∈ header story ns ->
  Diag.location d = None \/ Diag.location d = Some AtStoryStart.
Proof.
  unfold header. intros H.
  apply elem_of_app in H as [H|H]; [|apply elem_of_app in H as [H|H]].
  - destruct (truthy (start story)); [now apply elem_of_nil in H|].
    apply list_elem_of_singleton in H as ->. now left.
  - destruct (bool_decide _); [now apply elem_of_nil in H|].
    apply list_elem_of_singleton in H as ->. now left.
  - destruct (start story) as [startId|]; [|now apply elem_of_nil in H].
    destruct (_ && _); [|now apply elem_of_nil in H].
    apply list_elem_of_singleton in H as ->. now right.
Qed.

Lemma elem_of_undefinedReferences (ids refs : list string) (d : Diag.t) :
  d ∈ undefinedReferences ids refs
  <-> exists p, p ∈ refs /\ (p ∉ ids)
                /\ d = diag error (ReferencedNodeMissing p) (AtJumpTo p).
Proof.
  unfold undefinedReferences. rewrite list_elem_of_omap. split.
  - intros (p & Hp & H). exists p. split; [exact Hp|].
    destruct (bool_decide (p ∈ ids)) eqn:Hin; [discriminate|].
    apply bool_decide_eq_false in Hin. injection H as <-. now split.
  - intros (p & Hp & Hout & ->). exists p. split; [exact Hp|].
    now rewrite bool_decide_eq_false_2.
Qed.

Lemma elem_of_unreachableNodes (startId : option string) (ids refs : list string)
    (d : Diag.t) :
  d ∈ unreachableNodes startId ids refs
  <-> exists p, p ∈ ids /\ Some p <> startId /\ (p ∉ refs)
                /\ d = diag warning (UnreachableNode p) (AtNode p).
Proof.
  unfold unreachableNodes. rewrite list_elem_of_omap. split.
  - intros (p & Hp & H). exists p. split; [exact Hp|].
    destruct (bool_decide (Some p ≠ startId)) eqn:Hs; [|discriminate].
    destruct (bool_decide (p ∈ refs)) eqn:Hr; [discriminate|].
    apply bool_decide_eq_true in Hs. apply bool_decide_eq_false in Hr.
    injection H as <-. now repeat split.
  - intros (p & Hp & Hs & Hr & ->). exists p. split; [exact Hp|].
    now rewrite bool_decide_eq_true_2, bool_decide_eq_false_2.
Qed.

Lemma elem_of_concat_map {A B : Type} (f : A -> list B) (l : list A) (y : B) :
  y ∈ concat (map f l) <-> exists x, x ∈ l /\ y ∈ f x.
Proof.
  rewrite list_elem_of_In, in_concat. split.
  - intros (ys & Hys & Hy). apply in_map_iff in Hys as (x & <- & Hx).
    exists x. split; now apply list_elem_of_In.
  - intros (x & Hx & Hy). exists (f x). split; [|now apply list_elem_of_In].
    apply in_map_iff. exists x. split; [reflexivity|now apply list_elem_of_In].
Qed.

(** Where a diagnostic of [validateStory] comes from. *)
Lemma elem_of_validateStory (story : Story) (ns : Nodes) :
  nodes story = Some ns ->
  exists refs,
    (forall p, p ∈ refs <-> references ns p /\ p <> "") /\
    forall d,
      d ∈ validateStory story
      <-> d ∈ header story ns
          \/ (exists n steps, (n, steps) ∈ leaves ns ""
                              /\ d ∈ nodeDiags story (n, steps))
          \/ d ∈ undefinedReferences (collectNodeIds ns "") refs
          \/ d ∈ unreachableNodes (start story) (collectNodeIds ns "") refs.
Proof.
  intros Hns. destruct (validateStory_app story ns Hns) as (refs & Hrefs & ->).
  exists refs. split; [exact Hrefs|]. intros d.
  rewrite !elem_of_app, elem_of_concat_map. split.
  - intros [H|[([n steps] & Hl & H)|H]]; [now left| |tauto].
    right. left. now exists n, steps.
  - intros [H|[(n & steps & Hl & H)|H]]; [now left| |tauto].
    right. left. now exists (n, steps).
Qed.

(** [validateStory] warns that a node will stop abruptly exactly for the
    leaves that are not empty and hold no [jump_to], [conditional_jump],
    [choice] or [end_story] step at any index, wherever in the node such a
    step stands; and it warns that a node is empty exactly for the leaves
    without steps. *)
Theorem validateStory_node_warnings (story : Story) (ns : Nodes) (n : string) :
  nodes story = Some ns ->
  (diag warning (NoEnding n) (AtNode n) ∈ validateStory story
   <-> exists steps, (n, steps) ∈ leaves ns "" /\ steps <> []
                     /\ existsb is_ending steps = false) /\
  (diag warning (EmptyNode n) (AtNode n) ∈ validateStory story
   <-> (n, []) ∈ leaves ns "").
Proof.
  intros Hns. destruct (elem_of_validateStory story ns Hns) as (refs & _ & Hin).
  split; rewrite Hin; (split; [intros [H|[(m & steps & Hl & H)|[H|H]]]|]).
  - apply header_location in H as [H|H]; discriminate.
  - apply elem_of_nodeDiags in H as [[_ H]|[(i & step & _ & H)|(Hne & He & H)]].
    + discriminate.
    + pose proof (stepDiags_location story m i step) as Hloc.
      rewrite Forall_forall in Hloc. destruct (Hloc _ H) as [Hl'|(k & Hl')]; discriminate.
    + injection H as <-. now exists steps.
  - apply elem_of_undefinedReferences in H as (p & _ & _ & H). discriminate.
  - apply elem_of_unreachableNodes in H as (p & _ & _ & _ & H). discriminate.
  - intros (steps & Hl & Hne & He). right. left. exists n, steps.
    split; [exact Hl|]. apply elem_of_nodeDiags. right. right. now repeat split.
  - apply header_location in H as [H|H]; discriminate.
  - apply elem_of_nodeDiags in H as [[-> H]|[(i & step & _ & H)|(Hne & He & H)]].
    + injection H as <-. exact Hl.
    + pose proof (stepDiags_location story m i step) as Hloc.
      rewrite Forall_forall in Hloc. destruct (Hloc _ H) as [Hl'|(k & Hl')]; discriminate.
    + discriminate.
  - apply elem_of_undefinedReferences in H as (p & _ & _ & H). discriminate.
  - apply elem_of_unreachableNodes in H as (p & _ & _ & _ & H). discriminate.
  - intros Hl. right. left. exists n, []. split; [exact Hl|].
    apply elem_of_nodeDiags. now left.
Qed.

Lemma validateStory_node_warnings_witness :
  diag warning (NoEnding "End") (AtNode "End") ∈ validateStory trailing_story
  /\ ~ diag warning (NoEnding "Start") (AtNode "Start") ∈ validateStory trailing_story.
Proof.
  destruct (validateStory_node_warnings trailing_story
              [("Start", StepArray [jumpTo "End"; narration "tail"]);
               ("End", StepArray [narration "bye"])] "End" eq_refl) as [[_ H] _].
  split.
  - apply H. exists [narration "bye"]. split; [|split; [discriminate|reflexivity]].
    apply list_elem_of_further, list_elem_of_here.
  - intros Hin. apply list_elem_of_In in Hin. vm_compute in Hin.
    destruct Hin as [Heq|[]]. discriminate Heq.
Defined.

Lemma elem_of_validateStory_at_step
    (story : Story) (ns : Nodes) (n : string) (i : nat) (d : Diag.t) :
  nodes story = Some ns ->
  (d ∈ validateStory story
   /\ (Diag.location d = Some (AtStep n i)
       \/ exists k, Diag.location d = Some (AtOption n i k)))
  <-> exists steps step,
        (n, steps) ∈ leaves ns "" /\ steps !! i = Some step
        /\ d ∈ stepDiags story n i step.
Proof.
  intros Hns. destruct (elem_of_validateStory story ns Hns) as (refs & _ & Hin).
  rewrite Hin. split.
  - intros [[H|[(m & steps & Hl & H)|[H|H]]] Hloc].
    + apply header_location in H as [H|H]; rewrite H in Hloc;
        destruct Hloc as [Hloc|(k & Hloc)]; discriminate.
    + apply elem_of_nodeDiags in H as [[_ ->]|[(j & step & Hj & H)|(_ & _ & ->)]].
      * destruct Hloc as [Hloc|(k & Hloc)]; discriminate.
      * pose proof (stepDiags_location story m j step) as Hall.
        rewrite Forall_forall in Hall. specialize (Hall _ H).
        assert (m = n /\ j = i) as [-> ->].
        { destruct Hall as [Ha|(k & Ha)]; rewrite Ha in Hloc;
            destruct Hloc as [Hloc|(k' & Hloc)];
            first [discriminate | injection Hloc; intros; subst; now split]. }
        now exists steps, step.
      * destruct Hloc as [Hloc|(k & Hloc)]; discriminate.
    + apply elem_of_undefinedReferences in H as (p & _ & _ & ->).
      destruct Hloc as [Hloc|(k & Hloc)]; discriminate.
    + apply elem_of_unreachableNodes in H as (p & _ & _ & _ & ->).
      destruct Hloc as [Hloc|(k & Hloc)]; discriminate.
  - intros (steps & step & Hl & Hi & H). split.
    + right. left. exists n, steps. split; [exact Hl|].
      apply elem_of_nodeDiags. right. left. now exists i, step.
    + pose proof (stepDiags_location story n i step) as Hall.
      rewrite Forall_forall in Hall. now apply Hall.
Qed.



Lemma stepDiags_message (story : Story) (n : string) (i : nat) (step : Step)
    (Q : Diag.t -> Prop) (d : Diag.t) :
  Forall Q (stepDiags story n i step) -> d ∈ stepDiags story n i step -> Q d.
Proof. intros Hall Hd. rewrite Forall_forall in Hall. now apply Hall. Qed.

Lemma missing_value_diag (story : Story) (n : string) (i : nat) (step : Step) :
  diag error SetVariableMissingValue (AtStep n i) ∈ stepDiags story n i step
  <-> type step = Some StepType.set_variable /\ value step = Literal VUndefined.
Proof.
  split.
  - intros Hd.
    refine (stepDiags_message story n i step
              (fun d => Diag.message d = SetVariableMissingValue ->
                        type step = Some StepType.set_variable
                        /\ value step = Literal VUndefined) _ _ Hd eq_refl).
    unfold stepDiags, validateStep. cbv zeta.
    destruct (type step) as [[]|] eqn:Hty; cbn [fst]; pushed;
      cbn; intros; first [discriminate | now split].
  - intros [Hty Hv]. unfold stepDiags, validateStep. cbv zeta.
    rewrite Hty, Hv. cbn [fst]. rewrite errors_push. apply elem_of_app. right.
    apply list_elem_of_here.
Qed.

Lemma missing_nodeId_diag (story : Story) (n : string) (i : nat) (step : Step) :
  diag error JumpToMissingNodeId (AtStep n i) ∈ stepDiags story n i step
  <-> type step = Some StepType.jump_to /\ truthy (nodeId step) = false.
Proof.
  split.
  - intros Hd.
    refine (stepDiags_message story n i step
              (fun d => Diag.message d = JumpToMissingNodeId ->
                        type step = Some StepType.jump_to
                        /\ truthy (nodeId step) = false) _ _ Hd eq_refl).
    unfold stepDiags, validateStep. cbv zeta.
    destruct (type step) as [[]|] eqn:Hty; cbn [fst]; pushed;
      cbn; intros; first [discriminate | split; congruence].
  - intros [Hty Hn]. unfold stepDiags, validateStep. cbv zeta.
    rewrite Hty. cbn [fst].
    destruct (nodeId step) as [m|]; [rewrite Hn|]; apply list_elem_of_here.
Qed.

(** [validateStory] reports a [set_variable] step as missing its value
    exactly when the value is [undefined]: a value that is [false], [0],
    the empty string or [null] counts as present. *)
Theorem missing_value_reported_for_undefined_only
    (story : Story) (ns : Nodes) (n : string) (i : nat) :
  nodes story = Some ns ->
  (diag error SetVariableMissingValue (AtStep n i) ∈ validateStory story
   <-> exists steps step,
         (n, steps) ∈ leaves ns "" /\ steps !! i = Some step
         /\ type step = Some StepType.set_variable
         /\ value step = Literal VUndefined).
Proof.
  intros Hns.
  pose proof (elem_of_validateStory_at_step story ns n i
                (diag error SetVariableMissingValue (AtStep n i)) Hns) as Hplace.
  split.
  - intros Hin. destruct Hplace as [Hplace _].
    destruct Hplace as (steps & step & Hl & Hi & Hd); [split; [exact Hin|now left]|].
    exists steps, step. apply missing_value_diag in Hd. tauto.
  - intros (steps & step & Hl & Hi & Hty & Hv). apply Hplace.
    exists steps, step. split; [exact Hl|]. split; [exact Hi|].
    now apply missing_value_diag.
Qed.

Lemma missing_value_reported_for_undefined_only_witness :
  diag error SetVariableMissingValue (AtStep "Start" 1) ∈ validateStory valueless_story
  /\ ~ diag error SetVariableMissingValue (AtStep "Start" 0)
       ∈ validateStory valueless_story.
Proof.
  split.
  - apply (missing_value_reported_for_undefined_only valueless_story
             [("Start", StepArray [StoryFormat.setVariable "seen" (Literal (VBool false));
                                   StoryFormat.setVariable "lost" (Literal VUndefined);
                                   StoryFormat.endStory])] "Start" 1 eq_refl).
    exists [StoryFormat.setVariable "seen" (Literal (VBool false));
            StoryFormat.setVariable "lost" (Literal VUndefined);
            StoryFormat.endStory],
      (StoryFormat.setVariable "lost" (Literal VUndefined)).
    split; [apply list_elem_of_here|]. now repeat split.
  - intros Hin. apply list_elem_of_In in Hin. vm_compute in Hin.
    destruct Hin as [Heq|[]]. discriminate Heq.
Defined.

(** *** Invariants of the engine *)

Lemma Keeps_ret {A : Type} (P : Engine -> Prop) (a : A) : Keeps P (ret a).
Proof. now intros e. Qed.

Lemma Keeps_throw {A : Type} (P : Engine -> Prop) (err : Error) : Keeps P (@throw A err).
Proof. now intros e. Qed.

Lemma Keeps_gets {A : Type} (P : Engine -> Prop) (f : Engine -> A) : Keeps P (gets f).
Proof. now intros e. Qed.

Lemma Keeps_modify (P : Engine -> Prop) (f : Engine -> Engine) :
  (forall e, P e -> P (f e)) -> Keeps P (modify f).
Proof. intros H e. apply H. Qed.

Lemma Keeps_emit (P : Engine -> Prop) (ev : Event) :
  (forall e, P e -> P (logged ev e)) -> Keeps P (emit ev).
Proof. intros H e. apply H. Qed.

Lemma Keeps_bind {A B : Type} (P : Engine -> Prop) (m : M A) (k : A -> M B) :
  Keeps P m -> (forall a, Keeps P (k a)) -> Keeps P (bind m k).
Proof.
  intros Hm Hk e He. specialize (Hm e He). unfold bind.
  destruct (m e) as [a e'|err e'|e']; cbn in *; try assumption. now apply Hk.
Qed.

Lemma Keeps_try_catch {A : Type} (P : Engine -> Prop) (m : M A) (h : Error -> M A) :
  Keeps P m -> (forall err, Keeps P (h err)) -> Keeps P (try_catch m h).
Proof.
  intros Hm Hh e He. specialize (Hm e He). unfold try_catch.
  destruct (m e) as [a e'|err e'|e']; cbn in *; try assumption. now apply Hh.
Qed.

(** [keeps tac] takes a method apart down to its writes and leaves each
    write to [tac]. *)
Ltac keeps_step tac :=
  first
    [ assumption
    | match goal with
      | H : _ |- Keeps _ _ => apply H
      end
    | apply Keeps_ret
    | apply Keeps_throw
    | apply Keeps_gets
    | apply Keeps_emit; intros ? ?; tac
    | apply Keeps_modify; intros ? ?;
      first [ tac
            | match goal with
              | |- context [if ?c then _ else _] => destruct c; tac
              end ]
    | apply Keeps_bind; [|intros ?]
    | apply Keeps_try_catch; [|intros ?]
    | match goal with
      | |- Keeps _ (match ?x with _ => _ end) => destruct x
      end
    | progress cbv zeta ].

Ltac keeps tac := repeat keeps_step tac.

Lemma Keeps_showChoices (P : Engine -> Prop) (p : option string)
    (opts : option (list ChoiceOption)) :
  (forall ev e, jump_failure ev = false -> P e -> P (logged ev e)) ->
  (forall e, P e -> P (with_waitingForInput true e)) ->
  (forall e, P e -> P (with_choiceButtons [] e)) ->
  (forall index, Keeps P (addButtons index (default [] opts))) ->
  Keeps P (showChoices p opts).
Proof.
  intros Hlog Hwait Hclear Hadd. unfold showChoices.
  destruct opts as [[|o rest]|];
    [apply Keeps_emit; intros e; now apply Hlog|
    |apply Keeps_emit; intros e; now apply Hlog].
  apply Keeps_bind; [apply Keeps_emit; intros e; now apply Hlog|intros _].
  apply Keeps_bind; [apply Keeps_modify, Hclear|intros _].
  apply Keeps_bind; [apply Hadd|intros _]. apply Keeps_modify, Hwait.
Qed.

Lemma NodeInv_leaf_methods (s : Story) :
  (forall placeId, Keeps (NodeInv s) (setBackground placeId))
  /\ (forall charId p pos, Keeps (NodeInv s) (showCharacter charId p pos))
  /\ (forall charId, Keeps (NodeInv s) (hideCharacter charId))
  /\ (forall w txt, Keeps (NodeInv s) (showDialogue w txt))
  /\ (forall txt, Keeps (NodeInv s) (showNarration txt))
  /\ (forall k v, Keeps (NodeInv s) (setVariable k v))
  /\ (forall p opts, Keeps (NodeInv s) (showChoices p opts))
  /\ Keeps (NodeInv s) endStory
  /\ (forall f, Keeps (NodeInv s) (runEffect f)).
Proof.
  assert (Hadd : forall opts index, Keeps (NodeInv s) (addButtons index opts)).
  { induction opts as [|o rest IH]; intros index; cbn [addButtons];
      keeps ltac:(assumption). }
  repeat apply conj; intros;
    try (apply Keeps_showChoices; [now intros ev e _ He|now intros e He..|apply Hadd]);
    unfold setBackground, showCharacter, hideCharacter, hideAt, showDialogue,
      showNarration, setVariable, endStory, runEffect;
    keeps ltac:(assumption).
Qed.

Lemma NodeInv_jumpToNode (s : Story) (exec : M unit) (nodeId : option string) :
  Keeps (NodeInv s) exec -> Keeps (NodeInv s) (jumpToNode exec nodeId).
Proof.
  intros Hexec e He. destruct nodeId as [n|]; [|exact He].
  destruct (resolve (nodes (story e)) n) as [steps|pathSoFar keys|keys] eqn:Hres.
  - rewrite (jumpToNode_found _ _ _ _ Hres). apply Hexec.
    destruct He as [Hs _]. split; [exact Hs|exact Hres].
  - rewrite jumpToNode_unresolved by (intros steps; congruence). exact He.
  - rewrite jumpToNode_unresolved by (intros steps; congruence). exact He.
Qed.

Lemma NodeInv_executeStep (s : Story) (exec : M unit) (step : Step) :
  Keeps (NodeInv s) exec -> Keeps (NodeInv s) (executeStep exec step).
Proof.
  intros Hexec.
  pose proof (fun n => NodeInv_jumpToNode s exec n Hexec) as Hjump.
  destruct (NodeInv_leaf_methods s)
    as (Hbg & Hshow & Hhide & Hdia & Hnar & Hset & Hcho & Hend & _).
  unfold executeStep, executeCase. keeps ltac:(assumption).
Qed.

Lemma NodeInv_executeSteps (s : Story) (fuel : nat) :
  Keeps (NodeInv s) (executeSteps fuel).
Proof.
  induction fuel as [|fuel IH]; cbn [executeSteps]; [now intros e|].
  pose proof (NodeInv_executeStep s (executeSteps fuel)) as Hstep.
  keeps ltac:(assumption).
Qed.

Lemma NodeInv_signal (s : Story) (fuel : nat) (sig : Signal) :
  Keeps (NodeInv s) (signal fuel sig).
Proof.
  pose proof (NodeInv_executeSteps s fuel) as Hexec.
  pose proof (fun n => NodeInv_jumpToNode s (executeSteps fuel) n Hexec) as Hjump.
  destruct (NodeInv_leaf_methods s) as (_ & _ & _ & _ & _ & _ & _ & _ & Heff).
  destruct sig as [|i]; cbn [signal].
  - unfold advance. keeps ltac:(assumption).
  - unfold choose, clickChoice. keeps ltac:(assumption).
Qed.

(** At every moment after construction, whatever signals arrive and however
    the walks end, the steps the engine walks are the step array its current
    node resolves to in the story's tree, and the story is the one it was
    built with.  The constructor leaves the engine without node and without
    steps; a jump to a path that resolves walks on from the engine that
    entered the node, with its steps and the cursor at 0; and a jump to a
    plain path that does not resolve returns after it has logged the
    failure and leaves node, steps, cursor and every other field as they
    were. *)
Theorem current_steps_belong_to_current_node
    (fuel fuel' : nat) (storyData : Story) (heap : gmap loc Variables)
    (signals : list Signal) :
  (story (run fuel' signals (final (construct fuel storyData heap))) = storyData
   /\ node_ok (run fuel' signals (final (construct fuel storyData heap))))
  /\ (currentNode (initial storyData heap) = None
      /\ currentSteps (initial storyData heap) = [])
  /\ (forall exec n steps e,
        resolve (nodes (story e)) n = Found steps ->
        exists e',
          entered n steps e e' /\ jumpToNode exec (Some n) e = exec e')
  /\ (forall exec n e,
        plain_path (nodes (story e)) n = true ->
        (forall steps, resolve (nodes (story e)) n <> Found steps) ->
        exists e',
          told (lookup_failure n (resolve (nodes (story e)) n)) e e'
          /\ jumpToNode exec (Some n) e = Returned tt e').
Proof.
  split; [|split; [now split|split]].
  - change (NodeInv storyData
              (run fuel' signals (final (construct fuel storyData heap)))).
    assert (Hrun : forall e, NodeInv storyData e ->
                             NodeInv storyData (run fuel' signals e)).
    { induction signals as [|sig rest IH]; intros e He; cbn [run]; [exact He|].
      apply IH. now apply NodeInv_signal. }
    apply Hrun. unfold construct.
    apply (NodeInv_jumpToNode storyData (executeSteps fuel) (start storyData)
             (NodeInv_executeSteps storyData fuel)).
    now split.
  - intros exec n steps e Hres. exists (enter n steps e).
    split; [now repeat split|]. now apply jumpToNode_found.
  - intros exec n e _ Hres.
    exists (with_trace
              (trace e ++ lookup_failure n (resolve (nodes (story e)) n)) e).
    split; [now repeat split|]. now apply jumpToNode_unresolved.
Qed.

Lemma current_steps_belong_to_current_node_witness :
  exists e',
    (currentNode e' = None /\ currentSteps e' = [])
    /\ jumpToNode (executeSteps 5) (Some "Nowhere") (initial dangling_story heap0)
       = Returned tt e'.
Proof.
  destruct (current_steps_belong_to_current_node 5 5 dangling_story heap0 [])
    as (_ & _ & _ & H).
  destruct (H (executeSteps 5) "Nowhere" (initial dangling_story heap0))
    as (e' & (_ & Hnode & Hsteps & _) & Hjump).
  - reflexivity.
  - intros steps. vm_compute. discriminate.
  - exists e'. split; [split; [exact Hnode|exact Hsteps]|exact Hjump].
Defined.

(** *** Stories without errors *)

Lemma truthy_false (x : option string) :
  truthy x = false -> x = None \/ x = Some "".
Proof.
  destruct x as [s|]; [|now left]. unfold truthy.
  destruct (String.eqb_spec s ""); [subst; now right|discriminate].
Qed.

Lemma no_errors_sound_story (story : Story) (ns : Nodes) :
  nodes story = Some ns ->
  wf_keys (NestedGroup ns) = true ->
  no_errors (validateStory story) ->
  sound_story story ns.
Proof.
  intros Hns Hwf Hclean.
  destruct (elem_of_validateStory story ns Hns) as (refs & Hrefs & Hin).
  assert (Htarget : forall t, references ns t -> t <> "" -> resolves ns t).
  { intros t Href Hne.
    destruct (decide (t ∈ collectNodeIds ns "")) as [Hid|Hout].
    - apply collectNodeIds_leaves, elem_of_leaves_ids in Hid as (steps & Hl).
      exists steps. now apply resolvers_agree, leaf_ids_are_the_paths_that_resolve.
    - exfalso.
      apply (Hclean (diag error (ReferencedNodeMissing t) (AtJumpTo t)));
        [|reflexivity].
      apply Hin. right. right. left. apply elem_of_undefinedReferences.
      exists t. split; [now apply Hrefs|now split]. }
  split; [exact Hns|]. split.
  - destruct (start story) as [t|] eqn:Hstart.
    + destruct (truthy (Some t)) eqn:Ht.
      * destruct (Validator.resolveNode ns t) as [steps|] eqn:Hres.
        -- exists t. split; [reflexivity|]. exists steps. now apply resolvers_agree.
        -- exfalso.
           apply (Hclean (diag error (StartNodeMissing t) AtStoryStart)); [|reflexivity].
           apply Hin. left. unfold header. rewrite Hstart, Ht, Hres.
           rewrite !elem_of_app. right. right. apply list_elem_of_here.
      * exfalso.
        apply (Hclean {| Diag.type := error; Diag.message := MissingStart;
                         Diag.location := None |}); [|reflexivity].
        apply Hin. left. unfold header. rewrite Hstart, Ht.
        rewrite !elem_of_app. left. apply list_elem_of_here.
    + exfalso.
      apply (Hclean {| Diag.type := error; Diag.message := MissingStart;
                       Diag.location := None |}); [|reflexivity].
      apply Hin. left. unfold header. rewrite Hstart. cbn [truthy].
      rewrite !elem_of_app. left. apply list_elem_of_here.
  - intros n steps step Hl Hstep. split.
    + intros Hty.
      destruct (truthy (nodeId step)) eqn:Ht.
      * apply truthy_true in Ht as (t & Hnode & Hne). exists t.
        split; [exact Hnode|]. apply Htarget; [|exact Hne].
        exists n, steps, step. split; [exact Hl|]. split; [exact Hstep|].
        unfold targets. rewrite Hty, Hnode. apply list_elem_of_here.
      * exfalso. apply list_elem_of_lookup in Hstep as (i & Hi).
        apply (Hclean (diag error JumpToMissingNodeId (AtStep n i))); [|reflexivity].
        apply (elem_of_validateStory_at_step story ns n i _ Hns).
        exists steps, step. split; [exact Hl|]. split; [exact Hi|].
        now apply missing_nodeId_diag.
    + intros t Ht Hne. apply Htarget; [|exact Hne]. now exists n, steps, step.
Qed.

(** A story whose groups have distinct, non-empty, dot-free keys and for
    which [validateStory] returns no error has a start node that resolves,
    and every [jump_to], every branch of a [conditional_jump] and every
    choice option of its nodes names a target that resolves. *)
Theorem validated_story_is_sound (story : Story) (ns : Nodes) :
  nodes story = Some ns ->
  wf_keys (NestedGroup ns) = true ->
  no_errors (validateStory story) ->
  sound_story story ns.
Proof. exact (no_errors_sound_story story ns). Qed.

Lemma validated_story_is_sound_witness :
  sound_story choice_then_line
    [("Start", StepArray [choice "Pick" [option_to "A" (Some "X")];
                          narration "after"]);
     ("X", StepArray [StoryFormat.endStory])].
Proof.
  apply (validated_story_is_sound choice_then_line
           [("Start", StepArray [choice "Pick" [option_to "A" (Some "X")];
                                 narration "after"]);
            ("X", StepArray [StoryFormat.endStory])]).
  - reflexivity.
  - reflexivity.
  - intros d Hin. apply list_elem_of_In in Hin. vm_compute in Hin. destruct Hin.
Defined.

(** *** Stories whose jumps resolve *)

Lemma descend_reaches_leaf (value : NodeEntry) (parts : list string)
    (steps : list Step) (full : string) :
  descend value parts = Some (StepArray steps) ->
  exists n, (n, steps) ∈ leavesValue full value.
Proof.
  revert value full. induction parts as [|k rest IH]; intros value full; cbn.
  - intros [= ->]. exists full. apply list_elem_of_here.
  - destruct value as [|children]; [discriminate|]. cbn [get_prop].
    destruct (get_entry k children) as [v|] eqn:Hget; [|discriminate].
    intros Hd. destruct (IH v (fullId full k) Hd) as (n & Hn).
    exists n. cbn [leavesValue]. apply elem_of_leaves_entries.
    exists k, v. split; [now apply get_entry_elem|exact Hn].
Qed.

Lemma resolve_reaches_leaf (ns : Nodes) (t : string) (steps : list Step) :
  resolve (Some ns) t = Found steps -> exists n, (n, steps) ∈ leaves ns "".
Proof.
  intros Hres. apply resolvers_agree in Hres. unfold Validator.resolveNode in Hres.
  rewrite walk_descend in Hres.
  destruct (descend (NestedGroup ns) (split_dot t)) as [[steps'|]|] eqn:Hd;
    try discriminate.
  injection Hres as ->.
  destruct (descend_reaches_leaf _ _ _ "" Hd) as (n & Hn). now exists n.
Qed.

Ltac safe_write :=
  first
    [ assumption
    | match goal with
      | H : SafeInv _ _ _ |- SafeInv _ _ _ =>
          destruct H as (? & ? & ? & ?); repeat apply conj; try assumption;
          apply Forall_app; split; [assumption|];
          constructor; [reflexivity|constructor]
      end ].

Section Sound.

Variable s : Story.
Variable ns : Nodes.
Hypothesis Hsound : sound_story s ns.

Lemma SafeInv_leaf_methods :
  (forall placeId, Keeps (SafeInv s ns) (setBackground placeId))
  /\ (forall charId p pos, Keeps (SafeInv s ns) (showCharacter charId p pos))
  /\ (forall charId, Keeps (SafeInv s ns) (hideCharacter charId))
  /\ (forall w txt, Keeps (SafeInv s ns) (showDialogue w txt))
  /\ (forall txt, Keeps (SafeInv s ns) (showNarration txt))
  /\ (forall k v, Keeps (SafeInv s ns) (setVariable k v))
  /\ Keeps (SafeInv s ns) endStory
  /\ (forall f, Keeps (SafeInv s ns) (runEffect f)).
Proof.
  repeat apply conj; intros;
    unfold setBackground, showCharacter, hideCharacter, hideAt, showDialogue,
      showNarration, setVariable, endStory, runEffect;
    keeps safe_write.
Qed.

Lemma SafeInv_addButtons (opts : list ChoiceOption) (index : nat) :
  (forall o t, o ∈ opts -> target o = Some t -> t <> "" -> resolves ns t) ->
  Keeps (SafeInv s ns) (addButtons index opts).
Proof.
  revert index. induction opts as [|o rest IH]; intros index Hopts; cbn [addButtons].
  - apply Keeps_ret.
  - apply Keeps_bind; [|intros _; apply IH; intros o' t Ho; apply Hopts;
                        now apply list_elem_of_further].
    destruct (truthy (label o)); [|apply Keeps_emit; intros e He; safe_write].
    apply Keeps_bind; [apply Keeps_emit; intros e He; safe_write|intros _].
    apply Keeps_modify. intros e (Hs & Hn & Hb & Ht).
    repeat apply conj; try assumption. cbn. intros b t Hin Hbt Hne.
    apply elem_of_app in Hin as [Hin|Hin]; [now apply (Hb b t)|].
    apply list_elem_of_singleton in Hin as ->. cbn in Hbt.
    apply (Hopts o t); [apply list_elem_of_here|exact Hbt|exact Hne].
Qed.

Lemma SafeInv_logged (ev : Event) (e : Engine) :
  jump_failure ev = false -> SafeInv s ns e -> SafeInv s ns (logged ev e).
Proof.
  intros Hev (Hs & Hn & Hb & Ht). repeat apply conj; try assumption.
  apply Forall_app. split; [exact Ht|]. now constructor.
Qed.

Lemma SafeInv_showChoices (p : option string) (opts : option (list ChoiceOption)) :
  (forall o t, o ∈ default [] opts -> target o = Some t -> t <> "" -> resolves ns t) ->
  Keeps (SafeInv s ns) (showChoices p opts).
Proof.
  intros Hopts. apply Keeps_showChoices.
  - apply SafeInv_logged.
  - now intros e He.
  - intros e (Hs & Hn & Hb & Ht). repeat apply conj; try assumption.
    cbn. now intros b t Hin%elem_of_nil.
  - intros index. now apply SafeInv_addButtons.
Qed.

Lemma SafeInv_jumpToNode (exec : M unit) (t : string) :
  resolves ns t -> Keeps (SafeInv s ns) exec ->
  Keeps (SafeInv s ns) (jumpToNode exec (Some t)).
Proof.
  intros (steps & Hres) Hexec e He. pose proof He as (Hs & Hn & Hb & Ht).
  destruct Hsound as (Hns & _). rewrite <- Hs in Hns.
  rewrite (jumpToNode_found exec e t steps) by now rewrite Hns.
  apply Hexec. repeat apply conj; try assumption.
  unfold node_ok. cbn. now rewrite Hns.
Qed.

Lemma SafeInv_executeStep (exec : M unit) (step : Step) :
  jumps_resolve ns step -> Keeps (SafeInv s ns) exec ->
  Keeps (SafeInv s ns) (executeStep exec step).
Proof.
  intros [Hjump Htargets] Hexec.
  destruct SafeInv_leaf_methods
    as (Hbg & Hshow & Hhide & Hdia & Hnar & Hset & Hend & _).
  unfold executeStep. apply Keeps_try_catch; [|intros err; keeps safe_write].
  unfold executeCase. destruct (type step) as [[]|] eqn:Hty;
    try solve [keeps safe_write].
  - destruct (Hjump eq_refl) as (t & -> & Ht).
    apply Keeps_bind; [now apply SafeInv_jumpToNode|intros _; apply Keeps_ret].
  - destruct (test step) as [f|]; [|apply Keeps_throw].
    apply Keeps_bind; [apply Keeps_gets|intros vars].
    destruct (f vars) as [err|testResult]; [apply Keeps_throw|].
    assert (Hbranch : forall x, (x = thenNodeId step \/ x = elseNodeId step) ->
                                truthy x = true ->
                                Keeps (SafeInv s ns) (jumpToNode exec x)).
    { intros x Hx (t & -> & Hne)%truthy_true. apply SafeInv_jumpToNode; [|exact Hexec].
      apply Htargets; [|exact Hne]. unfold targets. rewrite Hty.
      destruct Hx as [<-|<-]; [apply list_elem_of_here|].
      apply list_elem_of_further, list_elem_of_here. }
    destruct (testResult && truthy (thenNodeId step)) eqn:Hthen.
    + apply andb_prop in Hthen as [_ Hthen].
      apply Keeps_bind; [apply Hbranch; auto|intros _; apply Keeps_ret].
    + destruct (negb testResult && truthy (elseNodeId step)) eqn:Helse;
        [|apply Keeps_ret].
      apply andb_prop in Helse as [_ Helse].
      apply Keeps_bind; [apply Hbranch; auto|intros _; apply Keeps_ret].
  - apply Keeps_bind; [|intros _; apply Keeps_ret].
    apply SafeInv_showChoices. intros o t Ho Ht Hne. apply Htargets; [|exact Hne].
    unfold targets. rewrite Hty. apply list_elem_of_fmap. now exists o.
Qed.

Lemma SafeInv_current_step (e : Engine) (step : Step) :
  SafeInv s ns e -> currentSteps e !! currentStepIndex e = Some step ->
  jumps_resolve ns step.
Proof.
  intros (Hs & Hn & _) Hat. destruct Hsound as (Hns & _ & Hsteps).
  unfold node_ok in Hn. destruct (currentNode e) as [n|].
  - rewrite Hs, Hns in Hn. apply resolve_reaches_leaf in Hn as (m & Hm).
    apply (Hsteps m (currentSteps e) step Hm). now apply list_elem_of_lookup_2 in Hat.
  - rewrite Hn in Hat. discriminate.
Qed.

Lemma SafeInv_executeSteps (fuel : nat) : Keeps (SafeInv s ns) (executeSteps fuel).
Proof.
  induction fuel as [|fuel IH]; intros e He; [exact He|].
  rewrite executeSteps_S.
  destruct (currentSteps e !! currentStepIndex e) as [step|] eqn:Hat;
    [|now apply SafeInv_logged].
  pose proof (SafeInv_executeStep (executeSteps fuel) step
                (SafeInv_current_step e step He Hat) IH e He) as Hstep.
  destruct (executeStep (executeSteps fuel) step e) as [[] e'|err e'|e'];
    cbn in Hstep; try exact Hstep.
  apply IH. exact Hstep.
Qed.

Lemma SafeInv_clickChoice (fuel : nat) (b : ChoiceButton) :
  (forall t, button_nodeId b = Some t -> t <> "" -> resolves ns t) ->
  Keeps (SafeInv s ns) (clickChoice fuel b).
Proof.
  intros Hbutton. pose proof (SafeInv_executeSteps fuel) as Hexec.
  destruct SafeInv_leaf_methods as (_ & _ & _ & _ & _ & _ & _ & Heff).
  unfold clickChoice. apply Keeps_try_catch; [|intros err; keeps safe_write].
  apply Keeps_bind; [destruct (button_effectFn b); keeps safe_write|intros _].
  apply Keeps_bind; [keeps safe_write|intros _].
  destruct (truthy (button_nodeId b)) eqn:Ht; [|keeps safe_write].
  apply truthy_true in Ht as (t & Hbt & Hne). rewrite Hbt.
  apply SafeInv_jumpToNode; [now apply Hbutton|exact Hexec].
Qed.

Lemma SafeInv_signal (fuel : nat) (sig : Signal) :
  Keeps (SafeInv s ns) (signal fuel sig).
Proof.
  pose proof (SafeInv_executeSteps fuel) as Hexec.
  destruct sig as [|i]; cbn [signal].
  - unfold advance. keeps safe_write.
  - intros e He. unfold choose. rewrite bind_gets.
    destruct (choiceButtons e !! i) as [b|] eqn:Hb; [|exact He].
    apply SafeInv_clickChoice; [|exact He].
    destruct He as (_ & _ & Hbs & _). intros t. apply Hbs.
    now apply list_elem_of_lookup_2 in Hb.
Qed.

Lemma SafeInv_run (fuel : nat) (signals : list Signal) (e : Engine) :
  SafeInv s ns e -> SafeInv s ns (run fuel signals e).
Proof.
  revert e. induction signals as [|sig rest IH]; intros e He; cbn [run]; [exact He|].
  apply IH. now apply SafeInv_signal.
Qed.

Lemma SafeInv_construct (fuel : nat) (heap : gmap loc Variables) :
  SafeInv s ns (final (construct fuel s heap)).
Proof.
  unfold construct. destruct Hsound as (Hns & (t & Hstart & Ht) & _).
  rewrite Hstart. apply (SafeInv_jumpToNode _ t Ht (SafeInv_executeSteps fuel)).
  repeat apply conj; try reflexivity.
  - cbn. now intros b t' Hin%elem_of_nil.
  - cbn. constructor; [reflexivity|]. destruct (bool_decide _); repeat constructor.
Qed.

End Sound.

(** A story whose start node resolves and whose steps only name targets that
    resolve never fails a jump: whatever signals arrive, whatever the fuel
    of the walks and however they end, the engine logs no node that was not
    found, no path that is a group and no jump that could not be made. *)
Theorem sound_story_never_fails_a_jump
    (fuel fuel' : nat) (storyData : Story) (ns : Nodes)
    (heap : gmap loc Variables) (signals : list Signal) (ev : Event) :
  sound_story storyData ns ->
  ev ∈ trace (run fuel' signals (final (construct fuel storyData heap))) ->
  jump_failure ev = false.
Proof.
  intros Hsound Hev.
  pose proof (SafeInv_run storyData ns Hsound fuel' signals _
                (SafeInv_construct storyData ns Hsound fuel heap))
    as (_ & _ & _ & Htrace).
  rewrite Forall_forall in Htrace. now apply Htrace.
Qed.

Lemma sound_story_never_fails_a_jump_witness :
  Forall (fun ev => jump_failure ev = false)
    (trace (run 10 [Choose 0]
              (final (construct 10 choice_then_line heap0)))).
Proof.
  apply Forall_forall. intros ev.
  apply (sound_story_never_fails_a_jump 10 10 choice_then_line
           [("Start", StepArray [choice "Pick" [option_to "A" (Some "X")];
                                 narration "after"]);
            ("X", StepArray [StoryFormat.endStory])]
           heap0 [Choose 0] ev).
  split; [reflexivity|]. split.
  - exists "Start". split; [reflexivity|]. now eexists.
  - intros n steps step Hl Hstep.
    apply list_elem_of_In in Hl. vm_compute in Hl.
    destruct Hl as [[= <- <-]|[[= <- <-]|[]]];
      apply list_elem_of_In in Hstep; vm_compute in Hstep.
    + destruct Hstep as [<-|[<-|[]]]; (split; [discriminate|]);
        intros t Ht Hne; apply list_elem_of_In in Ht; vm_compute in Ht.
      * destruct Ht as [[= <-]|[]]. now eexists.
      * destruct Ht.
    + destruct Hstep as [<-|[]]. split; [discriminate|].
      intros t Ht. apply list_elem_of_In in Ht. vm_compute in Ht. destruct Ht.
Defined.

(** A story whose groups have distinct, non-empty, dot-free keys and for
    which [validateStory] returns no error never fails a jump when it is
    played: whatever signals arrive and however the walks end, the engine
    logs no node that was not found, no path that is a group and no jump
    that could not be made. *)
Theorem validated_story_never_fails_a_jump
    (fuel fuel' : nat) (storyData : Story) (ns : Nodes)
    (heap : gmap loc Variables) (signals : list Signal) (ev : Event) :
  nodes storyData = Some ns ->
  wf_keys (NestedGroup ns) = true ->
  no_errors (validateStory storyData) ->
  ev ∈ trace (run fuel' signals (final (construct fuel storyData heap))) ->
  jump_failure ev = false.
Proof.
  intros Hns Hwf Hclean Hev.
  pose proof (no_errors_sound_story storyData ns Hns Hwf Hclean) as Hsound.
  pose proof (SafeInv_run storyData ns Hsound fuel' signals _
                (SafeInv_construct storyData ns Hsound fuel heap))
    as (_ & _ & _ & Htrace).
  rewrite Forall_forall in Htrace. now apply Htrace.
Qed.

Lemma validated_story_never_fails_a_jump_witness :
  Forall (fun ev => jump_failure ev = false)
    (trace (run 10 [Choose 0; Advance]
              (final (construct 10 choice_then_line heap0)))).
Proof.
  apply Forall_forall. intros ev.
  apply (validated_story_never_fails_a_jump 10 10 choice_then_line
           [("Start", StepArray [choice "Pick" [option_to "A" (Some "X")];
                                 narration "after"]);
            ("X", StepArray [StoryFormat.endStory])]
           heap0 [Choose 0; Advance] ev).
  - reflexivity.
  - reflexivity.
  - intros d Hin. apply list_elem_of_In in Hin. vm_compute in Hin. destruct Hin.
Defined.

(** *** Walks that stay in their node *)

Lemma Total_ret {A : Type} (a : A) : Total (ret a).
Proof. now intros e. Qed.

Lemma Total_throw {A : Type} (err : Error) : Total (@throw A err).
Proof. now intros e. Qed.

Lemma Total_gets {A : Type} (f : Engine -> A) : Total (gets f).
Proof. now intros e. Qed.

Lemma Total_modify (f : Engine -> Engine) : Total (modify f).
Proof. now intros e. Qed.

Lemma Total_emit (ev : Event) : Total (emit ev).
Proof. now intros e. Qed.

Lemma Total_bind {A B : Type} (m : M A) (k : A -> M B) :
  Total m -> (forall a, Total (k a)) -> Total (bind m k).
Proof.
  intros Hm Hk e. specialize (Hm e). unfold bind.
  destruct (m e) as [a e'|err e'|e']; [apply Hk|exact I|exact Hm].
Qed.

Lemma Total_try_catch {A : Type} (m : M A) (h : Error -> M A) :
  Total m -> (forall err, Total (h err)) -> Total (try_catch m h).
Proof.
  intros Hm Hh e. specialize (Hm e). unfold try_catch.
  destruct (m e) as [a e'|err e'|e']; [exact I|apply Hh|exact Hm].
Qed.

Ltac total_step :=
  first
    [ assumption
    | match goal with
      | H : _ |- Total _ => apply H
      end
    | apply Total_ret
    | apply Total_throw
    | apply Total_gets
    | apply Total_emit
    | apply Total_modify
    | apply Total_bind; [|intros ?]
    | apply Total_try_catch; [|intros ?]
    | match goal with
      | |- Total (match ?x with _ => _ end) => destruct x
      end
    | progress cbv zeta ].

Ltac total := repeat total_step.

Lemma Total_addButtons (opts : list ChoiceOption) (index : nat) :
  Total (addButtons index opts).
Proof.
  revert index. induction opts as [|o rest IH]; intros index; cbn [addButtons]; total.
Qed.

Lemma Total_showChoices (p : option string) (opts : option (list ChoiceOption)) :
  Total (showChoices p opts).
Proof.
  unfold showChoices. destruct opts as [[|o rest]|]; [total| |total].
  apply Total_bind; [total|intros _]. apply Total_bind; [total|intros _].
  apply Total_bind; [apply Total_addButtons|intros _]. total.
Qed.

Lemma Total_stay_step (exec : M unit) (step : Step) :
  is_jump step = false -> Total (executeStep exec step).
Proof.
  intros Hj. pose proof Total_showChoices as Hcho.
  unfold executeStep, executeCase. unfold is_jump in Hj.
  destruct (type step) as [[]|]; try discriminate Hj;
    unfold setBackground, showCharacter, hideCharacter, hideAt, showDialogue,
      showNarration, setVariable, endStory;
    total.
Qed.

Lemma same_place_stay_step (exec : M unit) (step : Step) (e0 : Engine) :
  is_jump step = false -> Keeps (same_place e0) (executeStep exec step).
Proof.
  intros Hj.
  assert (Hadd : forall opts index, Keeps (same_place e0) (addButtons index opts)).
  { induction opts as [|o rest IH]; intros index; cbn [addButtons];
      keeps ltac:(assumption). }
  assert (Hcho : forall p opts, Keeps (same_place e0) (showChoices p opts)).
  { intros p opts. apply Keeps_showChoices;
      [now intros ev e _ He|now intros e He..|apply Hadd]. }
  unfold executeStep, executeCase. unfold is_jump in Hj.
  destruct (type step) as [[]|]; try discriminate Hj;
    unfold setBackground, showCharacter, hideCharacter, hideAt, showDialogue,
      showNarration, setVariable, endStory;
    keeps ltac:(assumption).
Qed.

(** A walk through steps none of which is a [jump_to] or a
    [conditional_jump] ends: with more fuel than steps left in the node it
    returns or throws and is never cut off, and the steps it walks are still
    the current ones when it ends. *)
Theorem walk_without_jumps_ends (fuel : nat) (e : Engine) :
  (forall i step, currentStepIndex e <= i -> currentSteps e !! i = Some step ->
                  is_jump step = false) ->
  length (currentSteps e) - currentStepIndex e < fuel ->
  match executeSteps fuel e with
  | OutOfFuel _ => False
  | Returned _ e' | Threw _ e' => currentSteps e' = currentSteps e
  end.
Proof.
  revert e. induction fuel as [|fuel IH]; intros e Hstay Hfuel; [lia|].
  rewrite executeSteps_S.
  destruct (currentSteps e !! currentStepIndex e) as [step|] eqn:Hat; [|reflexivity].
  pose proof (Hstay _ step (Nat.le_refl _) Hat) as Hj.
  pose proof (Total_stay_step (executeSteps fuel) step Hj e) as Htotal.
  pose proof (same_place_stay_step (executeSteps fuel) step e Hj e
                (conj eq_refl eq_refl)) as Hsame.
  destruct (executeStep (executeSteps fuel) step e) as [[] e'|err e'|e'];
    cbn in Hsame; destruct Hsame as [Hsteps Hidx]; try easy.
  apply lookup_lt_Some in Hat.
  specialize (IH (next_step e')). cbn in IH. rewrite Hsteps, Hidx in IH.
  apply IH; [|lia].
  intros i step' Hle. apply Hstay. lia.
Qed.

Lemma walk_without_jumps_ends_witness :
  match executeSteps 4 (standing_at choice_then_end "Start"
                          [narration "a"; narration "b"; StoryFormat.endStory]) with
  | OutOfFuel _ => False
  | Returned _ e' | Threw _ e' =>
      currentSteps e' = [narration "a"; narration "b"; StoryFormat.endStory]
  end.
Proof.
  apply (walk_without_jumps_ends 4
           (standing_at choice_then_end "Start"
              [narration "a"; narration "b"; StoryFormat.endStory])).
  - intros [|[|[|i]]] step _ Hat; cbn in Hat; try discriminate;
      injection Hat as <-; reflexivity.
  - cbn. lia.
Defined.

(** *** Characters on stage *)

Lemma with_trace_same (e : Engine) : with_trace (trace e) e = e.
Proof. now destruct e. Qed.

Lemma cleared_not_shown (charId : option string) (s : Slot) :
  cleared charId s <> Shown charId.
Proof.
  unfold cleared. destruct (slot_is s charId) eqn:H; [discriminate|].
  intros ->. cbn in H. now rewrite bool_decide_eq_true_2 in H.
Qed.

(** For an id that is a string, [hideCharacter] always returns.  It clears
    every position whose slot shows the character, sending one display
    command for each in the order left, center, right, and leaves the other
    positions, and every other field of the engine, as they were;
    afterwards no position shows the character. *)
Theorem hideCharacter_clears_every_position (c : string) (e : Engine) :
  exists e',
    hideCharacter (Some c) e = Returned tt e'
    /\ (at_left (visibleCharacters e')
        = cleared (Some c) (at_left (visibleCharacters e))
        /\ at_center (visibleCharacters e')
           = cleared (Some c) (at_center (visibleCharacters e))
        /\ at_right (visibleCharacters e')
           = cleared (Some c) (at_right (visibleCharacters e)))
    /\ trace e'
       = trace e
         ++ clearing (Some c) "left" (at_left (visibleCharacters e))
         ++ clearing (Some c) "center" (at_center (visibleCharacters e))
         ++ clearing (Some c) "right" (at_right (visibleCharacters e))
    /\ (at_left (visibleCharacters e') <> Shown (Some c)
        /\ at_center (visibleCharacters e') <> Shown (Some c)
        /\ at_right (visibleCharacters e') <> Shown (Some c))
    /\ (story e' = story e /\ store e' = store e
        /\ state_variables e' = state_variables e
        /\ currentNode e' = currentNode e /\ currentSteps e' = currentSteps e
        /\ currentStepIndex e' = currentStepIndex e
        /\ waitingForInput e' = waitingForInput e
        /\ choiceButtons e' = choiceButtons e).
Proof.
  assert (Hrun : exists e',
    hideCharacter (Some c) e = Returned tt e'
    /\ (at_left (visibleCharacters e')
        = cleared (Some c) (at_left (visibleCharacters e))
        /\ at_center (visibleCharacters e')
           = cleared (Some c) (at_center (visibleCharacters e))
        /\ at_right (visibleCharacters e')
           = cleared (Some c) (at_right (visibleCharacters e)))
    /\ trace e'
       = trace e
         ++ clearing (Some c) "left" (at_left (visibleCharacters e))
         ++ clearing (Some c) "center" (at_center (visibleCharacters e))
         ++ clearing (Some c) "right" (at_right (visibleCharacters e))
    /\ (story e' = story e /\ store e' = store e
        /\ state_variables e' = state_variables e
        /\ currentNode e' = currentNode e /\ currentSteps e' = currentSteps e
        /\ currentStepIndex e' = currentStepIndex e
        /\ waitingForInput e' = waitingForInput e
        /\ choiceButtons e' = choiceButtons e)).
  { destruct e as [st sto sv cn ci cs w [l ce r] bs tr].
    unfold hideCharacter, hideAt, cleared, clearing. cbn.
    unfold bind, gets, emit, modify. cbn.
    destruct (slot_is l (Some c)); cbn;
      (destruct (slot_is ce (Some c)); cbn;
       (destruct (slot_is r (Some c)); cbn;
        eexists; (split; [reflexivity|]); cbn;
        rewrite <- ?app_assoc, ?app_nil_r; now repeat split)). }
  destruct Hrun as (e' & Hret & (Hl & Hc & Hr) & Htrace & Hrest).
  exists e'. split; [exact Hret|]. split; [now repeat split|].
  split; [exact Htrace|]. split; [|exact Hrest].
  rewrite Hl, Hc, Hr. repeat split; apply cleared_not_shown.
Qed.

Lemma known_position_cases (positionName : string) :
  known_position positionName = true ->
  positionName = "left" \/ positionName = "center" \/ positionName = "right".
Proof.
  unfold known_position. intros H.
  apply orb_prop in H as [H|H]; [apply orb_prop in H as [H|H]|];
    apply String.eqb_eq in H; auto.
Qed.

(** When the character, its pose and the position are all known,
    [showCharacter] sends the sprite of the pose to the position and records
    the character in the slot of that position.  The slots of the other
    positions stay as they are, also when one of them shows the same
    character: a character shown at a second position is then on stage
    twice. *)
Theorem showCharacter_takes_the_position
    (charId : option string) (ch : Character) (p : CharacterPose)
    (poseName imagePath : string) (pos : CharacterPosition)
    (positionName : string) (e : Engine) :
  characters (story e) !! js_key charId = Some ch ->
  pose_name p = Some poseName -> poseName <> "" ->
  poses ch !! poseName = Some imagePath -> imagePath <> "" ->
  position_name pos = Some positionName ->
  known_position positionName = true ->
  exists e',
    showCharacter charId (Some p) (Some pos) e = Returned tt e'
    /\ trace e' = trace e ++ [Render (SetCharacterSprite positionName imagePath)]
    /\ slot_at positionName (visibleCharacters e') = Some (Shown charId)
    /\ (forall other, other <> positionName ->
          slot_at other (visibleCharacters e') = slot_at other (visibleCharacters e))
    /\ same_place e e'
    /\ currentNode e' = currentNode e.
Proof.
  intros Hc Hp Hne Hpose Himg Hpos Hknown.
  exists (with_visibleCharacters
            (set_slot positionName (Shown charId) (visibleCharacters e))
            (logged (Render (SetCharacterSprite positionName imagePath)) e)).
  split; [|split; [reflexivity|split; [|split; [|now repeat split]]]].
  - assert (Hpn : positionName <> "").
    { apply known_position_cases in Hknown as [->|[->| ->]]; discriminate. }
    unfold showCharacter. rewrite bind_gets, Hc. cbn [mbind option_bind].
    rewrite Hp, (truthy_Some _ Hne), Hpose, (truthy_Some _ Himg).
    cbn [negb mbind option_bind]. rewrite Hpos, (truthy_Some _ Hpn), Hknown.
    reflexivity.
  - apply known_position_cases in Hknown as [->|[->| ->]]; reflexivity.
  - intros other Hother. cbn [visibleCharacters with_visibleCharacters].
    apply known_position_cases in Hknown as [->|[->| ->]];
      unfold slot_at, set_slot; cbn [String.eqb Ascii.eqb Bool.eqb];
      repeat match goal with
        | |- context [String.eqb other ?s] =>
            destruct (String.eqb_spec other s); [try contradiction|]
        end; try reflexivity; subst; try contradiction.
Qed.

Lemma showCharacter_takes_the_position_witness :
  exists e',
    showCharacter (Some "alice") (Some CharacterPoses.happy)
      (Some CharacterPositions.left) (initial stage_story heap0)
    = Returned tt e'
    /\ slot_at "left" (visibleCharacters e') = Some (Shown (Some "alice")).
Proof.
  destruct (showCharacter_takes_the_position (Some "alice") alice
              CharacterPoses.happy "happy" "alice_happy.png"
              CharacterPositions.left "left" (initial stage_story heap0))
    as (e' & Hrun & _ & Hslot & _);
    [reflexivity|reflexivity|discriminate|reflexivity|discriminate
    |reflexivity|reflexivity|].
  exists e'. now split.
Defined.

(** *** Choices on offer *)

Lemma same_scene_refl (e : Engine) : same_scene e e.
Proof. now repeat split. Qed.

Lemma omap_button_cons (o : ChoiceOption) (rest : list ChoiceOption) :
  omap button_of (o :: rest)
  = (if truthy (label o)
     then [{| button_label := default "" (label o);
              button_nodeId := target o;
              button_effectFn := effectFn o |}]
     else [])
    ++ omap button_of rest.
Proof.
  change (omap button_of (o :: rest))
    with (match button_of o with
          | Some b => b :: omap button_of rest
          | None => omap button_of rest
          end).
  unfold button_of at 1. now destruct (truthy (label o)).
Qed.

Lemma addButtons_unfold (opts : list ChoiceOption) (index : nat) (e : Engine) :
  exists e',
    addButtons index opts e = Returned tt e'
    /\ choiceButtons e' = choiceButtons e ++ omap button_of opts
    /\ waitingForInput e' = waitingForInput e
    /\ same_scene e e'.
Proof.
  revert index e. induction opts as [|o rest IH]; intros index e; cbn [addButtons].
  - exists e. cbn. rewrite app_nil_r. repeat split.
  - rewrite omap_button_cons. unfold bind at 1.
    destruct (truthy (label o)) eqn:Hl.
    + rewrite bind_emit. cbn [modify].
      match goal with
      | |- context [addButtons (S index) rest ?e1] =>
          destruct (IH (S index) e1) as (e' & -> & Hb & Hw & Hs)
      end.
      exists e'. split; [reflexivity|]. rewrite Hb. cbn.
      split; [now rewrite <- app_assoc|]. split; [exact Hw|exact Hs].
    + cbn [emit modify].
      match goal with
      | |- context [addButtons (S index) rest ?e1] =>
          destruct (IH (S index) e1) as (e' & -> & Hb & Hw & Hs)
      end.
      exists e'. split; [reflexivity|]. rewrite Hb. cbn.
      split; [reflexivity|]. split; [exact Hw|exact Hs].
Qed.

(** For a non-empty list of options [showChoices] always returns, replaces
    the buttons on offer by one button for each option that has a label, in
    the order of the options, and raises [waitingForInput]; an option
    without a label gets no button, so the button at index [i] is the
    [i]-th labelled option.  Node, cursor, steps, variables and sprites stay
    as they were. *)
Theorem showChoices_offers_the_labelled_options
    (p : option string) (o : ChoiceOption) (opts : list ChoiceOption) (e : Engine) :
  exists e',
    showChoices p (Some (o :: opts)) e = Returned tt e'
    /\ choiceButtons e' = omap button_of (o :: opts)
    /\ waitingForInput e' = true
    /\ same_scene e e'.
Proof.
  unfold showChoices. rewrite bind_emit, bind_modify.
  match goal with
  | |- context [bind (addButtons 0 (o :: opts)) _ ?e1] =>
      destruct (addButtons_unfold (o :: opts) 0 e1) as (e' & Hrun & Hb & _ & Hs)
  end.
  exists (with_waitingForInput true e').
  split; [now rewrite (bind_Returned _ _ _ _ _ Hrun)|].
  split; [exact Hb|]. split; [reflexivity|exact Hs].
Qed.

(** *** Variables *)



(** *** Lines without text *)

(** A [narration] step without text, or a [dialogue] step without speaker
    or text, shows nothing and does not raise [waitingForInput], yet it
    stops the walk.  When the flag was not raised before, the story is then
    stuck: [advance] finds the flag down and does nothing. *)
Theorem line_without_text_stalls (fuel fuel' : nat) (e : Engine) (step : Step) :
  currentSteps e !! currentStepIndex e = Some step ->
  waitingForInput e = false ->
  (type step = Some StepType.narration /\ truthy (text step) = false)
  \/ (type step = Some StepType.dialogue
      /\ (truthy (who step) = false \/ truthy (text step) = false)) ->
  exists msg,
    executeSteps (S fuel) e = Returned tt (logged (Console LError msg) e)
    /\ advance fuel' (logged (Console LError msg) e)
       = Returned tt (logged (Console LError msg) e).
Proof.
  intros Hat Hwait Hcase.
  assert (Hstep : exists msg, forall exec,
    executeStep exec step e = Returned true (logged (Console LError msg) e)).
  { destruct Hcase as [[Hty Htxt]|[Hty Hmiss]].
    - exists Log.NarrationMissingText. intros exec.
      rewrite executeStep_guard. unfold executeCase. rewrite Hty.
      unfold bind, showNarration. now rewrite Htxt.
    - destruct (truthy (who step)) eqn:Hwho.
      + destruct Hmiss as [Hmiss|Htxt]; [discriminate|].
        exists (Log.DialogueMissingText (default "" (who step))). intros exec.
        rewrite executeStep_guard. unfold executeCase. rewrite Hty.
        unfold bind, showDialogue. now rewrite Hwho, Htxt.
      + exists Log.DialogueMissingWho. intros exec.
        rewrite executeStep_guard. unfold executeCase. rewrite Hty.
        unfold bind, showDialogue. now rewrite Hwho. }
  destruct Hstep as (msg & Hstep). exists msg. split.
  - now rewrite executeSteps_S, Hat, Hstep.
  - apply advance_not_waiting. exact Hwait.
Qed.

Lemma line_without_text_stalls_witness :
  exists msg,
    executeSteps 3 (standing_at choice_then_end "Start"
                      [step_of StepType.narration; narration "never"])
    = Returned tt
        (logged (Console LError msg)
           (standing_at choice_then_end "Start"
              [step_of StepType.narration; narration "never"])).
Proof.
  destruct (line_without_text_stalls 2 5
              (standing_at choice_then_end "Start"
                 [step_of StepType.narration; narration "never"])
              (step_of StepType.narration))
    as (msg & Hwalk & _); [reflexivity|reflexivity|left; now split|].
  now exists msg.
Defined.

(** *** Steps made by the builders *)

Lemma validateOptions_labelled (n : string) (i : nat) (opts : list ChoiceOption)
    (optIdx : nat) (a : Acc) :
  Forall (fun o => truthy (label o) = true) opts ->
  errors (validateOptions n i optIdx opts a) = errors a.
Proof.
  intros Hall. revert optIdx a.
  induction Hall as [|o rest Ho _ IH]; intros optIdx a; cbn [validateOptions];
    [reflexivity|].
  rewrite IH. unfold validateOption. cbv zeta. rewrite Ho. cbn [negb push_if].
  destruct (target o) as [t|]; [destruct (truthy (Some t))|]; reflexivity.
Qed.

(** The steps the builders of [story-format.js] make get no diagnostic of
    their own from the validator, provided their text arguments are not
    empty, the places, characters and poses they name are defined in the
    story, a [set_variable] is given a value, and a choice has at least one
    option and a label on each. *)
Theorem builder_steps_pass_the_step_checks (story : Story) (n : string) (i : nat) :
  (forall p, p <> "" -> is_Some (places story !! p) ->
     stepDiags story n i (StoryFormat.background p) = [])
  /\ (forall c ch p poseName pos,
        c <> "" -> characters story !! c = Some ch ->
        pose_name p = Some poseName -> truthy (poses ch !! poseName) = true ->
        stepDiags story n i (StoryFormat.showCharacter c p pos) = [])
  /\ (forall c, c <> "" -> stepDiags story n i (StoryFormat.hideCharacter c) = [])
  /\ (forall w txt, w <> "" -> is_Some (characters story !! w) -> txt <> "" ->
        stepDiags story n i (StoryFormat.dialogue w txt) = [])
  /\ (forall txt, txt <> "" -> stepDiags story n i (StoryFormat.narration txt) = [])
  /\ (forall k v, k <> "" -> v <> Literal VUndefined ->
        stepDiags story n i (StoryFormat.setVariable k v) = [])
  /\ (forall t, t <> "" -> stepDiags story n i (StoryFormat.jumpTo t) = [])
  /\ (forall f t e, t <> "" ->
        stepDiags story n i (StoryFormat.conditionalJump f t e) = [])
  /\ (forall p o opts, p <> "" ->
        Forall (fun o' => truthy (label o') = true) (o :: opts) ->
        stepDiags story n i (StoryFormat.choice p (o :: opts)) = [])
  /\ stepDiags story n i StoryFormat.endStory = [].
Proof.
  unfold stepDiags, validateStep. repeat apply conj; cbn -[truthy validateOptions].
  - intros p Hp Hplace. rewrite (truthy_Some _ Hp). cbn.
    now rewrite bool_decide_eq_true_2.
  - intros c ch p poseName pos Hc Hch Hp Hpose. rewrite (truthy_Some _ Hc). cbn.
    rewrite Hch, Hp. cbn. now rewrite Hpose.
  - intros c Hc. now rewrite (truthy_Some _ Hc).
  - intros w txt Hw Hch Htxt. rewrite (truthy_Some _ Hw), (truthy_Some _ Htxt). cbn.
    now rewrite bool_decide_eq_true_2.
  - intros txt Htxt. now rewrite (truthy_Some _ Htxt).
  - intros k v Hk Hv. rewrite (truthy_Some _ Hk). cbn.
    destruct v as [[]|]; try reflexivity. contradiction.
  - intros t Ht. now rewrite (truthy_Some _ Ht).
  - intros f t e Ht. rewrite (truthy_Some _ Ht). cbn.
    destruct e as [t'|]; [cbn; destruct (negb _)|]; reflexivity.
  - intros p o opts Hp Hall. rewrite (truthy_Some _ Hp). cbn [negb push_if].
    rewrite validateOptions_labelled by exact Hall. reflexivity.
  - reflexivity.
Qed.

Lemma builder_steps_pass_the_step_checks_witness :
  stepDiags stage_story "Start" 0 (StoryFormat.background "park") = []
  /\ stepDiags stage_story "Start" 2 (StoryFormat.dialogue "alice" "Hello") = [].
Proof.
  destruct (builder_steps_pass_the_step_checks stage_story "Start" 0)
    as (Hbg & _).
  destruct (builder_steps_pass_the_step_checks stage_story "Start" 2)
    as (_ & _ & _ & Hdia & _).
  split.
  - apply Hbg; [discriminate|]. now eexists.
  - apply Hdia; [discriminate| |discriminate]. now eexists.
Defined.

(** *** Preloaded images *)

Lemma elem_of_urls_of (table : gmap string string) (url : string) :
  url ∈ Preloader.urls_of table
  <-> url <> "" /\ exists k, table !! k = Some url.
Proof.
  unfold Preloader.urls_of. rewrite elem_of_list_to_set, list_elem_of_filter.
  rewrite truthy_spec, list_elem_of_fmap. split.
  - intros [Hne ([k u] & -> & Hin)]. split; [exact Hne|]. exists k.
    now apply elem_of_map_to_list in Hin.
  - intros [Hne (k & Hk)]. split; [exact Hne|]. exists (k, url).
    split; [reflexivity|]. now apply elem_of_map_to_list.
Qed.

Lemma elem_of_imageUrls (story : Story) (url : string) :
  url ∈ Preloader.imageUrls story
  <-> url <> ""
      /\ ((exists k, places story !! k = Some url)
          \/ exists c ch p, characters story !! c = Some ch
                            /\ poses ch !! p = Some url).
Proof.
  unfold Preloader.imageUrls. rewrite elem_of_union, elem_of_urls_of, elem_of_union_list.
  split.
  - intros [[Hne Hk]|(X & HX & Hin)]; [now split; [|left]|].
    apply list_elem_of_fmap in HX as ([c ch] & -> & Hc).
    apply elem_of_map_to_list in Hc. apply elem_of_urls_of in Hin as [Hne (p & Hp)].
    split; [exact Hne|]. right. now exists c, ch, p.
  - intros [Hne [Hk|(c & ch & p & Hc & Hp)]]; [now left|]. right.
    exists (Preloader.urls_of (poses ch)). split.
    + apply list_elem_of_fmap. exists (c, ch). split; [reflexivity|].
      now apply elem_of_map_to_list.
    + apply elem_of_urls_of. split; [exact Hne|]. now exists p.
Qed.

(** The urls the preloader collects are the non-empty image references of
    the story: those of its places and those of the poses of its
    characters, each once. *)
Theorem imageUrls_are_the_images_of_the_story (story : Story) (url : string) :
  url ∈ Preloader.imageUrls story
  <-> url <> ""
      /\ ((exists k, places story !! k = Some url)
          \/ exists c ch p, characters story !! c = Some ch
                            /\ poses ch !! p = Some url).
Proof. exact (elem_of_imageUrls story url). Qed.

Ltac shown_write :=
  first
    [ assumption
    | match goal with
      | H : ShownInv _ _ |- ShownInv _ _ =>
          destruct H as (? & ?); split; [assumption|];
          apply Forall_app; split; [assumption|];
          constructor; [exact I|constructor]
      end ].

Lemma ShownInv_logged (s : Story) (ev : Event) (e : Engine) :
  preloaded s ev -> ShownInv s e -> ShownInv s (logged ev e).
Proof.
  intros Hev (Hs & Ht). split; [exact Hs|].
  apply Forall_app. split; [exact Ht|]. now constructor.
Qed.

Lemma ShownInv_setBackground (s : Story) (placeId : option string) :
  Keeps (ShownInv s) (setBackground placeId).
Proof.
  intros e He. unfold setBackground. rewrite bind_gets.
  destruct (truthy (places (story e) !! js_key placeId)) eqn:Ht.
  - apply truthy_true in Ht as (path & Hpath & Hne). rewrite Hpath.
    apply ShownInv_logged; [|exact He]. cbn.
    apply elem_of_imageUrls. split; [exact Hne|]. left.
    exists (js_key placeId). destruct He as (<- & _). exact Hpath.
  - now apply ShownInv_logged.
Qed.

Lemma ShownInv_showCharacter (s : Story) (charId : option string)
    (p : option CharacterPose) (pos : option CharacterPosition) :
  Keeps (ShownInv s) (showCharacter charId p pos).
Proof.
  intros e He. unfold showCharacter. rewrite bind_gets.
  destruct (characters (story e) !! js_key charId) as [ch|] eqn:Hch;
    [|now apply ShownInv_logged].
  destruct (p ≫= pose_name) as [poseName|]; [|now apply ShownInv_logged].
  destruct (negb (truthy (Some poseName))); [now apply ShownInv_logged|].
  cbv zeta.
  destruct (truthy (poses ch !! poseName)) eqn:Himg;
    [|now apply ShownInv_logged].
  apply truthy_true in Himg as (img & Himg & Hne). cbn [negb].
  destruct (pos ≫= position_name) as [positionName|]; [|now apply ShownInv_logged].
  destruct (negb (truthy (Some positionName))); [now apply ShownInv_logged|].
  destruct (negb (known_position positionName)); [now apply ShownInv_logged|].
  rewrite bind_emit. cbn [modify final]. rewrite Himg. cbn [default].
  assert (Hok : ShownInv s (logged (Render (SetCharacterSprite positionName img)) e)).
  { apply ShownInv_logged; [|exact He]. cbn.
    apply elem_of_imageUrls. split; [exact Hne|]. right.
    exists (js_key charId), ch, poseName. destruct He as (<- & _). now split. }
  exact Hok.
Qed.

Lemma ShownInv_signal (s : Story) (fuel : nat) (sig : Signal) :
  Keeps (ShownInv s) (signal fuel sig)
  /\ (forall n, Keeps (ShownInv s) (jumpToNode (executeSteps fuel) n)).
Proof.
  pose proof (ShownInv_setBackground s) as Hbg.
  pose proof (ShownInv_showCharacter s) as Hshow.
  assert (Hadd : forall opts index, Keeps (ShownInv s) (addButtons index opts)).
  { induction opts as [|o rest IH]; intros index; cbn [addButtons];
      keeps shown_write. }
  assert (Hcho : forall p opts, Keeps (ShownInv s) (showChoices p opts)).
  { intros p opts. unfold showChoices.
    destruct opts as [[|o rest]|]; keeps shown_write. }
  assert (Hjump : forall exec n, Keeps (ShownInv s) exec ->
                                 Keeps (ShownInv s) (jumpToNode exec n)).
  { intros exec n Hexec. unfold jumpToNode, resolveNode. keeps shown_write. }
  assert (Hsteps : forall fuel', Keeps (ShownInv s) (executeSteps fuel')).
  { induction fuel' as [|fuel' IH]; cbn [executeSteps]; [now intros e|].
    pose proof (fun n => Hjump (executeSteps fuel') n IH) as Hjump'.
    unfold executeStep, executeCase, hideCharacter, hideAt, showDialogue,
      showNarration, setVariable, endStory.
    keeps shown_write. }
  pose proof (Hsteps fuel) as Hexec.
  pose proof (fun n => Hjump (executeSteps fuel) n Hexec) as Hjump'.
  split; [|exact Hjump'].
  destruct sig as [|i]; cbn [signal].
  - unfold advance. keeps shown_write.
  - unfold choose, clickChoice, runEffect. keeps shown_write.
Qed.

(** When no step of the story names a place or a pose by a name that
    every object inherits, every picture the engine puts on the page, as a
    backdrop or as the sprite of a character, is one of the urls the
    preloader collects from the story, whatever the signals and the fuel of
    the walks. *)
Theorem engine_shows_only_preloaded_images
    (fuel fuel' : nat) (storyData : Story) (heap : gmap loc Variables)
    (signals : list Signal) (ev : Event) :
  (forall ns, nodes storyData = Some ns ->
     forallb (fun leaf => forallb plain_images leaf.2) (leaves ns "") = true) ->
  ev ∈ trace (run fuel' signals (final (construct fuel storyData heap))) ->
  preloaded storyData ev.
Proof.
  intros _.
  assert (Hrun : forall e, ShownInv storyData e ->
                           ShownInv storyData (run fuel' signals e)).
  { induction signals as [|sig rest IH]; intros e He; cbn [run]; [exact He|].
    apply IH. now apply (ShownInv_signal storyData fuel' sig). }
  assert (Hinit : ShownInv storyData (final (construct fuel storyData heap))).
  { apply (ShownInv_signal storyData fuel Advance). split; [reflexivity|].
    cbn. constructor; [exact I|]. destruct (bool_decide _); repeat constructor. }
  destruct (Hrun _ Hinit) as (_ & Htrace). rewrite Forall_forall in Htrace.
  apply Htrace.
Qed.

Lemma engine_shows_only_preloaded_images_witness :
  "park.png" ∈ Preloader.imageUrls stage_story.
Proof.
  apply (engine_shows_only_preloaded_images 10 10 stage_story heap0 []
           (Render (SetBackground "park.png"))).
  - intros ns [= <-]. reflexivity.
  - apply list_elem_of_In. vm_compute. tauto.
Defined.

(** *** Stories that stage every step *)

Lemma errors_validateOption (n : string) (i optIdx : nat) (o : ChoiceOption) (a : Acc) :
  errors (validateOption n i optIdx o a)
  = errors a ++ (if truthy (label o) then []
                 else [diag error (ChoiceOptionMissingLabel optIdx)
                            (AtOption n i optIdx)]).
Proof.
  unfold validateOption. cbv zeta.
  destruct (target o) as [t|]; [destruct (truthy (Some t))|];
    rewrite ?errors_reference, errors_push_if; now destruct (truthy (label o)).
Qed.

Lemma validateOptions_clean (n : string) (i : nat) (opts : list ChoiceOption)
    (optIdx : nat) (a : Acc) :
  (forall msg loc,
     diag error msg loc ∈ errors (validateOptions n i optIdx opts a) -> False) ->
  Forall (fun o => truthy (label o) = true) opts.
Proof.
  revert optIdx a. induction opts as [|o rest IH]; intros optIdx a Hbad;
    [constructor|]. cbn [validateOptions] in Hbad. constructor.
  - destruct (truthy (label o)) eqn:Hl; [reflexivity|]. exfalso.
    eapply Hbad. rewrite errors_validateOptions, errors_validateOption, Hl.
    rewrite !elem_of_app. left. right. apply list_elem_of_here.
  - exact (IH _ _ Hbad).
Qed.

Lemma no_errors_stepDiags_staged (story : Story) (n : string) (i : nat) (step : Step) :
  no_errors (stepDiags story n i step) -> staged story step.
Proof.
  unfold no_errors, stepDiags, validateStep, staged. cbv zeta. intros Hclean.
  assert (Hbad : forall msg loc, diag error msg loc
                   ∈ errors (validateStep story n i step empty_acc).1 -> False).
  { intros msg loc Hin. now apply (Hclean _ Hin). }
  clear Hclean. unfold validateStep in Hbad. cbv zeta in Hbad.
  destruct (type step) as [[]|]; cbn [fst] in Hbad.
  - (* background *)
    destruct (id step) as [placeId|];
      [|exfalso; eapply Hbad; apply list_elem_of_here].
    destruct (truthy (Some placeId)) eqn:Ht; cbn [negb] in Hbad;
      [|exfalso; eapply Hbad; apply list_elem_of_here].
    apply truthy_spec in Ht. exists placeId. split; [reflexivity|]. split; [exact Ht|].
    destruct (bool_decide (is_Some (places story !! placeId))) eqn:Hp;
      [now apply bool_decide_eq_true in Hp|].
    exfalso; eapply Hbad; apply list_elem_of_here.
  - (* show_character *)
    rewrite !errors_push_if in Hbad.
    destruct (id step) as [charId|];
      [|exfalso; eapply Hbad; rewrite !elem_of_app; left; left; apply list_elem_of_here].
    destruct (truthy (Some charId)) eqn:Ht; cbn [negb] in Hbad;
      [|exfalso; eapply Hbad; rewrite !elem_of_app; left; left; apply list_elem_of_here].
    apply truthy_spec in Ht.
    destruct (characters story !! charId) as [character|] eqn:Hch;
      [|exfalso; eapply Hbad; rewrite !elem_of_app; left; left; apply list_elem_of_here].
    exists charId, character.
    split; [reflexivity|]. split; [exact Ht|]. split; [exact Hch|].
    intros p Hp. rewrite Hp in Hbad.
    destruct (truthy (poses character !! js_key (pose_name p))); [reflexivity|].
    exfalso; eapply Hbad; rewrite !elem_of_app; left; left; apply list_elem_of_here.
  - (* hide_character *) exact I.
  - (* dialogue *)
    rewrite errors_push_if in Hbad.
    destruct (truthy (text step)) eqn:Htxt; cbn [negb] in Hbad;
      [|exfalso; eapply Hbad; rewrite elem_of_app; right; apply list_elem_of_here].
    destruct (who step) as [w|];
      [|exfalso; eapply Hbad; rewrite elem_of_app; left; apply list_elem_of_here].
    destruct (truthy (Some w)) eqn:Ht; cbn [negb] in Hbad;
      [|exfalso; eapply Hbad; rewrite elem_of_app; left; apply list_elem_of_here].
    apply truthy_spec in Ht. exists w.
    split; [reflexivity|]. split; [exact Ht|]. split; [|reflexivity].
    destruct (bool_decide (is_Some (characters story !! w))) eqn:Hc;
      [now apply bool_decide_eq_true in Hc|].
    exfalso; eapply Hbad; rewrite elem_of_app; left; apply list_elem_of_here.
  - (* narration *)
    destruct (truthy (text step)); [reflexivity|].
    exfalso; eapply Hbad; apply list_elem_of_here.
  - (* set_variable *)
    destruct (truthy (key step)); [reflexivity|].
    exfalso. eapply (Hbad SetVariableMissingKey).
    destruct (value step) as [[]|]; cbn; rewrite ?elem_of_app;
      first [apply list_elem_of_here | left; apply list_elem_of_here].
  - (* jump_to *) exact I.
  - (* conditional_jump *) exact I.
  - (* choice *)
    destruct (options step) as [opts|];
      [|exfalso; eapply Hbad; rewrite errors_push, elem_of_app; right;
        apply list_elem_of_here].
    exists opts. split; [reflexivity|].
    split.
    + intros ->. eapply Hbad. cbn [validateOptions length].
      rewrite errors_push_if, elem_of_app. right. apply list_elem_of_here.
    + exact (validateOptions_clean _ _ _ _ _ Hbad).
  - exact I.
  - eapply Hbad. apply list_elem_of_here.
  - eapply Hbad. apply list_elem_of_here.
Qed.

Ltac stage_write :=
  first
    [ assumption
    | match goal with
      | H : StageInv _ _ |- StageInv _ _ =>
          destruct H as (? & ? & ?); repeat apply conj; try assumption;
          apply Forall_app; split; [assumption|];
          constructor; [reflexivity|constructor]
      end ].

Section Staged.

Variable s : Story.
Variable ns : Nodes.
Hypothesis Hns : nodes s = Some ns.
Hypothesis Hplaces : forall k, places s !! k <> Some "".
Hypothesis Hstaged :
  forall n steps step, (n, steps) ∈ leaves ns "" -> step ∈ steps -> staged s step.

Lemma StageInv_logged (ev : Event) (e : Engine) :
  staging_failure ev = false -> StageInv s e -> StageInv s (logged ev e).
Proof.
  intros Hev (Hs & Hn & Ht). repeat apply conj; [exact Hs|exact Hn|].
  apply Forall_app. split; [exact Ht|]. now constructor.
Qed.

Lemma StageInv_jumpToNode (exec : M unit) (nodeId : option string) :
  Keeps (StageInv s) exec -> Keeps (StageInv s) (jumpToNode exec nodeId).
Proof.
  intros Hexec e He. destruct nodeId as [n|]; [|exact He].
  destruct (resolve (nodes (story e)) n) as [steps|pathSoFar keys|keys] eqn:Hres.
  - rewrite (jumpToNode_found _ _ _ _ Hres). apply Hexec.
    destruct He as (Hs & _ & Ht). repeat apply conj; [exact Hs|exact Hres|exact Ht].
  - rewrite jumpToNode_unresolved by (intros steps; congruence). rewrite Hres.
    destruct He as (Hs & Hn & Ht). repeat apply conj; [exact Hs|exact Hn|].
    cbn. apply Forall_app. split; [exact Ht|]. repeat constructor.
  - rewrite jumpToNode_unresolved by (intros steps; congruence). rewrite Hres.
    destruct He as (Hs & Hn & Ht). repeat apply conj; [exact Hs|exact Hn|].
    cbn. apply Forall_app. split; [exact Ht|]. repeat constructor.
Qed.

Lemma StageInv_setBackground (placeId : string) :
  placeId <> "" -> is_Some (places s !! placeId) ->
  Keeps (StageInv s) (setBackground (Some placeId)).
Proof.
  intros Hne [url Hurl] e He. unfold setBackground. rewrite bind_gets.
  destruct He as (Hs & Hn & Ht). cbv beta. rewrite Hs.
  change (js_key (Some placeId)) with placeId. rewrite Hurl.
  rewrite (proj2 (truthy_spec url)) by (intros ->; now apply (Hplaces placeId)).
  apply StageInv_logged; [reflexivity|now repeat split].
Qed.

Lemma StageInv_showCharacter (charId : string) (character : Character)
    (p : option CharacterPose) (pos : option CharacterPosition) :
  characters s !! charId = Some character ->
  (forall q, p = Some q -> truthy (poses character !! js_key (pose_name q)) = true) ->
  Keeps (StageInv s) (showCharacter (Some charId) p pos).
Proof.
  intros Hch Hpose e He. unfold showCharacter. rewrite bind_gets.
  pose proof He as (Hs & _). cbv beta. rewrite Hs.
  change (js_key (Some charId)) with charId. rewrite Hch.
  destruct p as [q|]; cbn [mbind option_bind]; [|now apply StageInv_logged].
  specialize (Hpose q eq_refl).
  destruct (pose_name q) as [poseName|]; [|now apply StageInv_logged].
  change (js_key (Some poseName)) with poseName in Hpose.
  destruct (negb (truthy (Some poseName))); [now apply StageInv_logged|].
  cbv zeta. rewrite Hpose. cbn [negb].
  destruct (pos ≫= position_name) as [positionName|]; [|now apply StageInv_logged].
  destruct (negb (truthy (Some positionName))); [now apply StageInv_logged|].
  destruct (negb (known_position positionName)); [now apply StageInv_logged|].
  rewrite bind_emit. cbn [modify final].
  destruct He as (Hs' & Hn & Ht). repeat apply conj; [exact Hs'|exact Hn|].
  cbn. apply Forall_app. split; [exact Ht|]. repeat constructor.
Qed.

Lemma StageInv_showDialogue (w : string) (txt : option string) :
  w <> "" -> is_Some (characters s !! w) -> truthy txt = true ->
  Keeps (StageInv s) (showDialogue (Some w) txt).
Proof.
  intros Hne [c Hc] Htxt e He. unfold showDialogue.
  rewrite (proj2 (truthy_spec w) Hne), Htxt. cbn [negb]. rewrite bind_gets.
  pose proof He as (Hs & _). cbv beta. rewrite Hs.
  change (default "" (Some w)) with w. rewrite Hc.
  match goal with
  | |- StageInv s (final (?m e)) =>
      assert (K : Keeps (StageInv s) m) by keeps stage_write; exact (K e He)
  end.
Qed.

Lemma StageInv_addButtons (opts : list ChoiceOption) (index : nat) :
  Forall (fun o => truthy (label o) = true) opts ->
  Keeps (StageInv s) (addButtons index opts).
Proof.
  intros Hall. revert index.
  induction Hall as [|o rest Ho _ IH]; intros index; cbn [addButtons].
  - apply Keeps_ret.
  - rewrite Ho. keeps stage_write.
Qed.

Lemma StageInv_executeCase (exec : M unit) (step : Step) :
  staged s step -> Keeps (StageInv s) exec ->
  Keeps (StageInv s) (executeCase exec step).
Proof.
  intros Hstep Hexec.
  pose proof (fun n => StageInv_jumpToNode exec n Hexec) as Hjump.
  unfold staged in Hstep. unfold executeCase.
  destruct (type step) as [[]|]; try contradiction.
  - destruct Hstep as (placeId & -> & Hne & Hp).
    apply Keeps_bind; [now apply StageInv_setBackground|intros _; apply Keeps_ret].
  - destruct Hstep as (charId & character & -> & Hne & Hch & Hpose).
    apply Keeps_bind; [now apply (StageInv_showCharacter charId character)
                      |intros _; apply Keeps_ret].
  - unfold hideCharacter, hideAt. keeps stage_write.
  - destruct Hstep as (w & -> & Hne & Hc & Htxt).
    apply Keeps_bind; [now apply StageInv_showDialogue|intros _; apply Keeps_ret].
  - unfold showNarration. rewrite Hstep. cbn [negb]. keeps stage_write.
  - unfold setVariable. rewrite Hstep. cbn [negb]. keeps stage_write.
  - keeps stage_write.
  - keeps stage_write.
  - destruct Hstep as (opts & -> & Hne & Hall).
    apply Keeps_bind; [|intros _; apply Keeps_ret].
    unfold showChoices. destruct opts as [|o rest]; [contradiction|].
    pose proof (StageInv_addButtons (o :: rest) 0 Hall) as Hadd.
    keeps stage_write.
  - unfold endStory. keeps stage_write.
Qed.

Lemma StageInv_current_step (e : Engine) (step : Step) :
  StageInv s e -> currentSteps e !! currentStepIndex e = Some step ->
  staged s step.
Proof.
  intros (Hs & Hn & _) Hat. unfold node_ok in Hn. destruct (currentNode e) as [n|].
  - rewrite Hs, Hns in Hn. apply resolve_reaches_leaf in Hn as (m & Hm).
    apply (Hstaged m (currentSteps e) step Hm). now apply list_elem_of_lookup_2 in Hat.
  - rewrite Hn in Hat. discriminate.
Qed.

Lemma StageInv_executeSteps (fuel : nat) : Keeps (StageInv s) (executeSteps fuel).
Proof.
  induction fuel as [|fuel IH]; intros e He; [exact He|].
  rewrite executeSteps_S.
  destruct (currentSteps e !! currentStepIndex e) as [step|] eqn:Hat;
    [|now apply StageInv_logged].
  assert (Hstep : StageInv s (final (executeStep (executeSteps fuel) step e))).
  { revert e He Hat. intros e He Hat.
    pose proof (StageInv_executeCase (executeSteps fuel) step
                  (StageInv_current_step e step He Hat) IH) as Hcase.
    revert e He Hat. unfold executeStep.
    intros e He _. revert e He. keeps stage_write. }
  destruct (executeStep (executeSteps fuel) step e) as [[] e'|err e'|e'];
    cbn in Hstep; try exact Hstep.
  apply IH. exact Hstep.
Qed.

Lemma StageInv_signal (fuel : nat) (sig : Signal) :
  Keeps (StageInv s) (signal fuel sig).
Proof.
  pose proof (StageInv_executeSteps fuel) as Hexec.
  pose proof (fun n => StageInv_jumpToNode (executeSteps fuel) n Hexec) as Hjump.
  destruct sig as [|i]; cbn [signal].
  - unfold advance. keeps stage_write.
  - unfold choose, clickChoice, runEffect. keeps stage_write.
Qed.

Lemma StageInv_run (fuel : nat) (signals : list Signal) (e : Engine) :
  StageInv s e -> StageInv s (run fuel signals e).
Proof.
  revert e. induction signals as [|sig rest IH]; intros e He; cbn [run]; [exact He|].
  apply IH. now apply StageInv_signal.
Qed.

Lemma StageInv_construct (fuel : nat) (heap : gmap loc Variables) :
  StageInv s (final (construct fuel s heap)).
Proof.
  unfold construct.
  apply (StageInv_jumpToNode _ _ (StageInv_executeSteps fuel)).
  repeat apply conj; try reflexivity.
  cbn. constructor; [reflexivity|]. destruct (bool_decide _); repeat constructor.
Qed.

End Staged.


